(** * NetLink: the link-layer network interface and the IPv4 router

    A shallow embedding of [src/router.cc] (which holds [Router],
    [AsyncNetworkInterface] and [NetworkInterface]) and of the data
    structures declared in [src/network_interface.hh].

    Conventions.
    - Fixed-width integers are [Z]; a narrowing conversion or a wrap-around
      is written out where the source has one ([static_cast_int],
      [uint8_dec], the 32-bit mask of [isPrefixMatch]).
    - [std::vector] is [list]; [v[i]] and [v.erase(v.begin()+i)] go through
      [at_index], [assign_at] and [erase_at], which report an out-of-bounds
      access instead of hiding it.
    - A member function [void f(args)] of a class with state [S] is a
      function [args -> S -> outcome S]: [exit(1)] is the outcome [Exited].
    - The IPv4, ARP and checksum codecs live outside the repository; they
      are the fields of the class [Codec]. *)

From Stdlib Require Import ZArith Lia Bool.
From stdpp Require Import base tactics numbers option list.

Local Open Scope Z_scope.

(** ** Outcomes of a call *)

Inductive outcome (A : Type) : Type :=
| Done (a : A)      (* the call returned *)
| Exited            (* a sanity check called exit(1) *)
| Undefined.        (* out-of-bounds vector access *)

Arguments Done {A} a.
Arguments Exited {A}.
Arguments Undefined {A}.

#[global] Instance outcome_ret : MRet outcome := fun A a => Done a.

#[global] Instance outcome_bind : MBind outcome := fun A B k m =>
  match m with
  | Done a => k a
  | Exited => Exited
  | Undefined => Undefined
  end.

(** ** Vector accesses with a signed [int] index *)

Definition in_bounds {A} (v : list A) (i : Z) : bool :=
  (0 <=? i) && (i <? Z.of_nat (length v)).

(* v[i] *)
Definition at_index {A} (v : list A) (i : Z) : outcome A :=
  if in_bounds v i then
    match v !! Z.to_nat i with
    | Some x => Done x
    | None => Undefined
    end
  else Undefined.

(* v[i] = x *)
Definition assign_at {A} (v : list A) (i : Z) (x : A) : outcome (list A) :=
  if in_bounds v i then Done (<[Z.to_nat i := x]> v) else Undefined.

(* v.erase(v.begin() + i) *)
Definition erase_at {A} (v : list A) (i : Z) : outcome (list A) :=
  if in_bounds v i then Done (delete (Z.to_nat i) v) else Undefined.

(** ** Data model *)

(* std::array<uint8_t, 6> *)
Definition EthernetAddress : Type := (Z * Z * Z * Z * Z * Z)%type.

Definition ETHERNET_BROADCAST : EthernetAddress :=
  (255, 255, 255, 255, 255, 255).

(* A value-initialised address, written [{}] in the source. *)
Definition ETHERNET_ZERO : EthernetAddress := (0, 0, 0, 0, 0, 0).

(* The Address collaborator, reduced to the IPv4 number it wraps. *)
Record Address := from_ipv4_numeric { ipv4_numeric : Z }.

Module IPv4Header.
(* The fields the router reads or writes, and the rest of the header. *)
Record t := mk {
  ttl : Z;              (* uint8_t *)
  dst : Z;              (* uint32_t *)
  cksum : Z;            (* uint16_t *)
  others : list Z
}.
Definition set_ttl (h : t) (x : Z) : t :=
  mk x (dst h) (cksum h) (others h).
Definition set_cksum (h : t) (x : Z) : t :=
  mk (ttl h) (dst h) x (others h).
End IPv4Header.

Module InternetDatagram.
Record t := mk {
  header : IPv4Header.t;
  payload : list Z
}.
Definition set_header (d : t) (h : IPv4Header.t) : t := mk h (payload d).
End InternetDatagram.

Module EthernetHeader.
Definition TYPE_IPv4 : Z := 0x800.
Definition TYPE_ARP : Z := 0x806.
Record t := mk {
  dst : EthernetAddress;
  src : EthernetAddress;
  type : Z              (* uint16_t *)
}.
End EthernetHeader.

Module EthernetFrame.
Record t := mk {
  header : EthernetHeader.t;
  payload : list Z      (* the serialized bytes *)
}.
End EthernetFrame.

Module ARPMessage.
Definition OPCODE_REQUEST : Z := 1.
Definition OPCODE_REPLY : Z := 2.
Record t := mk {
  opcode : Z;           (* uint16_t *)
  sender_ethernet_address : EthernetAddress;
  sender_ip_address : Z;
  target_ethernet_address : EthernetAddress;
  target_ip_address : Z
}.
End ARPMessage.

(* struct ARPTableEntry of network_interface.hh *)
Module ARPTableEntry.
Record t := mk {
  complete_entry : bool;
  ip_address : Z;       (* uint32_t *)
  mac_address : EthernetAddress;
  ttl : Z               (* int, milliseconds *)
}.
Definition set_ttl (e : t) (x : Z) : t :=
  mk (complete_entry e) (ip_address e) (mac_address e) x.
Definition set_mac_address (e : t) (m : EthernetAddress) : t :=
  mk (complete_entry e) (ip_address e) m (ttl e).
Definition set_complete_entry (e : t) (b : bool) : t :=
  mk b (ip_address e) (mac_address e) (ttl e).
End ARPTableEntry.

(* struct IPQueue of network_interface.hh *)
Module IPQueue.
Record t := mk {
  ip_address : Z;
  datagrams : list InternetDatagram.t
}.
Definition push_back (q : t) (d : InternetDatagram.t) : t :=
  mk (ip_address q) (datagrams q ++ [d]).
End IPQueue.

(* The data members of class NetworkInterface. *)
Record NetworkInterface := mkNetworkInterface {
  ethernet_address_ : EthernetAddress;
  ip_address_ : Address;
  ARPTable : list ARPTableEntry.t;
  ReadyToBeSentQueue : list EthernetFrame.t;
  IPQueues : list IPQueue.t
}.

Definition set_ARPTable (s : NetworkInterface) (t : list ARPTableEntry.t) :=
  mkNetworkInterface (ethernet_address_ s) (ip_address_ s) t
                     (ReadyToBeSentQueue s) (IPQueues s).

Definition set_IPQueues (s : NetworkInterface) (q : list IPQueue.t) :=
  mkNetworkInterface (ethernet_address_ s) (ip_address_ s) (ARPTable s)
                     (ReadyToBeSentQueue s) q.

Definition set_ReadyToBeSentQueue (s : NetworkInterface)
    (q : list EthernetFrame.t) :=
  mkNetworkInterface (ethernet_address_ s) (ip_address_ s) (ARPTable s)
                     q (IPQueues s).

(* ReadyToBeSentQueue.push_back(frame) *)
Definition push_frame (s : NetworkInterface) (f : EthernetFrame.t) :=
  set_ReadyToBeSentQueue s (ReadyToBeSentQueue s ++ [f]).

(* NetworkInterface::NetworkInterface *)
Definition NetworkInterface_new (ethernet_address : EthernetAddress)
    (ip_address : Address) : NetworkInterface :=
  mkNetworkInterface ethernet_address ip_address [] [] [].

(** ** Helper functions of NetworkInterface *)

Definition makeArp (opcode : Z) (sender_ethernet_address : EthernetAddress)
    (sender_ip_address : Z) (target_ethernet_address : EthernetAddress)
    (target_ip_address : Z) : ARPMessage.t :=
  ARPMessage.mk opcode sender_ethernet_address sender_ip_address
                target_ethernet_address target_ip_address.

Definition makeFrame (src dst : EthernetAddress) (type : Z)
    (payload : list Z) : EthernetFrame.t :=
  EthernetFrame.mk (EthernetHeader.mk dst src type) payload.

(* The scan of isEntryInARPTable from loop index [i]; the result is the
   pair (index, found) that the source writes to its out-parameters. *)
Fixpoint isEntryInARPTable_from (i : Z) (tbl : list ARPTableEntry.t)
    (ip_address : Z) : Z * Z :=
  match tbl with
  | [] => (-1, 0)
  | e :: rest =>
      if ARPTableEntry.ip_address e =? ip_address then
        (i, if ARPTableEntry.complete_entry e then 2 else 1)
      else isEntryInARPTable_from (i + 1) rest ip_address
  end.

Definition isEntryInARPTable (s : NetworkInterface) (ip_address : Z) : Z * Z :=
  isEntryInARPTable_from 0 (ARPTable s) ip_address.

Fixpoint isEntryInIPQueues_from (i : Z) (qs : list IPQueue.t)
    (ip_address : Z) : Z * Z :=
  match qs with
  | [] => (-1, 0)
  | q :: rest =>
      if IPQueue.ip_address q =? ip_address then (i, 1)
      else isEntryInIPQueues_from (i + 1) rest ip_address
  end.

Definition isEntryInIPQueues (s : NetworkInterface) (ip_address : Z) : Z * Z :=
  isEntryInIPQueues_from 0 (IPQueues s) ip_address.

(** ** Data and helper functions of the router *)

(* uint8_t x; x-- *)
Definition uint8_dec (x : Z) : Z := (x - 1) mod 256.

(* Router::isPrefixMatch. [~0u] is 0xFFFFFFFF and the shifted value is
   truncated to 32 bits. The documented range of [prefix_length] is 0 to
   32; above 32 the source shifts by a negative count, which C++ leaves
   undefined: the value of the model there has no meaning, and the
   statements on the mask are made for the documented range. *)
Definition isPrefixMatch (ip_address1 ip_address2 prefix_length : Z) : bool :=
  if prefix_length =? 0 then true
  else
    let mask :=
      if prefix_length =? 32 then 0xFFFFFFFF
      else Z.shiftl 0xFFFFFFFF (32 - prefix_length) mod 2 ^ 32 in
    Z.land ip_address1 mask =? Z.land ip_address2 mask.

Module RoutingTableEntry.
Record t := mk {
  route_prefix : Z;       (* uint32_t *)
  prefix_length : Z;      (* uint8_t *)
  next_hop : option Address;
  interface_num : nat     (* size_t *)
}.
(* The default constructor. *)
Definition default : t := mk 0 0 None 0.
End RoutingTableEntry.

(* AsyncNetworkInterface: a NetworkInterface and its queue of received
   datagrams. *)
Module AsyncNetworkInterface.
Record t := mk {
  base : NetworkInterface;
  datagrams_in_ : list InternetDatagram.t
}.
Definition set_base (a : t) (s : NetworkInterface) : t :=
  mk s (datagrams_in_ a).
Definition set_datagrams_in_ (a : t) (ds : list InternetDatagram.t) : t :=
  mk (base a) ds.
End AsyncNetworkInterface.

Record Router := mkRouter {
  interfaces_ : list AsyncNetworkInterface.t;
  RoutingTable : list RoutingTableEntry.t
}.

Definition set_interfaces_ (r : Router)
    (ifs : list AsyncNetworkInterface.t) : Router :=
  mkRouter ifs (RoutingTable r).

(* Router::Router *)
Definition Router_new : Router := mkRouter [] [].

(* Router::add_interface: the new router and the returned index. *)
Definition add_interface (interface : AsyncNetworkInterface.t) (r : Router)
    : Router * nat :=
  let ifs := interfaces_ r ++ [interface] in
  (set_interfaces_ r ifs, (length ifs - 1)%nat).

(* Router::add_route *)
Definition add_route (route_prefix prefix_length : Z)
    (next_hop : option Address) (interface_num : nat) (r : Router) : Router :=
  let entry := RoutingTableEntry.mk route_prefix prefix_length next_hop
                                    interface_num in
  mkRouter (interfaces_ r) (RoutingTable r ++ [entry]).

(* AsyncNetworkInterface::maybe_receive *)
Definition maybe_receive (a : AsyncNetworkInterface.t)
    : AsyncNetworkInterface.t * option InternetDatagram.t :=
  match AsyncNetworkInterface.datagrams_in_ a with
  | [] => (a, None)
  | datagram :: rest =>
      (AsyncNetworkInterface.set_datagrams_in_ a rest, Some datagram)
  end.

(* One iteration of the scan over the routing table: the pair
   (longest_prefix_length, table_entry) before and after entry [e]. *)
Definition scan_step (dst : Z) (acc : Z * RoutingTableEntry.t)
    (e : RoutingTableEntry.t) : Z * RoutingTableEntry.t :=
  if isPrefixMatch dst (RoutingTableEntry.route_prefix e)
                   (RoutingTableEntry.prefix_length e) then
    if RoutingTableEntry.prefix_length e >? fst acc then
      (RoutingTableEntry.prefix_length e, e)
    else acc
  else acc.

(* The whole scan, from longest_prefix_length = -999 and a
   default-constructed table_entry. *)
Definition scan (dst : Z) (tbl : list RoutingTableEntry.t)
    : Z * RoutingTableEntry.t :=
  fold_left (scan_step dst) tbl (-999, RoutingTableEntry.default).

(** ** NetworkInterface operations *)

(* The codecs of the surrounding library, which the repository calls but
   does not define: serialize(dgram), parse(dgram, payload),
   serialize(arp), parse(arp, payload), and the checksum algorithm of the
   IPv4 header. A parser returns [None] where the source's [parse] returns
   false. *)
Class Codec := {
  serialize_dgram : InternetDatagram.t -> list Z;
  parse_dgram : list Z -> option InternetDatagram.t;
  serialize_arp : ARPMessage.t -> list Z;
  parse_arp : list Z -> option ARPMessage.t;
  header_checksum : IPv4Header.t -> Z
}.

(** Modelled from the spec: IPv4Header::compute_checksum, which is declared
    outside the repository. The specification gives the header "a checksum
    field recomputable from the header" and "a header operation [that]
    recomputes the checksum": the operation writes the checksum field and
    leaves the other fields as they are. *)
Definition compute_checksum `{Codec} (h : IPv4Header.t) : IPv4Header.t :=
  IPv4Header.set_cksum h (header_checksum h).

Section Interface.

Context `{Codec}.

(* NetworkInterface::send_datagram. The three [if] blocks run in
   sequence, as in the source; the last test is the closing sanity
   check. *)
Definition send_datagram (dgram : InternetDatagram.t) (next_hop : Address)
    (s : NetworkInterface) : outcome NetworkInterface :=
  let next_hop_ip_address := ipv4_numeric next_hop in
  let '(indexARPTable, foundARPTable) :=
    isEntryInARPTable s next_hop_ip_address in
  s ← (if foundARPTable =? 2 then
         e ← at_index (ARPTable s) indexARPTable;
         let frame := makeFrame (ethernet_address_ s)
                                (ARPTableEntry.mac_address e)
                                EthernetHeader.TYPE_IPv4
                                (serialize_dgram dgram) in
         mret (push_frame s frame)
       else mret s);
  s ← (if foundARPTable =? 1 then
         let '(indexIPQueues, foundIPQueues) :=
           isEntryInIPQueues s next_hop_ip_address in
         if negb (foundIPQueues =? 1) then Exited
         else
           q ← at_index (IPQueues s) indexIPQueues;
           qs ← assign_at (IPQueues s) indexIPQueues
                          (IPQueue.push_back q dgram);
           mret (set_IPQueues s qs)
       else mret s);
  s ← (if foundARPTable =? 0 then
         let '(indexIPQueues, foundIPQueues) :=
           isEntryInIPQueues s next_hop_ip_address in
         if negb (foundIPQueues =? 0) then Exited
         else
           let entry := ARPTableEntry.mk false next_hop_ip_address
                                         ETHERNET_ZERO 5000 in
           let s := set_ARPTable s (ARPTable s ++ [entry]) in
           let ip_queue := IPQueue.mk next_hop_ip_address [dgram] in
           let s := set_IPQueues s (IPQueues s ++ [ip_queue]) in
           let arp := makeArp ARPMessage.OPCODE_REQUEST
                              (ethernet_address_ s)
                              (ipv4_numeric (ip_address_ s))
                              ETHERNET_ZERO
                              next_hop_ip_address in
           let frame := makeFrame (ethernet_address_ s)
                                  ETHERNET_BROADCAST
                                  EthernetHeader.TYPE_ARP
                                  (serialize_arp arp) in
           mret (push_frame s frame)
       else mret s);
  if (foundARPTable =? 0) || (foundARPTable =? 1) || (foundARPTable =? 2)
  then mret s
  else Exited.

(* The frames pushed by the loop that processes an IP queue. *)
Definition drain_frames (own sender : EthernetAddress)
    (ds : list InternetDatagram.t) : list EthernetFrame.t :=
  (λ d, makeFrame own sender EthernetHeader.TYPE_IPv4 (serialize_dgram d))
    <$> ds.

(* STEP 1 of the ARP branch of recv_frame: learn from the sender. *)
Definition recv_arp_learn (arp : ARPMessage.t) (s : NetworkInterface)
    : outcome NetworkInterface :=
  let sender_ethernet_address := ARPMessage.sender_ethernet_address arp in
  let sender_ip_address := ARPMessage.sender_ip_address arp in
  let '(indexARPTable, foundARPTable) :=
    isEntryInARPTable s sender_ip_address in
  let '(indexIPQueues, foundIPQueues) :=
    isEntryInIPQueues s sender_ip_address in
  s ← (if foundARPTable =? 2 then
         if negb (foundIPQueues =? 0) then Exited
         else
           e ← at_index (ARPTable s) indexARPTable;
           tbl ← assign_at (ARPTable s) indexARPTable
                           (ARPTableEntry.set_ttl e 30000);
           mret (set_ARPTable s tbl)
       else mret s);
  s ← (if foundARPTable =? 1 then
         if negb (foundIPQueues =? 1) then Exited
         else
           e ← at_index (ARPTable s) indexARPTable;
           let e := ARPTableEntry.set_mac_address e sender_ethernet_address in
           let e := ARPTableEntry.set_complete_entry e true in
           let e := ARPTableEntry.set_ttl e 30000 in
           tbl ← assign_at (ARPTable s) indexARPTable e;
           let s := set_ARPTable s tbl in
           q ← at_index (IPQueues s) indexIPQueues;
           let s := set_ReadyToBeSentQueue s
                      (ReadyToBeSentQueue s ++
                       drain_frames (ethernet_address_ s)
                                    sender_ethernet_address
                                    (IPQueue.datagrams q)) in
           qs ← erase_at (IPQueues s) indexIPQueues;
           mret (set_IPQueues s qs)
       else mret s);
  (if foundARPTable =? 0 then
     if negb (foundIPQueues =? 0) then Exited
     else
       let entry := ARPTableEntry.mk true sender_ip_address
                                     sender_ethernet_address 30000 in
       mret (set_ARPTable s (ARPTable s ++ [entry]))
   else mret s).

(* STEP 2 of the ARP branch: answer a request for our own address. *)
Definition recv_arp_reply (arp : ARPMessage.t) (s : NetworkInterface)
    : NetworkInterface :=
  if ARPMessage.opcode arp =? ARPMessage.OPCODE_REQUEST then
    if ARPMessage.target_ip_address arp =? ipv4_numeric (ip_address_ s) then
      let arp_response :=
        makeArp ARPMessage.OPCODE_REPLY
                (ethernet_address_ s)
                (ipv4_numeric (ip_address_ s))
                (ARPMessage.sender_ethernet_address arp)
                (ARPMessage.sender_ip_address arp) in
      let new_frame :=
        makeFrame (ethernet_address_ s)
                  (ARPMessage.sender_ethernet_address arp)
                  EthernetHeader.TYPE_ARP
                  (serialize_arp arp_response) in
      push_frame s new_frame
    else s
  else s.

(* NetworkInterface::recv_frame: the new state and the returned optional
   datagram. *)
Definition recv_frame (frame : EthernetFrame.t) (s : NetworkInterface)
    : outcome (NetworkInterface * option InternetDatagram.t) :=
  let h := EthernetFrame.header frame in
  if negb (bool_decide (EthernetHeader.dst h = ethernet_address_ s)
           || bool_decide (EthernetHeader.dst h = ETHERNET_BROADCAST))
  then mret (s, None)
  else if EthernetHeader.type h =? EthernetHeader.TYPE_IPv4 then
    match parse_dgram (EthernetFrame.payload frame) with
    | Some dgram => mret (s, Some dgram)
    | None => mret (s, None)
    end
  else if EthernetHeader.type h =? EthernetHeader.TYPE_ARP then
    match parse_arp (EthernetFrame.payload frame) with
    | Some arp =>
        s ← recv_arp_learn arp s;
        mret (recv_arp_reply arp s, None)
    | None => mret (s, None)
    end
  else mret (s, None).

(* static_cast<int>(x) for a [size_t] or wider value: reduction to the
   32-bit two's complement range, as GCC and Clang define the conversion
   (and C++20 requires). *)
Definition static_cast_int (x : Z) : Z :=
  (x + 2 ^ 31) mod 2 ^ 32 - 2 ^ 31.

(* The loop of tick. The loop index [i] of the source always stands at the
   first entry not yet visited: after [ARPTable.erase(begin + i); i--] the
   next iteration reads the entry that followed the erased one, and a kept
   entry stays in front of the index. [todo] is the part of ARPTable from
   the index on; the result is the table after the loop (the kept entries
   with their new TTL, in their order) and the IP queues after the loop.
   [ms] is the already converted [static_cast<int>(ms_since_last_tick)].
   The subtraction is done on [int]: where it leaves the range of [int]
   C++ gives no meaning to it, and the model wraps. *)
Fixpoint tick_loop (ms : Z) (todo : list ARPTableEntry.t)
    (qs : list IPQueue.t)
    : outcome (list ARPTableEntry.t * list IPQueue.t) :=
  match todo with
  | [] => mret ([], qs)
  | e :: rest =>
      let e := ARPTableEntry.set_ttl e
                 (static_cast_int (ARPTableEntry.ttl e - ms)) in
      if ARPTableEntry.ttl e <=? 0 then
        qs ← (if negb (ARPTableEntry.complete_entry e) then
                let '(indexIPQueues, foundIPQueues) :=
                  isEntryInIPQueues_from 0 qs (ARPTableEntry.ip_address e) in
                if negb (foundIPQueues =? 1) then Exited
                else erase_at qs indexIPQueues
              else mret qs);
        tick_loop ms rest qs
      else
        '(kept, qs) ← tick_loop ms rest qs;
        mret (e :: kept, qs)
  end.

(* NetworkInterface::tick *)
Definition tick (ms_since_last_tick : Z) (s : NetworkInterface)
    : outcome NetworkInterface :=
  '(tbl, qs) ← tick_loop (static_cast_int ms_since_last_tick)
                         (ARPTable s) (IPQueues s);
  mret (set_IPQueues (set_ARPTable s tbl) qs).

(* NetworkInterface::maybe_send *)
Definition maybe_send (s : NetworkInterface)
    : NetworkInterface * option EthernetFrame.t :=
  match ReadyToBeSentQueue s with
  | frame :: rest => (set_ReadyToBeSentQueue s rest, Some frame)
  | [] => (s, None)
  end.

(** ** Traces of calls on one interface *)

(* The four operations a host can invoke on an interface. *)
Inductive call : Type :=
| call_send_datagram (dgram : InternetDatagram.t) (next_hop : Address)
| call_recv_frame (frame : EthernetFrame.t)
| call_tick (ms_since_last_tick : Z)
| call_maybe_send.

Definition step (c : call) (s : NetworkInterface) : outcome NetworkInterface :=
  match c with
  | call_send_datagram dgram next_hop => send_datagram dgram next_hop s
  | call_recv_frame frame => p ← recv_frame frame s; mret (fst p)
  | call_tick ms => tick ms s
  | call_maybe_send => mret (fst (maybe_send s))
  end.

(* The state after a finite sequence of calls, first call first. *)
Fixpoint run (cs : list call) (s : NetworkInterface)
    : outcome NetworkInterface :=
  match cs with
  | [] => mret s
  | c :: cs' => s' ← step c s; run cs' s'
  end.

(** ** Router operations *)

(* AsyncNetworkInterface::recv_frame *)
Definition async_recv_frame (frame : EthernetFrame.t)
    (a : AsyncNetworkInterface.t) : outcome AsyncNetworkInterface.t :=
  '(s, optional_dgram) ← recv_frame frame (AsyncNetworkInterface.base a);
  match optional_dgram with
  | Some d =>
      mret (AsyncNetworkInterface.mk s
              (AsyncNetworkInterface.datagrams_in_ a ++ [d]))
  | None => mret (AsyncNetworkInterface.set_base a s)
  end.

(* interfaces_[n].send_datagram(dgram, next_hop) *)
Definition interface_send_datagram (n : nat) (dgram : InternetDatagram.t)
    (next_hop : Address) (r : Router) : outcome Router :=
  match interfaces_ r !! n with
  | Some a =>
      s ← send_datagram dgram next_hop (AsyncNetworkInterface.base a);
      mret (set_interfaces_ r
              (<[n := AsyncNetworkInterface.set_base a s]> (interfaces_ r)))
  | None => Undefined
  end.

(* The body of the while loop of Router::route for one datagram. *)
Definition route_datagram (datagram : InternetDatagram.t) (r : Router)
    : outcome Router :=
  let '(longest_prefix_length, table_entry) :=
    scan (IPv4Header.dst (InternetDatagram.header datagram))
         (RoutingTable r) in
  if longest_prefix_length >=? 0 then
    if IPv4Header.ttl (InternetDatagram.header datagram) >? 1 then
      let h := InternetDatagram.header datagram in
      let h := IPv4Header.set_ttl h (uint8_dec (IPv4Header.ttl h)) in
      let h := compute_checksum h in
      let datagram := InternetDatagram.set_header datagram h in
      match RoutingTableEntry.next_hop table_entry with
      | Some next_hop =>
          interface_send_datagram
            (RoutingTableEntry.interface_num table_entry)
            datagram next_hop r
      | None =>
          interface_send_datagram
            (RoutingTableEntry.interface_num table_entry)
            datagram
            (from_ipv4_numeric
               (IPv4Header.dst (InternetDatagram.header datagram)))
            r
      end
    else mret r
  else mret r.

(* The while loop of Router::route on interface [i]. [inbox] is the content
   of interfaces_[i].datagrams_in_ when the loop is entered: each
   maybe_receive pops its head, and nothing in the body pushes to it. *)
Fixpoint route_while (i : nat) (inbox : list InternetDatagram.t) (r : Router)
    : outcome Router :=
  match inbox with
  | [] => mret r
  | datagram :: rest =>
      match interfaces_ r !! i with
      | Some a =>
          let r := set_interfaces_ r
                     (<[i := AsyncNetworkInterface.set_datagrams_in_ a rest]>
                        (interfaces_ r)) in
          r ← route_datagram datagram r;
          route_while i rest r
      | None => Undefined
      end
  end.

(* The for loop of Router::route over the interfaces [i], [i+1], ... *)
Fixpoint route_from (count : nat) (i : nat) (r : Router) : outcome Router :=
  match count with
  | O => mret r
  | S count' =>
      match interfaces_ r !! i with
      | Some a =>
          r ← route_while i (AsyncNetworkInterface.datagrams_in_ a) r;
          route_from count' (S i) r
      | None => Undefined
      end
  end.

(* Router::route *)
Definition route (r : Router) : outcome Router :=
  route_from (length (interfaces_ r)) 0%nat r.

End Interface.

(** ** Specification-side vocabulary *)

Definition arp_ips (tbl : list ARPTableEntry.t) : list Z :=
  ARPTableEntry.ip_address <$> tbl.

Definition queue_ips (qs : list IPQueue.t) : list Z :=
  IPQueue.ip_address <$> qs.

(* The ARP cache holds a Pending entry for [ip]. *)
Definition holds_pending (s : NetworkInterface) (ip : Z) : Prop :=
  ∃ e, e ∈ ARPTable s ∧ ARPTableEntry.ip_address e = ip ∧
       ARPTableEntry.complete_entry e = false.

(* The ARP cache holds a Resolved entry for [ip]. *)
Definition holds_resolved (s : NetworkInterface) (ip : Z) : Prop :=
  ∃ e, e ∈ ARPTable s ∧ ARPTableEntry.ip_address e = ip ∧
       ARPTableEntry.complete_entry e = true.

(* The ARP cache has no entry for [ip]. *)
Definition absent (s : NetworkInterface) (ip : Z) : Prop :=
  ∀ e, e ∈ ARPTable s → ARPTableEntry.ip_address e ≠ ip.

(* A PendingQueue exists for [ip]. *)
Definition has_queue (s : NetworkInterface) (ip : Z) : Prop :=
  ∃ q, q ∈ IPQueues s ∧ IPQueue.ip_address q = ip.

(* The invariant of an interface: one cache entry and one queue per IP at
   most, and queues exactly for the Pending entries. *)
Definition consistent (s : NetworkInterface) : Prop :=
  NoDup (arp_ips (ARPTable s)) ∧
  NoDup (queue_ips (IPQueues s)) ∧
  ∀ ip, holds_pending s ip ↔ has_queue s ip.

(* The mask of the specification: the top [n] of 32 bits set. *)
Definition prefix_mask (n : Z) : Z := Z.shiftl (Z.ones n) (32 - n).

(* The match predicate of the specification. *)
Definition matches (dst : Z) (e : RoutingTableEntry.t) : bool :=
  Z.land dst (prefix_mask (RoutingTableEntry.prefix_length e)) =?
  Z.land (RoutingTableEntry.route_prefix e)
         (prefix_mask (RoutingTableEntry.prefix_length e)).

(* The test that the scan of route applies to entry [e]. *)
Definition entry_matches (dst : Z) (e : RoutingTableEntry.t) : bool :=
  isPrefixMatch dst (RoutingTableEntry.route_prefix e)
                (RoutingTableEntry.prefix_length e).

(* The documented range of a routing entry's prefix length. *)
Definition valid_route (e : RoutingTableEntry.t) : Prop :=
  0 <= RoutingTableEntry.prefix_length e <= 32.

(* What a lookup in the ARP table found. *)
Inductive arp_lookup (tbl : list ARPTableEntry.t) (ip : Z) : Z * Z → Prop :=
| arp_lookup_none :
    (∀ e, e ∈ tbl → ARPTableEntry.ip_address e ≠ ip) →
    arp_lookup tbl ip (-1, 0)
| arp_lookup_some n e :
    tbl !! n = Some e →
    ARPTableEntry.ip_address e = ip →
    (∀ k e', (k < n)%nat → tbl !! k = Some e' →
             ARPTableEntry.ip_address e' ≠ ip) →
    arp_lookup tbl ip
      (Z.of_nat n, if ARPTableEntry.complete_entry e then 2 else 1).

Inductive queue_lookup (qs : list IPQueue.t) (ip : Z) : Z * Z → Prop :=
| queue_lookup_none :
    (∀ q, q ∈ qs → IPQueue.ip_address q ≠ ip) →
    queue_lookup qs ip (-1, 0)
| queue_lookup_some n q :
    qs !! n = Some q →
    IPQueue.ip_address q = ip →
    (∀ k q', (k < n)%nat → qs !! k = Some q' → IPQueue.ip_address q' ≠ ip) →
    queue_lookup qs ip (Z.of_nat n, 1).

Definition pending_ips (tbl : list ARPTableEntry.t) : list Z :=
  arp_ips (filter (λ e, ARPTableEntry.complete_entry e = false) tbl).

Definition coherent (tbl : list ARPTableEntry.t) (qs : list IPQueue.t)
    : Prop :=
  NoDup (arp_ips tbl) ∧ NoDup (queue_ips qs) ∧
  ∀ ip, ip ∈ pending_ips tbl ↔ ip ∈ queue_ips qs.

(* An entry after the subtraction at the head of the loop of tick; [ms] is
   the converted argument, as in [tick_loop]. *)
Definition aged (ms : Z) (e : ARPTableEntry.t) : ARPTableEntry.t :=
  ARPTableEntry.set_ttl e (static_cast_int (ARPTableEntry.ttl e - ms)).

Arguments aged : simpl never.

(* The entries that tick keeps: those whose new TTL is positive. *)
Definition tick_kept (ms : Z) (tbl : list ARPTableEntry.t)
    : list ARPTableEntry.t :=
  filter (λ e, 0 < ARPTableEntry.ttl e) (aged ms <$> tbl).

(* The IPs of the Pending entries that tick removes. *)
Definition expired_pending_ips (ms : Z) (tbl : list ARPTableEntry.t)
    : list Z :=
  arp_ips (filter (λ e, ARPTableEntry.ttl e <= 0 ∧
                        ARPTableEntry.complete_entry e = false)
                  (aged ms <$> tbl)).

(* The queues that tick keeps. *)
Definition tick_queues (ms : Z) (tbl : list ARPTableEntry.t)
    (qs : list IPQueue.t) : list IPQueue.t :=
  filter (λ q, IPQueue.ip_address q ∉ expired_pending_ips ms tbl) qs.

(** ** Vocabulary of the statements on recv_frame *)

(* The destination-MAC filter of recv_frame lets the frame through. *)
Definition accepts (s : NetworkInterface) (frame : EthernetFrame.t) : Prop :=
  EthernetHeader.dst (EthernetFrame.header frame) = ethernet_address_ s ∨
  EthernetHeader.dst (EthernetFrame.header frame) = ETHERNET_BROADCAST.

(* The message is a request for the interface's own IP address. *)
Definition reply_due (s : NetworkInterface) (arp : ARPMessage.t) : bool :=
  (ARPMessage.opcode arp =? ARPMessage.OPCODE_REQUEST) &&
  (ARPMessage.target_ip_address arp =? ipv4_numeric (ip_address_ s)).

(* The ARP REPLY to the sender of [arp], in its Ethernet frame. *)
Definition reply_frame `{Codec} (s : NetworkInterface) (arp : ARPMessage.t)
    : EthernetFrame.t :=
  EthernetFrame.mk
    (EthernetHeader.mk (ARPMessage.sender_ethernet_address arp)
                       (ethernet_address_ s)
                       EthernetHeader.TYPE_ARP)
    (serialize_arp
       (ARPMessage.mk ARPMessage.OPCODE_REPLY
                      (ethernet_address_ s)
                      (ipv4_numeric (ip_address_ s))
                      (ARPMessage.sender_ethernet_address arp)
                      (ARPMessage.sender_ip_address arp))).

(* The frames that recv_frame appends after the learning step. *)
Definition reply_frames `{Codec} (s : NetworkInterface) (arp : ARPMessage.t)
    : list EthernetFrame.t :=
  if reply_due s arp then [reply_frame s arp] else [].

(* The IPv4 frame that carries [dgram] to [dst]. *)
Definition ipv4_frame `{Codec} (s : NetworkInterface) (dst : EthernetAddress)
    (dgram : InternetDatagram.t) : EthernetFrame.t :=
  EthernetFrame.mk
    (EthernetHeader.mk dst (ethernet_address_ s) EthernetHeader.TYPE_IPv4)
    (serialize_dgram dgram).

(* The broadcast ARP REQUEST for [ip]. *)
Definition request_frame `{Codec} (s : NetworkInterface) (ip : Z)
    : EthernetFrame.t :=
  EthernetFrame.mk
    (EthernetHeader.mk ETHERNET_BROADCAST (ethernet_address_ s)
                       EthernetHeader.TYPE_ARP)
    (serialize_arp
       (ARPMessage.mk ARPMessage.OPCODE_REQUEST
                      (ethernet_address_ s)
                      (ipv4_numeric (ip_address_ s))
                      ETHERNET_ZERO
                      ip)).

(* Every TTL of the cache is a positive [int]. *)
Definition ttl_in_range (s : NetworkInterface) : Prop :=
  ∀ e, e ∈ ARPTable s → 0 < ARPTableEntry.ttl e < 2 ^ 31.

(* The queues of received datagrams of the interfaces of a router. *)
Definition inboxes (r : Router) : list (list InternetDatagram.t) :=
  AsyncNetworkInterface.datagrams_in_ <$> interfaces_ r.

(** ** An instance of the codecs, to run the model on examples *)

Definition be32 (x : Z) : list Z :=
  [x / 2 ^ 24 mod 256; x / 2 ^ 16 mod 256; x / 2 ^ 8 mod 256; x mod 256].

Definition of_be32 (a b c d : Z) : Z :=
  ((a * 256 + b) * 256 + c) * 256 + d.

Definition mac_bytes (m : EthernetAddress) : list Z :=
  let '(a, b, c, d, e, f) := m in [a; b; c; d; e; f].

(* The 28 bytes of an ARP message for IPv4 over Ethernet. *)
Definition wire_serialize_arp (m : ARPMessage.t) : list Z :=
  [0; 1; 8; 0; 6; 4;
   ARPMessage.opcode m / 256 mod 256; ARPMessage.opcode m mod 256]
  ++ mac_bytes (ARPMessage.sender_ethernet_address m)
  ++ be32 (ARPMessage.sender_ip_address m)
  ++ mac_bytes (ARPMessage.target_ethernet_address m)
  ++ be32 (ARPMessage.target_ip_address m).

Definition wire_parse_arp (bs : list Z) : option ARPMessage.t :=
  match bs with
  | [h0; h1; h2; h3; h4; h5; oh; ol;
     s0; s1; s2; s3; s4; s5; sa; sb; sc; sd;
     t0; t1; t2; t3; t4; t5; ta; tb; tc; td] =>
      if bool_decide ([h0; h1; h2; h3; h4; h5] = [0; 1; 8; 0; 6; 4]) then
        Some (ARPMessage.mk (oh * 256 + ol)
                            (s0, s1, s2, s3, s4, s5) (of_be32 sa sb sc sd)
                            (t0, t1, t2, t3, t4, t5) (of_be32 ta tb tc td))
      else None
  | _ => None
  end.

(* A compact datagram encoding: TTL, checksum, destination, the length of
   the other header bytes, these bytes, the payload. *)
Definition wire_serialize_dgram (d : InternetDatagram.t) : list Z :=
  let h := InternetDatagram.header d in
  [IPv4Header.ttl h;
   IPv4Header.cksum h / 256 mod 256; IPv4Header.cksum h mod 256]
  ++ be32 (IPv4Header.dst h)
  ++ [Z.of_nat (length (IPv4Header.others h))]
  ++ IPv4Header.others h
  ++ InternetDatagram.payload d.

Definition wire_parse_dgram (bs : list Z) : option InternetDatagram.t :=
  match bs with
  | t :: ch :: cl :: d0 :: d1 :: d2 :: d3 :: n :: rest =>
      if (0 <=? n) && (n <=? Z.of_nat (length rest)) then
        Some (InternetDatagram.mk
                (IPv4Header.mk t (of_be32 d0 d1 d2 d3) (ch * 256 + cl)
                               (take (Z.to_nat n) rest))
                (drop (Z.to_nat n) rest))
      else None
  | _ => None
  end.

(* A 16-bit sum over the header fields. *)
Definition wire_checksum (h : IPv4Header.t) : Z :=
  (IPv4Header.ttl h + IPv4Header.dst h / 2 ^ 16 + IPv4Header.dst h mod 2 ^ 16
   + foldr Z.add 0 (IPv4Header.others h)) mod 2 ^ 16.

#[global] Instance wire_codec : Codec := {
  serialize_dgram := wire_serialize_dgram;
  parse_dgram := wire_parse_dgram;
  serialize_arp := wire_serialize_arp;
  parse_arp := wire_parse_arp;
  header_checksum := wire_checksum
}.

(** ** Example hosts, datagrams and frames *)

Definition ip4 (a b c d : Z) : Z := of_be32 a b c d.

Definition mac_own : EthernetAddress := (2, 0, 0, 0, 0, 1).
Definition mac_peer : EthernetAddress := (2, 0, 0, 0, 0, 2).
Definition mac_other : EthernetAddress := (2, 0, 0, 0, 0, 170).

Definition addr_own : Address := from_ipv4_numeric (ip4 10 0 0 1).
Definition addr_peer : Address := from_ipv4_numeric (ip4 10 0 0 2).

Definition example_interface : NetworkInterface :=
  NetworkInterface_new mac_own addr_own.

Definition example_dgram (ttl : Z) (dst : Z) (body : list Z)
    : InternetDatagram.t :=
  InternetDatagram.mk (IPv4Header.mk ttl dst 0 []) body.

Definition dgram_a : InternetDatagram.t :=
  example_dgram 64 (ip4 10 0 0 2) [1; 2; 3].
Definition dgram_b : InternetDatagram.t :=
  example_dgram 64 (ip4 10 0 0 2) [4; 5].

(* An ARP message from [(sender_mac, sender_ip)] in a frame sent to [dst]. *)
Definition arp_frame (opcode : Z) (sender_mac : EthernetAddress)
    (sender_ip : Z) (dst : EthernetAddress) (target_ip : Z)
    : EthernetFrame.t :=
  makeFrame sender_mac dst EthernetHeader.TYPE_ARP
    (wire_serialize_arp
       (makeArp opcode sender_mac sender_ip
                (if opcode =? ARPMessage.OPCODE_REPLY then dst
                 else ETHERNET_ZERO)
                target_ip)).

(* The peer 10.0.0.2 answers our request. *)
Definition peer_reply : EthernetFrame.t :=
  arp_frame ARPMessage.OPCODE_REPLY mac_peer (ip4 10 0 0 2) mac_own
            (ip4 10 0 0 1).

(* The peer 10.0.0.2 asks for our address. *)
Definition peer_request : EthernetFrame.t :=
  arp_frame ARPMessage.OPCODE_REQUEST mac_peer (ip4 10 0 0 2)
            ETHERNET_BROADCAST (ip4 10 0 0 1).

(* Another station claims 10.0.0.2 with a different MAC. *)
Definition other_reply : EthernetFrame.t :=
  arp_frame ARPMessage.OPCODE_REPLY mac_other (ip4 10 0 0 2) mac_own
            (ip4 10 0 0 1).

(** ** Example states and tables *)

(* After send_datagram(dgram_a, 10.0.0.2) on the new interface. *)
Definition waiting_interface : NetworkInterface :=
  mkNetworkInterface mac_own addr_own
    [ARPTableEntry.mk false (ip4 10 0 0 2) ETHERNET_ZERO 5000]
    [request_frame example_interface (ip4 10 0 0 2)]
    [IPQueue.mk (ip4 10 0 0 2) [dgram_a]].

(* After a second send_datagram(dgram_b, 10.0.0.2). *)
Definition waiting_two_interface : NetworkInterface :=
  mkNetworkInterface mac_own addr_own
    [ARPTableEntry.mk false (ip4 10 0 0 2) ETHERNET_ZERO 5000]
    [request_frame example_interface (ip4 10 0 0 2)]
    [IPQueue.mk (ip4 10 0 0 2) [dgram_a; dgram_b]].

(* After the reply of the peer reached the new interface. *)
Definition resolved_interface : NetworkInterface :=
  mkNetworkInterface mac_own addr_own
    [ARPTableEntry.mk true (ip4 10 0 0 2) mac_peer 30000] [] [].

(* Routes 10.0.0.0/8, direct on interface 0, and 10.1.0.0/16 through
   10.0.0.7 on interface 1. *)
Definition route_direct : RoutingTableEntry.t :=
  RoutingTableEntry.mk (ip4 10 0 0 0) 8 None 0.
Definition route_via : RoutingTableEntry.t :=
  RoutingTableEntry.mk (ip4 10 1 0 0) 16
                       (Some (from_ipv4_numeric (ip4 10 0 0 7))) 1.

Definition example_router : Router :=
  mkRouter
    [AsyncNetworkInterface.mk example_interface [];
     AsyncNetworkInterface.mk
       (NetworkInterface_new mac_peer (from_ipv4_numeric (ip4 10 0 0 9))) []]
    [route_direct; route_via].

Definition routed_dgram : InternetDatagram.t :=
  example_dgram 64 (ip4 10 1 2 3) [7].

(* Two routes with the same prefix and length on different interfaces. *)
Definition route_twin : RoutingTableEntry.t :=
  RoutingTableEntry.mk (ip4 10 1 0 0) 16 None 0.
Definition tie_table : list RoutingTableEntry.t :=
  [route_direct; route_via; route_twin].

(** ** Further operations and vocabulary *)

(* Router::interface, which is [interfaces_.at(N)]: [None] stands for the
   std::out_of_range that [at] throws. *)
Definition interface (N : nat) (r : Router) : option AsyncNetworkInterface.t :=
  interfaces_ r !! N.

(* [n] successive maybe_send calls: the frames they return, in the order of
   the calls, and the interface after the last call. *)
Fixpoint maybe_send_times (n : nat) (s : NetworkInterface)
    : list EthernetFrame.t * NetworkInterface :=
  match n with
  | O => ([], s)
  | S n' =>
      let '(s1, o) := maybe_send s in
      let '(frames, s2) := maybe_send_times n' s1 in
      (match o with Some f => f :: frames | None => frames end, s2)
  end.

(* The interval of a tick call fits an [int]. *)
Definition small_tick (c : call) : Prop :=
  match c with
  | call_tick ms => 0 <= ms < 2 ^ 31
  | _ => True
  end.

(* No TTL of the cache exceeds the initial TTL of its kind of entry. *)
Definition ttl_bounded (s : NetworkInterface) : Prop :=
  ∀ e, e ∈ ARPTable s →
       ARPTableEntry.ttl e
       <= if ARPTableEntry.complete_entry e then 30000 else 5000.

(* What one call can do to the ARP table and the IP queues: the pair before
   the call and the pair after it. *)
Inductive table_effect (c : call)
    : list ARPTableEntry.t * list IPQueue.t →
      list ARPTableEntry.t * list IPQueue.t → Prop :=
| effect_none tbl qs :
    table_effect c (tbl, qs) (tbl, qs)
| effect_push tbl qs k q d :
    qs !! k = Some q →
    table_effect c (tbl, qs) (tbl, <[k := IPQueue.push_back q d]> qs)
| effect_new_pending tbl qs ip d :
    table_effect c (tbl, qs)
      (tbl ++ [ARPTableEntry.mk false ip ETHERNET_ZERO 5000],
       qs ++ [IPQueue.mk ip [d]])
| effect_refresh tbl qs n e :
    tbl !! n = Some e →
    ARPTableEntry.complete_entry e = true →
    table_effect c (tbl, qs)
      (<[n := ARPTableEntry.mk true (ARPTableEntry.ip_address e)
                (ARPTableEntry.mac_address e) 30000]> tbl, qs)
| effect_resolve tbl qs n e k mac :
    tbl !! n = Some e →
    ARPTableEntry.complete_entry e = false →
    table_effect c (tbl, qs)
      (<[n := ARPTableEntry.mk true (ARPTableEntry.ip_address e) mac 30000]>
         tbl,
       delete k qs)
| effect_new_resolved tbl qs ip mac :
    table_effect c (tbl, qs)
      (tbl ++ [ARPTableEntry.mk true ip mac 30000], qs)
| effect_tick tbl qs ms :
    c = call_tick ms →
    table_effect c (tbl, qs)
      (tick_kept (static_cast_int ms) tbl,
       tick_queues (static_cast_int ms) tbl qs).

(* The router is ready to route: every interface is in a consistent state
   and every route names an interface of the router. *)
Definition routable (r : Router) : Prop :=
  Forall (λ a, consistent (AsyncNetworkInterface.base a)) (interfaces_ r) ∧
  Forall (λ e, (RoutingTableEntry.interface_num e < length (interfaces_ r))%nat)
         (RoutingTable r).

(** ** Further examples *)

(* An IPv4 frame from the peer to the own MAC that carries [dgram_a]. *)
Definition dgram_frame : EthernetFrame.t :=
  makeFrame mac_peer mac_own EthernetHeader.TYPE_IPv4
            (wire_serialize_dgram dgram_a).

Definition idle_async : AsyncNetworkInterface.t :=
  AsyncNetworkInterface.mk example_interface [].

(* The example router with [routed_dgram] received on interface 0. *)
Definition busy_router : Router :=
  mkRouter
    [AsyncNetworkInterface.mk example_interface [routed_dgram];
     AsyncNetworkInterface.mk
       (NetworkInterface_new mac_peer (from_ipv4_numeric (ip4 10 0 0 9))) []]
    [route_direct; route_via].

(** ** General facts on outcomes and vector accesses *)

Lemma at_index_lookup {A} (v : list A) (n : nat) (x : A) :
  v !! n = Some x → at_index v (Z.of_nat n) = Done x.
Proof.
  intros Hn. unfold at_index, in_bounds.
  pose proof (lookup_lt_Some _ _ _ Hn) as Hlt.
  rewrite Nat2Z.id, Hn.
  destruct (0 <=? Z.of_nat n) eqn:E1; [|lia].
  destruct (Z.of_nat n <? Z.of_nat (length v)) eqn:E2; [done|lia].
Qed.

Lemma assign_at_lookup {A} (v : list A) (n : nat) (x y : A) :
  v !! n = Some x → assign_at v (Z.of_nat n) y = Done (<[n := y]> v).
Proof.
  intros Hn. unfold assign_at, in_bounds.
  pose proof (lookup_lt_Some _ _ _ Hn) as Hlt.
  rewrite Nat2Z.id.
  destruct (0 <=? Z.of_nat n) eqn:E1; [|lia].
  destruct (Z.of_nat n <? Z.of_nat (length v)) eqn:E2; [done|lia].
Qed.

Lemma erase_at_lookup {A} (v : list A) (n : nat) (x : A) :
  v !! n = Some x → erase_at v (Z.of_nat n) = Done (delete n v).
Proof.
  intros Hn. unfold erase_at, in_bounds.
  pose proof (lookup_lt_Some _ _ _ Hn) as Hlt.
  rewrite Nat2Z.id.
  destruct (0 <=? Z.of_nat n) eqn:E1; [|lia].
  destruct (Z.of_nat n <? Z.of_nat (length v)) eqn:E2; [done|lia].
Qed.

(** ** The two lookups *)

Lemma isEntryInARPTable_from_shift i tbl ip :
  isEntryInARPTable_from i tbl ip =
  let '(idx, found) := isEntryInARPTable_from 0 tbl ip in
  (if found =? 0 then idx else idx + i, found).
Proof.
  revert i. induction tbl as [|e rest IH]; intros i; simpl; [done|].
  destruct (ARPTableEntry.ip_address e =? ip).
  - destruct (ARPTableEntry.complete_entry e); simpl; f_equal; lia.
  - rewrite (IH (i + 1)), (IH (0 + 1)).
    destruct (isEntryInARPTable_from 0 rest ip) as [idx found].
    destruct (found =? 0); f_equal; lia.
Qed.

Lemma isEntryInARPTable_from_spec tbl ip :
  arp_lookup tbl ip (isEntryInARPTable_from 0 tbl ip).
Proof.
  induction tbl as [|e rest IH]; simpl.
  - constructor. intros e He. by apply elem_of_nil in He.
  - destruct (ARPTableEntry.ip_address e =? ip) eqn:E.
    + apply Z.eqb_eq in E.
      apply (arp_lookup_some (e :: rest) ip 0 e); [done|done|].
      intros k e' Hk. lia.
    + apply Z.eqb_neq in E.
      rewrite isEntryInARPTable_from_shift.
      destruct IH as [Hnone | n e' Hn Hip Hfirst]; simpl.
      * constructor. intros e' He'. apply elem_of_cons in He'.
        destruct He' as [-> | He']; [done | by apply Hnone].
      * assert (Hfound : ((if ARPTableEntry.complete_entry e' then 2 else 1)
                          =? 0) = false)
          by (destruct (ARPTableEntry.complete_entry e'); done).
        rewrite Hfound.
        replace (Z.of_nat n + (0 + 1)) with (Z.of_nat (S n)) by lia.
        apply (arp_lookup_some (e :: rest) ip (S n) e'); [done|done|].
        intros [|k] e'' Hk Hl; simpl in Hl.
        -- by inversion Hl; subst.
        -- apply (Hfirst k); [lia|done].
Qed.

Lemma isEntryInIPQueues_from_shift i qs ip :
  isEntryInIPQueues_from i qs ip =
  let '(idx, found) := isEntryInIPQueues_from 0 qs ip in
  (if found =? 0 then idx else idx + i, found).
Proof.
  revert i. induction qs as [|q rest IH]; intros i; simpl; [done|].
  destruct (IPQueue.ip_address q =? ip).
  - simpl; f_equal; lia.
  - rewrite (IH (i + 1)), (IH (0 + 1)).
    destruct (isEntryInIPQueues_from 0 rest ip) as [idx found].
    destruct (found =? 0); f_equal; lia.
Qed.

Lemma isEntryInIPQueues_from_spec qs ip :
  queue_lookup qs ip (isEntryInIPQueues_from 0 qs ip).
Proof.
  induction qs as [|q rest IH]; simpl.
  - constructor. intros q Hq. by apply elem_of_nil in Hq.
  - destruct (IPQueue.ip_address q =? ip) eqn:E.
    + apply Z.eqb_eq in E.
      apply (queue_lookup_some (q :: rest) ip 0 q); [done|done|].
      intros k q' Hk. lia.
    + apply Z.eqb_neq in E.
      rewrite isEntryInIPQueues_from_shift.
      destruct IH as [Hnone | n q' Hn Hip Hfirst]; simpl.
      * constructor. intros q' Hq'. apply elem_of_cons in Hq'.
        destruct Hq' as [-> | Hq']; [done | by apply Hnone].
      * replace (Z.of_nat n + (0 + 1)) with (Z.of_nat (S n)) by lia.
        apply (queue_lookup_some (q :: rest) ip (S n) q'); [done|done|].
        intros [|k] q'' Hk Hl; simpl in Hl.
        -- by inversion Hl; subst.
        -- apply (Hfirst k); [lia|done].
Qed.

(** ** Lists whose keys are pairwise distinct *)

Section Keys.

Context {A : Type} (key : A → Z).

Lemma nodup_key_index (l : list A) i j x y :
  NoDup (key <$> l) → l !! i = Some x → l !! j = Some y →
  key x = key y → i = j.
Proof.
  intros Hnd Hi Hj Hk.
  apply (NoDup_lookup (key <$> l) i j (key x)); [done| |].
  - by rewrite list_lookup_fmap, Hi.
  - by rewrite list_lookup_fmap, Hj, Hk.
Qed.

Lemma nodup_key_unique (l : list A) x y :
  NoDup (key <$> l) → x ∈ l → y ∈ l → key x = key y → x = y.
Proof.
  intros Hnd Hx Hy Hk.
  apply list_elem_of_lookup in Hx as [i Hi].
  apply list_elem_of_lookup in Hy as [j Hj].
  assert (i = j) by (by eapply nodup_key_index).
  subst j. congruence.
Qed.

Lemma filter_all (P : A → Prop) `{∀ x, Decision (P x)} (l : list A) :
  (∀ x, x ∈ l → P x) → filter P l = l.
Proof.
  induction l as [|a l IH]; intros Hall; [done|].
  rewrite filter_cons_True by (apply Hall; left).
  f_equal. apply IH. intros x Hx. apply Hall. by right.
Qed.

(* Under distinct keys, erasing one element removes exactly its key. *)
Lemma delete_as_filter (l : list A) n x :
  NoDup (key <$> l) → l !! n = Some x →
  delete n l = filter (λ y, key y ≠ key x) l.
Proof.
  revert n. induction l as [|a l IH]; intros n Hnd Hn; [done|].
  rewrite fmap_cons in Hnd. apply NoDup_cons in Hnd as [Hnotin Hnd].
  destruct n as [|n]; simpl in Hn.
  - inversion Hn; subst a. simpl.
    rewrite filter_cons_False by (intros Hne; by apply Hne).
    symmetry. apply filter_all. intros y Hy Heq.
    apply Hnotin. rewrite <- Heq. by apply list_elem_of_fmap_2.
  - simpl. rewrite filter_cons_True.
    + f_equal. by apply IH.
    + intros Heq. apply Hnotin. rewrite Heq.
      apply list_elem_of_fmap_2. by eapply list_elem_of_lookup_2.
Qed.

Lemma nodup_key_filter (P : A → Prop) `{∀ x, Decision (P x)} (l : list A) :
  NoDup (key <$> l) → NoDup (key <$> filter P l).
Proof.
  induction l as [|a l IH]; intros Hnd; [done|].
  rewrite fmap_cons in Hnd. apply NoDup_cons in Hnd as [Hnotin Hnd].
  rewrite filter_cons. destruct (decide (P a)); [|by apply IH].
  rewrite fmap_cons. apply NoDup_cons. split; [|by apply IH].
  intros Hin. apply Hnotin.
  apply list_elem_of_fmap in Hin as (y & Hy & Hyin).
  apply list_elem_of_filter in Hyin as [_ Hyin].
  rewrite Hy. by apply list_elem_of_fmap_2.
Qed.

End Keys.

(** ** Lookups in consistent tables *)

Lemma arp_lookup_elem tbl e :
  NoDup (arp_ips tbl) → e ∈ tbl →
  ∃ n, tbl !! n = Some e ∧
       isEntryInARPTable_from 0 tbl (ARPTableEntry.ip_address e) =
       (Z.of_nat n, if ARPTableEntry.complete_entry e then 2 else 1).
Proof.
  intros Hnd He.
  destruct (isEntryInARPTable_from_spec tbl (ARPTableEntry.ip_address e))
    as [Hnone | n e' Hn Hip _].
  - by destruct (Hnone e He).
  - assert (e' = e) as ->.
    { apply (nodup_key_unique ARPTableEntry.ip_address tbl); try done.
      by eapply list_elem_of_lookup_2. }
    by exists n.
Qed.

Lemma arp_lookup_absent tbl ip :
  (∀ e, e ∈ tbl → ARPTableEntry.ip_address e ≠ ip) →
  isEntryInARPTable_from 0 tbl ip = (-1, 0).
Proof.
  intros Hnone.
  destruct (isEntryInARPTable_from_spec tbl ip) as [_ | n e Hn Hip _]; [done|].
  destruct (Hnone e); [by eapply list_elem_of_lookup_2 | done].
Qed.

Lemma queue_lookup_elem qs ip :
  (∃ q, q ∈ qs ∧ IPQueue.ip_address q = ip) →
  ∃ n q, qs !! n = Some q ∧ IPQueue.ip_address q = ip ∧
         isEntryInIPQueues_from 0 qs ip = (Z.of_nat n, 1).
Proof.
  intros (q & Hq & Hip).
  destruct (isEntryInIPQueues_from_spec qs ip) as [Hnone | n q' Hn Hip' _].
  - by destruct (Hnone q Hq).
  - by exists n, q'.
Qed.

Lemma queue_lookup_absent qs ip :
  (∀ q, q ∈ qs → IPQueue.ip_address q ≠ ip) →
  isEntryInIPQueues_from 0 qs ip = (-1, 0).
Proof.
  intros Hnone.
  destruct (isEntryInIPQueues_from_spec qs ip) as [_ | n q Hn Hip _]; [done|].
  destruct (Hnone q); [by eapply list_elem_of_lookup_2 | done].
Qed.

(* In a consistent state an IP with a cache entry that is not Pending has
   no queue. *)
Lemma consistent_no_queue s e :
  consistent s → e ∈ ARPTable s → ARPTableEntry.complete_entry e = true →
  ∀ q, q ∈ IPQueues s → IPQueue.ip_address q ≠ ARPTableEntry.ip_address e.
Proof.
  intros (Hnd & _ & Hiff) He Hc q Hq Heq.
  destruct (proj2 (Hiff (ARPTableEntry.ip_address e))) as (e' & He' & Hip & Hc').
  { by exists q. }
  assert (e' = e) as ->
    by (by apply (nodup_key_unique ARPTableEntry.ip_address (ARPTable s))).
  congruence.
Qed.

Lemma consistent_absent_no_queue s ip :
  consistent s → absent s ip →
  ∀ q, q ∈ IPQueues s → IPQueue.ip_address q ≠ ip.
Proof.
  intros (_ & _ & Hiff) Habs q Hq Heq.
  destruct (proj2 (Hiff ip)) as (e & He & Hip & _); [by exists q|].
  by apply (Habs e).
Qed.

(** ** send_datagram, case by case *)

Section InterfaceFacts.

Context `{Codec}.

Lemma send_datagram_resolved_state dgram next_hop s e :
  NoDup (arp_ips (ARPTable s)) →
  e ∈ ARPTable s →
  ARPTableEntry.ip_address e = ipv4_numeric next_hop →
  ARPTableEntry.complete_entry e = true →
  send_datagram dgram next_hop s =
  Done (push_frame s (makeFrame (ethernet_address_ s)
                                (ARPTableEntry.mac_address e)
                                EthernetHeader.TYPE_IPv4
                                (serialize_dgram dgram))).
Proof.
  intros Hnd He Hip Hc.
  destruct (arp_lookup_elem _ _ Hnd He) as (n & Hn & Hlook).
  unfold send_datagram, isEntryInARPTable.
  rewrite <- Hip, Hlook, Hc. simpl.
  by rewrite (at_index_lookup _ _ _ Hn).
Qed.

Lemma send_datagram_pending_state dgram next_hop s :
  consistent s →
  holds_pending s (ipv4_numeric next_hop) →
  ∃ n q, IPQueues s !! n = Some q ∧
         IPQueue.ip_address q = ipv4_numeric next_hop ∧
         send_datagram dgram next_hop s =
         Done (set_IPQueues s (<[n := IPQueue.push_back q dgram]> (IPQueues s))).
Proof.
  intros Hcons Hpend.
  pose proof Hcons as (Hnd & _ & Hiff).
  destruct (queue_lookup_elem (IPQueues s) (ipv4_numeric next_hop))
    as (k & q & Hk & Hq & Hqlook).
  { by apply Hiff. }
  destruct Hpend as (e & He & Hip & Hc).
  destruct (arp_lookup_elem _ _ Hnd He) as (n & Hn & Hlook).
  exists k, q. split; [done|]. split; [done|].
  unfold send_datagram, isEntryInARPTable, isEntryInIPQueues.
  rewrite <- Hip, Hlook, Hc. simpl. rewrite Hip, Hqlook. simpl.
  rewrite (at_index_lookup _ _ _ Hk). simpl.
  by rewrite (assign_at_lookup _ _ _ _ Hk).
Qed.

Lemma send_datagram_absent_state dgram next_hop s :
  consistent s →
  absent s (ipv4_numeric next_hop) →
  send_datagram dgram next_hop s =
  Done (mkNetworkInterface
          (ethernet_address_ s) (ip_address_ s)
          (ARPTable s ++
             [ARPTableEntry.mk false (ipv4_numeric next_hop) ETHERNET_ZERO 5000])
          (ReadyToBeSentQueue s ++
             [makeFrame (ethernet_address_ s) ETHERNET_BROADCAST
                        EthernetHeader.TYPE_ARP
                        (serialize_arp
                           (makeArp ARPMessage.OPCODE_REQUEST
                                    (ethernet_address_ s)
                                    (ipv4_numeric (ip_address_ s))
                                    ETHERNET_ZERO
                                    (ipv4_numeric next_hop)))])
          (IPQueues s ++ [IPQueue.mk (ipv4_numeric next_hop) [dgram]])).
Proof.
  intros Hcons Habs.
  unfold send_datagram, isEntryInARPTable, isEntryInIPQueues.
  rewrite (arp_lookup_absent _ _ Habs). simpl.
  rewrite (queue_lookup_absent _ _ (consistent_absent_no_queue _ _ Hcons Habs)).
  done.
Qed.

End InterfaceFacts.

(** ** The coherence of an ARP table with the IP queues *)

Lemma elem_of_pending_ips tbl ip :
  ip ∈ pending_ips tbl ↔
  ∃ e, e ∈ tbl ∧ ARPTableEntry.ip_address e = ip ∧
       ARPTableEntry.complete_entry e = false.
Proof.
  unfold pending_ips, arp_ips. rewrite list_elem_of_fmap. split.
  - intros (e & -> & He). apply list_elem_of_filter in He as [Hc He].
    by exists e.
  - intros (e & He & Hip & Hc). exists e. split; [done|].
    by apply list_elem_of_filter.
Qed.

Lemma elem_of_queue_ips qs ip :
  ip ∈ queue_ips qs ↔ ∃ q, q ∈ qs ∧ IPQueue.ip_address q = ip.
Proof.
  unfold queue_ips. rewrite list_elem_of_fmap. split.
  - intros (q & -> & Hq). by exists q.
  - intros (q & Hq & <-). by exists q.
Qed.

Lemma elem_of_arp_ips tbl ip :
  ip ∈ arp_ips tbl ↔ ∃ e, e ∈ tbl ∧ ARPTableEntry.ip_address e = ip.
Proof.
  unfold arp_ips. rewrite list_elem_of_fmap. split.
  - intros (e & -> & He). by exists e.
  - intros (e & He & <-). by exists e.
Qed.

Lemma consistent_coherent s :
  consistent s ↔ coherent (ARPTable s) (IPQueues s).
Proof.
  unfold consistent, coherent, holds_pending, has_queue.
  split; intros (H1 & H2 & H3); (split; [done|]; split; [done|]); intros ip.
  - by rewrite elem_of_pending_ips, elem_of_queue_ips.
  - by rewrite <- elem_of_pending_ips, <- elem_of_queue_ips.
Qed.

Lemma lookup_split {A} (l : list A) n x :
  l !! n = Some x →
  ∃ l1 l2, l = l1 ++ x :: l2 ∧
           (∀ y, <[n := y]> l = l1 ++ y :: l2) ∧
           delete n l = l1 ++ l2.
Proof.
  intros Hn. exists (take n l), (drop (S n) l).
  split; [by rewrite take_drop_middle|].
  split; [|by apply delete_take_drop].
  intros y. apply insert_take_drop. by eapply lookup_lt_Some.
Qed.

Lemma pending_ips_app l1 l2 :
  pending_ips (l1 ++ l2) = pending_ips l1 ++ pending_ips l2.
Proof. unfold pending_ips, arp_ips. by rewrite filter_app, fmap_app. Qed.

Lemma pending_ips_cons e l :
  pending_ips (e :: l) =
  if ARPTableEntry.complete_entry e then pending_ips l
  else ARPTableEntry.ip_address e :: pending_ips l.
Proof.
  unfold pending_ips, arp_ips. rewrite filter_cons.
  destruct (ARPTableEntry.complete_entry e); by case_decide.
Qed.

(* An entry is rewritten in place, keeping its IP and its state. *)
Lemma coherent_refresh l1 e e' l2 qs :
  coherent (l1 ++ e :: l2) qs →
  ARPTableEntry.ip_address e' = ARPTableEntry.ip_address e →
  ARPTableEntry.complete_entry e' = ARPTableEntry.complete_entry e →
  coherent (l1 ++ e' :: l2) qs.
Proof.
  intros (Hnd & Hq & Hiff) Hip Hc. unfold coherent, arp_ips in *.
  rewrite fmap_app, fmap_cons in *. rewrite Hip.
  split; [done|]. split; [done|]. intros ip. rewrite <- Hiff.
  rewrite !pending_ips_app, !pending_ips_cons, Hc, Hip. done.
Qed.

(* A Pending entry becomes Resolved and its queue is erased. *)
Lemma coherent_resolve l1 e e' l2 qs k q :
  coherent (l1 ++ e :: l2) qs →
  ARPTableEntry.complete_entry e = false →
  ARPTableEntry.ip_address e' = ARPTableEntry.ip_address e →
  ARPTableEntry.complete_entry e' = true →
  qs !! k = Some q →
  IPQueue.ip_address q = ARPTableEntry.ip_address e →
  coherent (l1 ++ e' :: l2) (delete k qs).
Proof.
  intros (Hnd & Hq & Hiff) Hc Hip Hc' Hk Hqip.
  rewrite (delete_as_filter IPQueue.ip_address qs k q Hq Hk).
  split; [|split].
  - unfold arp_ips in *. rewrite fmap_app, fmap_cons in *. by rewrite Hip.
  - by apply nodup_key_filter.
  - intros ip. rewrite pending_ips_app, pending_ips_cons, Hc'.
    rewrite elem_of_queue_ips.
    specialize (Hiff ip).
    rewrite pending_ips_app, pending_ips_cons, Hc, elem_of_queue_ips in Hiff.
    unfold arp_ips in Hnd. rewrite fmap_app, fmap_cons in Hnd.
    apply NoDup_app in Hnd as (Hnd1 & Hdisj & Hnd2).
    apply NoDup_cons in Hnd2 as [Hnotin2 Hnd2].
    assert (Hp1 : ARPTableEntry.ip_address e ∉ pending_ips l1).
    { intros Hin. apply elem_of_pending_ips in Hin as (x & Hx & Hxip & _).
      apply (Hdisj (ARPTableEntry.ip_address e)).
      - rewrite <- Hxip. by apply list_elem_of_fmap_2.
      - left. }
    assert (Hp2 : ARPTableEntry.ip_address e ∉ pending_ips l2).
    { intros Hin. apply elem_of_pending_ips in Hin as (x & Hx & Hxip & _).
      apply Hnotin2. rewrite <- Hxip. by apply list_elem_of_fmap_2. }
    rewrite elem_of_app, elem_of_cons in Hiff. rewrite elem_of_app.
    split.
    + intros Hin.
      assert (ip ≠ ARPTableEntry.ip_address e) by (intros ->; tauto).
      destruct (proj1 Hiff) as (q' & Hq' & Hq'ip); [tauto|].
      exists q'. split; [|done]. apply list_elem_of_filter. split; [|done].
      congruence.
    + intros (q' & Hq' & Hq'ip).
      apply list_elem_of_filter in Hq' as [Hne Hq'].
      destruct (proj2 Hiff) as [?|[?|?]]; [by exists q'|tauto| |tauto].
      congruence.
Qed.

(* A fresh Pending entry and its queue are appended. *)
Lemma coherent_add_pending tbl qs e q :
  coherent tbl qs →
  (∀ x, x ∈ tbl → ARPTableEntry.ip_address x ≠ ARPTableEntry.ip_address e) →
  ARPTableEntry.complete_entry e = false →
  IPQueue.ip_address q = ARPTableEntry.ip_address e →
  coherent (tbl ++ [e]) (qs ++ [q]).
Proof.
  intros (Hnd & Hq & Hiff) Hfresh Hc Hqip.
  assert (Hnotq : ARPTableEntry.ip_address e ∉ queue_ips qs).
  { intros Hin. apply Hiff, elem_of_pending_ips in Hin as (x & Hx & Hxip & _).
    by apply (Hfresh x). }
  split; [|split].
  - unfold arp_ips. rewrite fmap_app. apply NoDup_app.
    split; [done|]. split; [|apply NoDup_singleton].
    intros ip Hin Hin'. apply list_elem_of_singleton in Hin'. subst ip.
    apply elem_of_arp_ips in Hin as (x & Hx & Hxip). by apply (Hfresh x).
  - unfold queue_ips. rewrite fmap_app. apply NoDup_app.
    split; [done|]. split; [|apply NoDup_singleton].
    intros ip Hin Hin'. apply list_elem_of_singleton in Hin'. subst ip.
    by rewrite Hqip in Hin.
  - intros ip. rewrite pending_ips_app, pending_ips_cons, Hc.
    unfold queue_ips. rewrite fmap_app. fold (queue_ips qs).
    rewrite !elem_of_app, Hiff. simpl. by rewrite Hqip.
Qed.

(* A fresh Resolved entry is appended. *)
Lemma coherent_add_resolved tbl qs e :
  coherent tbl qs →
  (∀ x, x ∈ tbl → ARPTableEntry.ip_address x ≠ ARPTableEntry.ip_address e) →
  ARPTableEntry.complete_entry e = true →
  coherent (tbl ++ [e]) qs.
Proof.
  intros (Hnd & Hq & Hiff) Hfresh Hc.
  split; [|split; [done|]].
  - unfold arp_ips. rewrite fmap_app. apply NoDup_app.
    split; [done|]. split; [|apply NoDup_singleton].
    intros ip Hin Hin'. apply list_elem_of_singleton in Hin'. subst ip.
    apply elem_of_arp_ips in Hin as (x & Hx & Hxip). by apply (Hfresh x).
  - intros ip. rewrite pending_ips_app, pending_ips_cons, Hc, <- Hiff.
    rewrite elem_of_app. unfold pending_ips at 3. simpl.
    rewrite elem_of_nil. tauto.
Qed.

(* A datagram is pushed on an existing queue. *)
Lemma coherent_push tbl qs k q d :
  coherent tbl qs → qs !! k = Some q →
  coherent tbl (<[k := IPQueue.push_back q d]> qs).
Proof.
  intros (Hnd & Hq & Hiff) Hk.
  assert (Heq : queue_ips (<[k := IPQueue.push_back q d]> qs) = queue_ips qs).
  { unfold queue_ips. rewrite list_fmap_insert. simpl.
    apply list_insert_id. by rewrite list_lookup_fmap, Hk. }
  unfold coherent. by rewrite Heq.
Qed.

(** ** tick in closed form *)

Lemma tick_kept_cons ms e rest :
  tick_kept ms (e :: rest) =
  if ARPTableEntry.ttl (aged ms e) <=? 0 then tick_kept ms rest
  else aged ms e :: tick_kept ms rest.
Proof.
  unfold tick_kept. rewrite fmap_cons, filter_cons.
  destruct (Z.leb_spec (ARPTableEntry.ttl (aged ms e)) 0);
    case_decide; first [done | lia].
Qed.

Lemma expired_pending_ips_cons ms e rest :
  expired_pending_ips ms (e :: rest) =
  if (ARPTableEntry.ttl (aged ms e) <=? 0)
     && negb (ARPTableEntry.complete_entry e)
  then ARPTableEntry.ip_address e :: expired_pending_ips ms rest
  else expired_pending_ips ms rest.
Proof.
  unfold expired_pending_ips, arp_ips. rewrite fmap_cons, filter_cons.
  destruct (Z.leb_spec (ARPTableEntry.ttl (aged ms e)) 0);
    destruct (ARPTableEntry.complete_entry e) eqn:Hc; simpl;
    case_decide as Hd; simpl in *; try done;
    first [ destruct Hd; first [lia | congruence]
          | destruct Hd; split; first [lia | done] ].
Qed.

Lemma arp_ips_aged ms tbl : arp_ips (aged ms <$> tbl) = arp_ips tbl.
Proof.
  unfold arp_ips. rewrite <- list_fmap_compose. by apply list_fmap_ext.
Qed.

Section TickFacts.

Context `{Codec}.

Lemma tick_loop_closed ms todo qs :
  NoDup (arp_ips todo) →
  NoDup (queue_ips qs) →
  (∀ ip, ip ∈ pending_ips todo → ip ∈ queue_ips qs) →
  tick_loop ms todo qs = Done (tick_kept ms todo, tick_queues ms todo qs).
Proof.
  revert qs. induction todo as [|e rest IH]; intros qs Hnd Hq Hsub.
  - simpl. unfold tick_queues, expired_pending_ips. simpl.
    rewrite filter_all; [done|]. intros q _. apply not_elem_of_nil.
  - unfold arp_ips in Hnd. rewrite fmap_cons in Hnd.
    apply NoDup_cons in Hnd as [Hnotin Hnd].
    rewrite pending_ips_cons in Hsub.
    rewrite tick_kept_cons. unfold tick_queues.
    rewrite expired_pending_ips_cons. cbn [tick_loop].
    fold (aged ms e).
    change (ARPTableEntry.complete_entry (aged ms e))
      with (ARPTableEntry.complete_entry e).
    change (ARPTableEntry.ip_address (aged ms e))
      with (ARPTableEntry.ip_address e).
    destruct (ARPTableEntry.ttl (aged ms e) <=? 0) eqn:Hexp; simpl.
    + destruct (ARPTableEntry.complete_entry e) eqn:Hc; simpl.
      * by apply IH.
      * destruct (queue_lookup_elem qs (ARPTableEntry.ip_address e))
          as (k & q & Hk & Hqip & Hlook).
        { apply elem_of_queue_ips, Hsub. left. }
        rewrite Hlook. simpl. rewrite (erase_at_lookup _ _ _ Hk). simpl.
        rewrite (delete_as_filter IPQueue.ip_address qs k q Hq Hk).
        rewrite IH; [| done | by apply nodup_key_filter |].
        -- unfold tick_queues. rewrite list_filter_filter. do 2 f_equal.
           apply list_filter_iff. intros x.
           rewrite not_elem_of_cons, Hqip. tauto.
        -- intros ip Hip. apply elem_of_queue_ips.
           assert (Hin : ip ∈ queue_ips qs) by (apply Hsub; by right).
           apply elem_of_queue_ips in Hin as (q' & Hq' & Hq'ip).
           exists q'. split; [|done]. apply list_elem_of_filter.
           split; [|done]. rewrite Hq'ip, Hqip. intros ->.
           apply Hnotin.
           apply elem_of_pending_ips in Hip as (x & Hx & Hxip & _).
           rewrite <- Hxip. by apply list_elem_of_fmap_2.
    + rewrite IH; [done | done | done |].
      intros ip Hip. apply Hsub.
      destruct (ARPTableEntry.complete_entry e); [done | by right].
Qed.

End TickFacts.

Lemma elem_of_tick_kept ms tbl e' :
  e' ∈ tick_kept ms tbl ↔
  ∃ e, e ∈ tbl ∧ e' = aged ms e ∧ 0 < ARPTableEntry.ttl (aged ms e).
Proof.
  unfold tick_kept. rewrite list_elem_of_filter, list_elem_of_fmap. split.
  - intros (Hpos & e & -> & He). by exists e.
  - intros (e & He & -> & Hpos). split; [done|]. by exists e.
Qed.

Lemma elem_of_expired_pending_ips ms tbl ip :
  ip ∈ expired_pending_ips ms tbl ↔
  ∃ e, e ∈ tbl ∧ ARPTableEntry.ip_address e = ip ∧
       ARPTableEntry.complete_entry e = false ∧
       ARPTableEntry.ttl (aged ms e) <= 0.
Proof.
  unfold expired_pending_ips. rewrite elem_of_arp_ips. split.
  - intros (e' & He' & Hip). apply list_elem_of_filter in He' as [[Ht Hc] He'].
    apply list_elem_of_fmap in He' as (e & -> & He). by exists e.
  - intros (e & He & Hip & Hc & Ht). exists (aged ms e). split; [|done].
    apply list_elem_of_filter. split; [done|]. by apply list_elem_of_fmap_2.
Qed.

Lemma coherent_tick ms tbl qs :
  coherent tbl qs → coherent (tick_kept ms tbl) (tick_queues ms tbl qs).
Proof.
  intros (Hnd & Hq & Hiff). split; [|split].
  - unfold tick_kept. apply nodup_key_filter. fold (arp_ips (aged ms <$> tbl)).
    by rewrite arp_ips_aged.
  - by apply nodup_key_filter.
  - intros ip. rewrite elem_of_pending_ips, elem_of_queue_ips. split.
    + intros (e' & He' & Hip & Hc).
      apply elem_of_tick_kept in He' as (e & He & -> & Hpos).
      assert (Hin : ip ∈ queue_ips qs).
      { apply Hiff, elem_of_pending_ips. by exists e. }
      apply elem_of_queue_ips in Hin as (q & Hqin & Hqip).
      exists q. split; [|done]. apply list_elem_of_filter. split; [|done].
      rewrite Hqip. intros Hexp.
      apply elem_of_expired_pending_ips in Hexp as (e2 & He2 & Hip2 & _ & Ht).
      assert (e2 = e) as ->.
      { apply (nodup_key_unique ARPTableEntry.ip_address tbl); try done.
        by rewrite Hip2. }
      lia.
    + intros (q & Hqin & Hqip).
      apply list_elem_of_filter in Hqin as [Hnexp Hqin].
      assert (Hin : ip ∈ pending_ips tbl).
      { apply Hiff, elem_of_queue_ips. by exists q. }
      apply elem_of_pending_ips in Hin as (e & He & Hip & Hc).
      exists (aged ms e). split; [|done].
      apply elem_of_tick_kept. exists e. split; [done|]. split; [done|].
      destruct (Z.lt_ge_cases 0 (ARPTableEntry.ttl (aged ms e))); [done|].
      destruct Hnexp. rewrite Hqip.
      apply elem_of_expired_pending_ips. by exists e.
Qed.

(** ** recv_frame on an ARP message, case by case *)

Lemma arp_cases s ip :
  absent s ip ∨ ∃ e, e ∈ ARPTable s ∧ ARPTableEntry.ip_address e = ip.
Proof.
  destruct (isEntryInARPTable_from_spec (ARPTable s) ip)
    as [Hnone | n e Hn Hip _].
  - by left.
  - right. exists e. split; [by eapply list_elem_of_lookup_2 | done].
Qed.

Section ReceiveFacts.

Context `{Codec}.

Lemma recv_arp_learn_resolved_state arp s e :
  consistent s →
  e ∈ ARPTable s →
  ARPTableEntry.ip_address e = ARPMessage.sender_ip_address arp →
  ARPTableEntry.complete_entry e = true →
  ∃ n, ARPTable s !! n = Some e ∧
       recv_arp_learn arp s =
       Done (set_ARPTable s
               (<[n := ARPTableEntry.set_ttl e 30000]> (ARPTable s))).
Proof.
  intros Hcons He Hip Hc.
  pose proof Hcons as (Hnd & _ & _).
  destruct (arp_lookup_elem _ _ Hnd He) as (n & Hn & Hlook).
  exists n. split; [done|].
  unfold recv_arp_learn, isEntryInARPTable, isEntryInIPQueues.
  rewrite <- Hip, Hlook, Hc.
  rewrite (queue_lookup_absent _ _ (consistent_no_queue _ _ Hcons He Hc)).
  simpl. rewrite (at_index_lookup _ _ _ Hn). simpl.
  by rewrite (assign_at_lookup _ _ _ _ Hn).
Qed.

Lemma recv_arp_learn_pending_state arp s e :
  consistent s →
  e ∈ ARPTable s →
  ARPTableEntry.ip_address e = ARPMessage.sender_ip_address arp →
  ARPTableEntry.complete_entry e = false →
  ∃ n k q,
    ARPTable s !! n = Some e ∧
    IPQueues s !! k = Some q ∧
    IPQueue.ip_address q = ARPMessage.sender_ip_address arp ∧
    recv_arp_learn arp s =
    Done (mkNetworkInterface
            (ethernet_address_ s) (ip_address_ s)
            (<[n := ARPTableEntry.mk true (ARPMessage.sender_ip_address arp)
                      (ARPMessage.sender_ethernet_address arp) 30000]>
               (ARPTable s))
            (ReadyToBeSentQueue s ++
               drain_frames (ethernet_address_ s)
                            (ARPMessage.sender_ethernet_address arp)
                            (IPQueue.datagrams q))
            (delete k (IPQueues s))).
Proof.
  intros Hcons He Hip Hc.
  pose proof Hcons as (Hnd & _ & Hiff).
  destruct (arp_lookup_elem _ _ Hnd He) as (n & Hn & Hlook).
  destruct (queue_lookup_elem (IPQueues s) (ARPMessage.sender_ip_address arp))
    as (k & q & Hk & Hqip & Hqlook).
  { apply Hiff. by exists e. }
  exists n, k, q. do 3 (split; [done|]).
  unfold recv_arp_learn, isEntryInARPTable, isEntryInIPQueues.
  rewrite Hqlook, <- Hip, Hlook, Hc. simpl.
  rewrite (at_index_lookup _ _ _ Hn). simpl.
  rewrite (assign_at_lookup _ _ _ _ Hn). simpl.
  rewrite (at_index_lookup _ _ _ Hk). simpl.
  rewrite (erase_at_lookup _ _ _ Hk). simpl.
  done.
Qed.

Lemma recv_arp_learn_absent_state arp s :
  consistent s →
  absent s (ARPMessage.sender_ip_address arp) →
  recv_arp_learn arp s =
  Done (set_ARPTable s
          (ARPTable s ++
             [ARPTableEntry.mk true (ARPMessage.sender_ip_address arp)
                               (ARPMessage.sender_ethernet_address arp)
                               30000])).
Proof.
  intros Hcons Habs.
  unfold recv_arp_learn, isEntryInARPTable, isEntryInIPQueues.
  rewrite (arp_lookup_absent _ _ Habs).
  rewrite (queue_lookup_absent _ _ (consistent_absent_no_queue _ _ Hcons Habs)).
  done.
Qed.

(** ** Every operation keeps the invariant and returns *)

Lemma NetworkInterface_new_consistent mac ip :
  consistent (NetworkInterface_new mac ip).
Proof.
  apply consistent_coherent. simpl. split; [|split].
  - apply NoDup_nil_2.
  - apply NoDup_nil_2.
  - done.
Qed.

Lemma send_datagram_consistent dgram next_hop s :
  consistent s →
  ∃ s', send_datagram dgram next_hop s = Done s' ∧ consistent s'.
Proof.
  intros Hcons. pose proof Hcons as Hcoh%consistent_coherent.
  destruct (arp_cases s (ipv4_numeric next_hop)) as [Habs | (e & He & Hip)].
  - rewrite (send_datagram_absent_state _ _ _ Hcons Habs).
    eexists. split; [done|]. apply consistent_coherent. simpl.
    by apply coherent_add_pending.
  - destruct (ARPTableEntry.complete_entry e) eqn:Hc.
    + rewrite (send_datagram_resolved_state _ _ _ e); try done;
        [|by destruct Hcons].
      eexists. split; [done|]. by apply consistent_coherent.
    + destruct (send_datagram_pending_state dgram next_hop s Hcons)
        as (k & q & Hk & Hqip & ->); [by exists e|].
      eexists. split; [done|]. apply consistent_coherent. simpl.
      by apply coherent_push.
Qed.

Lemma recv_arp_learn_consistent arp s :
  consistent s →
  ∃ s', recv_arp_learn arp s = Done s' ∧ consistent s'.
Proof.
  intros Hcons. pose proof Hcons as Hcoh%consistent_coherent.
  destruct (arp_cases s (ARPMessage.sender_ip_address arp))
    as [Habs | (e & He & Hip)].
  - rewrite (recv_arp_learn_absent_state _ _ Hcons Habs).
    eexists. split; [done|]. apply consistent_coherent. simpl.
    by apply coherent_add_resolved.
  - destruct (ARPTableEntry.complete_entry e) eqn:Hc.
    + destruct (recv_arp_learn_resolved_state arp s e) as (n & Hn & ->);
        try done.
      eexists. split; [done|]. apply consistent_coherent. simpl.
      destruct (lookup_split _ _ _ Hn) as (l1 & l2 & Heq & Hins & _).
      rewrite Hins. rewrite Heq in Hcoh.
      by apply (coherent_refresh l1 e).
    + destruct (recv_arp_learn_pending_state arp s e)
        as (n & k & q & Hn & Hk & Hqip & ->); try done.
      eexists. split; [done|]. apply consistent_coherent. simpl.
      destruct (lookup_split _ _ _ Hn) as (l1 & l2 & Heq & Hins & _).
      rewrite Hins. rewrite Heq in Hcoh.
      apply (coherent_resolve l1 e _ l2 _ k q); try done. congruence.
Qed.

Lemma recv_arp_reply_consistent arp s :
  consistent s → consistent (recv_arp_reply arp s).
Proof.
  intros Hcons. unfold recv_arp_reply.
  destruct (ARPMessage.opcode arp =? ARPMessage.OPCODE_REQUEST); [|done].
  by destruct (ARPMessage.target_ip_address arp =?
               ipv4_numeric (ip_address_ s)).
Qed.

Lemma recv_frame_consistent frame s :
  consistent s →
  ∃ s' o, recv_frame frame s = Done (s', o) ∧ consistent s'.
Proof.
  intros Hcons. unfold recv_frame.
  destruct (negb _); [by exists s, None|].
  destruct (_ =? EthernetHeader.TYPE_IPv4).
  { destruct (parse_dgram _) as [d|]; [by exists s, (Some d) | by exists s, None]. }
  destruct (_ =? EthernetHeader.TYPE_ARP); [|by exists s, None].
  destruct (parse_arp _) as [arp|]; [|by exists s, None].
  destruct (recv_arp_learn_consistent arp s Hcons) as (s' & -> & Hcons').
  simpl. eexists _, None. split; [done|].
  by apply recv_arp_reply_consistent.
Qed.

Lemma tick_consistent ms s :
  consistent s → ∃ s', tick ms s = Done s' ∧ consistent s'.
Proof.
  intros Hcons. pose proof Hcons as Hcoh%consistent_coherent.
  unfold tick. rewrite tick_loop_closed.
  - simpl. eexists. split; [done|]. apply consistent_coherent. simpl.
    by apply coherent_tick.
  - by destruct Hcoh.
  - by destruct Hcoh as (_ & ? & _).
  - intros ip. by apply Hcoh.
Qed.

Lemma maybe_send_consistent s :
  consistent s → consistent (fst (maybe_send s)).
Proof.
  intros Hcons. unfold maybe_send. by destruct (ReadyToBeSentQueue s).
Qed.

Lemma step_consistent c s :
  consistent s → ∃ s', step c s = Done s' ∧ consistent s'.
Proof.
  intros Hcons. destruct c as [dgram next_hop | frame | ms |]; simpl.
  - by apply send_datagram_consistent.
  - destruct (recv_frame_consistent frame s Hcons) as (s' & o & -> & Hcons').
    by exists s'.
  - by apply tick_consistent.
  - eexists. split; [done|]. by apply maybe_send_consistent.
Qed.

Lemma run_consistent cs s :
  consistent s → ∃ s', run cs s = Done s' ∧ consistent s'.
Proof.
  revert s. induction cs as [|c cs IH]; intros s Hcons; simpl.
  - by exists s.
  - destruct (step_consistent c s Hcons) as (s1 & -> & Hcons1). simpl.
    by apply IH.
Qed.

(* Every state reached from a new interface is consistent. *)
Lemma reachable_consistent mac ip cs s :
  run cs (NetworkInterface_new mac ip) = Done s → consistent s.
Proof.
  intros Hrun.
  destruct (run_consistent cs _ (NetworkInterface_new_consistent mac ip))
    as (s' & Hrun' & Hcons).
  congruence.
Qed.

End ReceiveFacts.

(** * The statements of the specification *)

(** ** send_datagram *)

Section SendClaims.

Context `{Codec}.

(** C1. In every state reached from a new interface, and for every call
    send_datagram(dgram, next_hop) with P the IP of next_hop:
    - if the cache holds a Resolved entry [e] for P, the call appends
      exactly the frame {src = own MAC, dst = e's MAC, type = TYPE_IPv4,
      payload = serialize(dgram)} to the TX queue, and the cache and the
      queues stay as they are;
    - if the cache holds a Pending entry for P, the call appends dgram at
      the tail of the one queue of P; the TX queue (no ARP request) and the
      cache (no TTL refresh) stay as they are;
    - if the cache has no entry for P, the call appends a Pending entry
      with TTL 5000, a queue for P that holds exactly dgram, and the
      broadcast ARP REQUEST (sender = own MAC and IP, target MAC zero,
      target IP = P, frame type TYPE_ARP). *)
Theorem send_datagram_cases mac ip cs s dgram next_hop :
  run cs (NetworkInterface_new mac ip) = Done s →
  (∀ e, e ∈ ARPTable s →
        ARPTableEntry.ip_address e = ipv4_numeric next_hop →
        ARPTableEntry.complete_entry e = true →
        send_datagram dgram next_hop s =
        Done (mkNetworkInterface
                (ethernet_address_ s) (ip_address_ s)
                (ARPTable s)
                (ReadyToBeSentQueue s ++
                   [ipv4_frame s (ARPTableEntry.mac_address e) dgram])
                (IPQueues s)))
  ∧ (holds_pending s (ipv4_numeric next_hop) →
     ∃ n q,
       IPQueues s !! n = Some q ∧
       IPQueue.ip_address q = ipv4_numeric next_hop ∧
       (∀ q', q' ∈ IPQueues s →
              IPQueue.ip_address q' = ipv4_numeric next_hop → q' = q) ∧
       send_datagram dgram next_hop s =
       Done (mkNetworkInterface
               (ethernet_address_ s) (ip_address_ s)
               (ARPTable s)
               (ReadyToBeSentQueue s)
               (<[n := IPQueue.mk (ipv4_numeric next_hop)
                                  (IPQueue.datagrams q ++ [dgram])]>
                  (IPQueues s))))
  ∧ (absent s (ipv4_numeric next_hop) →
     send_datagram dgram next_hop s =
     Done (mkNetworkInterface
             (ethernet_address_ s) (ip_address_ s)
             (ARPTable s ++
                [ARPTableEntry.mk false (ipv4_numeric next_hop)
                                  ETHERNET_ZERO 5000])
             (ReadyToBeSentQueue s ++
                [request_frame s (ipv4_numeric next_hop)])
             (IPQueues s ++
                [IPQueue.mk (ipv4_numeric next_hop) [dgram]]))).
Proof.
  intros Hrun. pose proof (reachable_consistent _ _ _ _ Hrun) as Hcons.
  split; [|split].
  - intros e He Hip Hc.
    rewrite (send_datagram_resolved_state _ _ _ e); try done.
    by destruct Hcons.
  - intros Hpend.
    destruct (send_datagram_pending_state dgram next_hop s Hcons Hpend)
      as (n & q & Hn & Hqip & Hsend).
    exists n, q. split; [done|]. split; [done|]. split.
    + intros q' Hq' Hq'ip. destruct Hcons as (_ & Hq & _).
      apply (nodup_key_unique IPQueue.ip_address (IPQueues s)); try done.
      * by eapply list_elem_of_lookup_2.
      * congruence.
    + rewrite Hsend. unfold IPQueue.push_back. by rewrite Hqip.
  - intros Habs. by rewrite (send_datagram_absent_state _ _ _ Hcons Habs).
Qed.

End SendClaims.

(** ** recv_frame on ARP frames *)

Lemma filter_none {A} (P : A → Prop) `{∀ x, Decision (P x)} (l : list A) :
  (∀ x, x ∈ l → ¬ P x) → filter P l = [].
Proof.
  induction l as [|a l IH]; intros Hnone; [done|].
  rewrite filter_cons_False by (apply Hnone; left).
  apply IH. intros x Hx. apply Hnone. by right.
Qed.

(* Under distinct IPs, the entries for the IP of [e] are [e] alone. *)
Lemma filter_ip_unique tbl e :
  NoDup (arp_ips tbl) → e ∈ tbl →
  filter (λ x, ARPTableEntry.ip_address x = ARPTableEntry.ip_address e) tbl
  = [e].
Proof.
  intros Hnd He.
  apply list_elem_of_split in He as (l1 & l2 & ->).
  unfold arp_ips in Hnd. rewrite fmap_app, fmap_cons in Hnd.
  apply NoDup_app in Hnd as (_ & Hdisj & Hnd2).
  apply NoDup_cons in Hnd2 as [Hnotin2 _].
  rewrite filter_app, filter_cons_True by done.
  rewrite !filter_none; [done | |].
  - intros x Hx Heq. apply Hnotin2. rewrite <- Heq.
    by apply list_elem_of_fmap_2.
  - intros x Hx Heq. apply (Hdisj (ARPTableEntry.ip_address e)); [|left].
    rewrite <- Heq. by apply list_elem_of_fmap_2.
Qed.

Section ReceiveStates.

Context `{Codec}.

Lemma recv_frame_arp_branch frame arp s :
  accepts s frame →
  EthernetHeader.type (EthernetFrame.header frame) = EthernetHeader.TYPE_ARP →
  parse_arp (EthernetFrame.payload frame) = Some arp →
  recv_frame frame s =
  (s1 ← recv_arp_learn arp s; mret (recv_arp_reply arp s1, None)).
Proof.
  intros Hacc Htype Hparse. unfold recv_frame.
  rewrite Htype, Hparse.
  assert (Hfilter :
    bool_decide (EthernetHeader.dst (EthernetFrame.header frame)
                 = ethernet_address_ s)
    || bool_decide (EthernetHeader.dst (EthernetFrame.header frame)
                    = ETHERNET_BROADCAST) = true).
  { apply orb_true_iff.
    destruct Hacc as [Hd | Hd]; [left | right];
      by apply bool_decide_eq_true_2. }
  rewrite Hfilter. done.
Qed.

Lemma recv_arp_reply_spec arp s :
  recv_arp_reply arp s =
  if reply_due s arp then push_frame s (reply_frame s arp) else s.
Proof.
  unfold recv_arp_reply, reply_due.
  destruct (ARPMessage.opcode arp =? ARPMessage.OPCODE_REQUEST); [|done].
  by destruct (ARPMessage.target_ip_address arp =?
               ipv4_numeric (ip_address_ s)).
Qed.

Lemma recv_frame_resolved_state frame arp s e :
  consistent s → accepts s frame →
  EthernetHeader.type (EthernetFrame.header frame) = EthernetHeader.TYPE_ARP →
  parse_arp (EthernetFrame.payload frame) = Some arp →
  e ∈ ARPTable s →
  ARPTableEntry.ip_address e = ARPMessage.sender_ip_address arp →
  ARPTableEntry.complete_entry e = true →
  ∃ n, ARPTable s !! n = Some e ∧
       recv_frame frame s =
       Done (mkNetworkInterface
               (ethernet_address_ s) (ip_address_ s)
               (<[n := ARPTableEntry.mk true (ARPTableEntry.ip_address e)
                         (ARPTableEntry.mac_address e) 30000]> (ARPTable s))
               (ReadyToBeSentQueue s ++ reply_frames s arp)
               (IPQueues s),
             None).
Proof.
  intros Hcons Hacc Htype Hparse He Hip Hc.
  destruct (recv_arp_learn_resolved_state arp s e) as (n & Hn & Hlearn);
    try done.
  exists n. split; [done|].
  rewrite (recv_frame_arp_branch _ _ _ Hacc Htype Hparse), Hlearn. simpl.
  rewrite recv_arp_reply_spec. unfold reply_frames, reply_due. simpl.
  unfold ARPTableEntry.set_ttl. rewrite Hc.
  destruct (_ && _); simpl; [done|]. by rewrite app_nil_r.
Qed.

Lemma recv_frame_pending_state frame arp s e :
  consistent s → accepts s frame →
  EthernetHeader.type (EthernetFrame.header frame) = EthernetHeader.TYPE_ARP →
  parse_arp (EthernetFrame.payload frame) = Some arp →
  e ∈ ARPTable s →
  ARPTableEntry.ip_address e = ARPMessage.sender_ip_address arp →
  ARPTableEntry.complete_entry e = false →
  ∃ n k q,
    ARPTable s !! n = Some e ∧
    IPQueues s !! k = Some q ∧
    IPQueue.ip_address q = ARPMessage.sender_ip_address arp ∧
    recv_frame frame s =
    Done (mkNetworkInterface
            (ethernet_address_ s) (ip_address_ s)
            (<[n := ARPTableEntry.mk true (ARPMessage.sender_ip_address arp)
                      (ARPMessage.sender_ethernet_address arp) 30000]>
               (ARPTable s))
            (ReadyToBeSentQueue s ++
               (ipv4_frame s (ARPMessage.sender_ethernet_address arp)
                  <$> IPQueue.datagrams q) ++
               reply_frames s arp)
            (delete k (IPQueues s)),
          None).
Proof.
  intros Hcons Hacc Htype Hparse He Hip Hc.
  destruct (recv_arp_learn_pending_state arp s e)
    as (n & k & q & Hn & Hk & Hqip & Hlearn); try done.
  exists n, k, q. do 3 (split; [done|]).
  rewrite (recv_frame_arp_branch _ _ _ Hacc Htype Hparse), Hlearn. simpl.
  rewrite recv_arp_reply_spec. unfold reply_frames, reply_due. simpl.
  destruct (_ && _); simpl.
  - unfold push_frame. simpl. by rewrite <- app_assoc.
  - by rewrite app_nil_r.
Qed.

Lemma recv_frame_absent_state frame arp s :
  consistent s → accepts s frame →
  EthernetHeader.type (EthernetFrame.header frame) = EthernetHeader.TYPE_ARP →
  parse_arp (EthernetFrame.payload frame) = Some arp →
  absent s (ARPMessage.sender_ip_address arp) →
  recv_frame frame s =
  Done (mkNetworkInterface
          (ethernet_address_ s) (ip_address_ s)
          (ARPTable s ++
             [ARPTableEntry.mk true (ARPMessage.sender_ip_address arp)
                               (ARPMessage.sender_ethernet_address arp)
                               30000])
          (ReadyToBeSentQueue s ++ reply_frames s arp)
          (IPQueues s),
        None).
Proof.
  intros Hcons Hacc Htype Hparse Habs.
  rewrite (recv_frame_arp_branch _ _ _ Hacc Htype Hparse).
  rewrite (recv_arp_learn_absent_state _ _ Hcons Habs). simpl.
  rewrite recv_arp_reply_spec. unfold reply_frames, reply_due. simpl.
  destruct (_ && _); simpl; [done|]. by rewrite app_nil_r.
Qed.

End ReceiveStates.

Section ReceiveClaims.

Context `{Codec}.

(* The state that recv_frame returns is the consistent one. *)
Lemma recv_frame_result_consistent frame s s' o :
  consistent s → recv_frame frame s = Done (s', o) → consistent s'.
Proof.
  intros Hcons Hrecv.
  destruct (recv_frame_consistent frame s Hcons) as (s1 & o1 & Hrecv1 & Hcons1).
  congruence.
Qed.

(** C2, amended. For every frame accepted by the destination-MAC filter whose
    type is TYPE_ARP and whose payload parses to an ARP message with sender
    pair (M, P), received in a state reached from a new interface:
    recv_frame returns, and afterwards the cache holds exactly one entry for
    P; this entry is Resolved and its TTL is 30000. Its MAC is M when P was
    absent or Pending before the call; when P was already Resolved, the MAC
    is the one stored before the call. *)
Theorem recv_frame_arp_learns mac ip cs s frame arp :
  run cs (NetworkInterface_new mac ip) = Done s →
  accepts s frame →
  EthernetHeader.type (EthernetFrame.header frame) = EthernetHeader.TYPE_ARP →
  parse_arp (EthernetFrame.payload frame) = Some arp →
  ∃ s' e,
    recv_frame frame s = Done (s', None) ∧
    filter (λ x, ARPTableEntry.ip_address x = ARPMessage.sender_ip_address arp)
           (ARPTable s') = [e] ∧
    ARPTableEntry.complete_entry e = true ∧
    ARPTableEntry.ttl e = 30000 ∧
    (absent s (ARPMessage.sender_ip_address arp) ∨
     holds_pending s (ARPMessage.sender_ip_address arp) →
     ARPTableEntry.mac_address e = ARPMessage.sender_ethernet_address arp) ∧
    (∀ e0, e0 ∈ ARPTable s →
           ARPTableEntry.ip_address e0 = ARPMessage.sender_ip_address arp →
           ARPTableEntry.complete_entry e0 = true →
           ARPTableEntry.mac_address e = ARPTableEntry.mac_address e0).
Proof.
  intros Hrun Hacc Htype Hparse.
  pose proof (reachable_consistent _ _ _ _ Hrun) as Hcons.
  pose proof Hcons as (Hnd & _ & _).
  destruct (arp_cases s (ARPMessage.sender_ip_address arp))
    as [Habs | (e & He & Hip)].
  - pose proof (recv_frame_absent_state _ _ _ Hcons Hacc Htype Hparse Habs)
      as Hrecv.
    pose proof (recv_frame_result_consistent _ _ _ _ Hcons Hrecv)
      as (Hnd' & _ & _).
    eexists _, (ARPTableEntry.mk true (ARPMessage.sender_ip_address arp)
                  (ARPMessage.sender_ethernet_address arp) 30000).
    split; [exact Hrecv|]. simpl in *. split.
    { apply (filter_ip_unique _
               (ARPTableEntry.mk true (ARPMessage.sender_ip_address arp)
                  (ARPMessage.sender_ethernet_address arp) 30000) Hnd').
      apply elem_of_app. right. left. }
    do 3 (split; [done|]).
    intros e0 He0 Hip0 _. by destruct (Habs e0).
  - destruct (ARPTableEntry.complete_entry e) eqn:Hc.
    + destruct (recv_frame_resolved_state frame arp s e)
        as (n & Hn & Hrecv); try done.
      pose proof (recv_frame_result_consistent _ _ _ _ Hcons Hrecv)
        as (Hnd' & _ & _).
      eexists _, (ARPTableEntry.mk true (ARPTableEntry.ip_address e)
                    (ARPTableEntry.mac_address e) 30000).
      split; [exact Hrecv|]. simpl in *. split.
      { rewrite <- Hip.
        apply (filter_ip_unique _
                 (ARPTableEntry.mk true (ARPTableEntry.ip_address e)
                    (ARPTableEntry.mac_address e) 30000) Hnd').
        apply list_elem_of_insert. by eapply lookup_lt_Some. }
      do 2 (split; [done|]). split.
      * intros [Habs | (e1 & He1 & Hip1 & Hc1)].
        -- by destruct (Habs e).
        -- assert (e1 = e) as ->; [|congruence].
           apply (nodup_key_unique ARPTableEntry.ip_address (ARPTable s));
             try done. congruence.
      * intros e0 He0 Hip0 _. f_equal.
        apply (nodup_key_unique ARPTableEntry.ip_address (ARPTable s));
          try done. congruence.
    + destruct (recv_frame_pending_state frame arp s e)
        as (n & k & q & Hn & Hk & Hqip & Hrecv); try done.
      pose proof (recv_frame_result_consistent _ _ _ _ Hcons Hrecv)
        as (Hnd' & _ & _).
      eexists _, (ARPTableEntry.mk true (ARPMessage.sender_ip_address arp)
                    (ARPMessage.sender_ethernet_address arp) 30000).
      split; [exact Hrecv|]. simpl in *. split.
      { apply (filter_ip_unique _
                 (ARPTableEntry.mk true (ARPMessage.sender_ip_address arp)
                    (ARPMessage.sender_ethernet_address arp) 30000) Hnd').
        apply list_elem_of_insert. by eapply lookup_lt_Some. }
      do 3 (split; [done|]).
      intros e0 He0 Hip0 Hc0.
      assert (e0 = e) as ->; [|congruence].
      apply (nodup_key_unique ARPTableEntry.ip_address (ARPTable s));
        try done. congruence.
Qed.

(** C5. When a recv_frame call processes an ARP message from sender (M, P)
    in a reached state whose cache holds a Pending entry for P: the call
    appends to the TX queue one frame {src = own MAC, dst = M, type =
    TYPE_IPv4, payload = the serialized datagram} for every datagram of the
    queue of P, in the order of the queue, and after all of them the ARP
    reply of the call, if there is one; and the queue of P is removed. *)
Theorem recv_frame_drains_queue mac ip cs s frame arp :
  run cs (NetworkInterface_new mac ip) = Done s →
  accepts s frame →
  EthernetHeader.type (EthernetFrame.header frame) = EthernetHeader.TYPE_ARP →
  parse_arp (EthernetFrame.payload frame) = Some arp →
  holds_pending s (ARPMessage.sender_ip_address arp) →
  ∃ k q s',
    IPQueues s !! k = Some q ∧
    IPQueue.ip_address q = ARPMessage.sender_ip_address arp ∧
    (∀ q', q' ∈ IPQueues s →
           IPQueue.ip_address q' = ARPMessage.sender_ip_address arp →
           q' = q) ∧
    recv_frame frame s = Done (s', None) ∧
    ReadyToBeSentQueue s' =
      ReadyToBeSentQueue s ++
      (ipv4_frame s (ARPMessage.sender_ethernet_address arp)
         <$> IPQueue.datagrams q) ++
      (if reply_due s arp then [reply_frame s arp] else []) ∧
    IPQueues s' = delete k (IPQueues s) ∧
    ¬ has_queue s' (ARPMessage.sender_ip_address arp).
Proof.
  intros Hrun Hacc Htype Hparse (e & He & Hip & Hc).
  pose proof (reachable_consistent _ _ _ _ Hrun) as Hcons.
  destruct (recv_frame_pending_state frame arp s e)
    as (n & k & q & Hn & Hk & Hqip & Hrecv); try done.
  pose proof (recv_frame_result_consistent _ _ _ _ Hcons Hrecv)
    as (Hnd' & _ & Hiff').
  eexists k, q, _. split; [done|]. split; [done|]. split.
  { intros q' Hq' Hq'ip. destruct Hcons as (_ & Hq & _).
    apply (nodup_key_unique IPQueue.ip_address (IPQueues s)); try done.
    - by eapply list_elem_of_lookup_2.
    - congruence. }
  split; [exact Hrecv|]. simpl in *. do 2 (split; [done|]).
  intros Hqueue. apply Hiff' in Hqueue as (e1 & He1 & Hip1 & Hc1).
  simpl in He1.
  assert (e1 = ARPTableEntry.mk true (ARPMessage.sender_ip_address arp)
                 (ARPMessage.sender_ethernet_address arp) 30000) as ->.
  { eapply (nodup_key_unique ARPTableEntry.ip_address); try done.
    apply list_elem_of_insert. by eapply lookup_lt_Some. }
  done.
Qed.

(** C7. In a reached state, recv_frame returns None for every frame of type
    TYPE_ARP. For an accepted frame whose payload parses to an ARP message,
    the frames appended to the TX queue are the drained IPv4 frames followed
    by the ARP REPLY {opcode = REPLY, sender = own MAC and IP, target =
    (sender_mac, sender_ip)} in a TYPE_ARP frame addressed to sender_mac if
    the opcode is REQUEST and target_ip is the own IP, and by nothing
    otherwise: the reply is among the appended frames iff the opcode is
    REQUEST and target_ip is the own IP. *)
Theorem recv_frame_arp_reply mac ip cs s frame :
  run cs (NetworkInterface_new mac ip) = Done s →
  EthernetHeader.type (EthernetFrame.header frame) = EthernetHeader.TYPE_ARP →
  (∃ s', recv_frame frame s = Done (s', None)) ∧
  (∀ arp,
     accepts s frame →
     parse_arp (EthernetFrame.payload frame) = Some arp →
     ∃ s' drained,
       recv_frame frame s = Done (s', None) ∧
       Forall (λ f, EthernetHeader.type (EthernetFrame.header f)
                    = EthernetHeader.TYPE_IPv4) drained ∧
       ReadyToBeSentQueue s' =
         ReadyToBeSentQueue s ++ drained ++
         (if (ARPMessage.opcode arp =? ARPMessage.OPCODE_REQUEST) &&
             (ARPMessage.target_ip_address arp
              =? ipv4_numeric (ip_address_ s))
          then [reply_frame s arp] else []) ∧
       (reply_frame s arp ∈
          drained ++
          (if (ARPMessage.opcode arp =? ARPMessage.OPCODE_REQUEST) &&
              (ARPMessage.target_ip_address arp
               =? ipv4_numeric (ip_address_ s))
           then [reply_frame s arp] else [])
        ↔ ARPMessage.opcode arp = ARPMessage.OPCODE_REQUEST ∧
          ARPMessage.target_ip_address arp = ipv4_numeric (ip_address_ s))).
Proof.
  intros Hrun Htype.
  pose proof (reachable_consistent _ _ _ _ Hrun) as Hcons.
  split.
  - unfold recv_frame. destruct (negb _); [by exists s|].
    rewrite Htype. simpl.
    destruct (parse_arp _) as [arp|]; [|by exists s].
    destruct (recv_arp_learn_consistent arp s Hcons) as (s' & -> & _).
    simpl. by eexists.
  - intros arp Hacc Hparse.
    assert (Hstate : ∃ s' drained,
      recv_frame frame s = Done (s', None) ∧
      Forall (λ f, EthernetHeader.type (EthernetFrame.header f)
                   = EthernetHeader.TYPE_IPv4) drained ∧
      ReadyToBeSentQueue s' =
        ReadyToBeSentQueue s ++ drained ++ reply_frames s arp).
    { destruct (arp_cases s (ARPMessage.sender_ip_address arp))
        as [Habs | (e & He & Hip)].
      - eexists _, []. split; [by apply recv_frame_absent_state|].
        split; [constructor | done].
      - destruct (ARPTableEntry.complete_entry e) eqn:Hc.
        + destruct (recv_frame_resolved_state frame arp s e)
            as (n & Hn & Hrecv); try done.
          eexists _, []. split; [exact Hrecv|]. split; [constructor | done].
        + destruct (recv_frame_pending_state frame arp s e)
            as (n & k & q & Hn & Hk & Hqip & Hrecv); try done.
          eexists _, _. split; [exact Hrecv|]. split; [|done].
          apply Forall_fmap, Forall_true. done. }
    destruct Hstate as (s' & drained & Hrecv & Hdrained & Htx).
    exists s', drained. do 3 (split; [done|]).
    rewrite elem_of_app. split.
    + intros [Hin | Hin].
      * rewrite Forall_forall in Hdrained. by apply Hdrained in Hin.
      * destruct (ARPMessage.opcode arp =? ARPMessage.OPCODE_REQUEST) eqn:E1;
          [|by apply elem_of_nil in Hin].
        destruct (ARPMessage.target_ip_address arp
                  =? ipv4_numeric (ip_address_ s)) eqn:E2;
          [|by apply elem_of_nil in Hin].
        split; by apply Z.eqb_eq.
    + intros [-> ->]. right. rewrite !Z.eqb_refl. left.
Qed.

(** C10. When recv_frame processes, in a reached state, an accepted ARP
    message whose sender IP has a Resolved cache entry [e], the entry keeps
    its IP and its MAC (also when the message carries another sender MAC)
    and its TTL becomes 30000; the other cache entries and the IP queues
    stay as they are, and the TX queue changes only by the ARP reply, when
    one is due. *)
Theorem recv_frame_resolved_refresh mac ip cs s frame arp e :
  run cs (NetworkInterface_new mac ip) = Done s →
  accepts s frame →
  EthernetHeader.type (EthernetFrame.header frame) = EthernetHeader.TYPE_ARP →
  parse_arp (EthernetFrame.payload frame) = Some arp →
  e ∈ ARPTable s →
  ARPTableEntry.ip_address e = ARPMessage.sender_ip_address arp →
  ARPTableEntry.complete_entry e = true →
  ∃ n,
    ARPTable s !! n = Some e ∧
    recv_frame frame s =
    Done (mkNetworkInterface
            (ethernet_address_ s) (ip_address_ s)
            (<[n := ARPTableEntry.mk true (ARPTableEntry.ip_address e)
                      (ARPTableEntry.mac_address e) 30000]> (ARPTable s))
            (if reply_due s arp
             then ReadyToBeSentQueue s ++ [reply_frame s arp]
             else ReadyToBeSentQueue s)
            (IPQueues s),
          None).
Proof.
  intros Hrun Hacc Htype Hparse He Hip Hc.
  pose proof (reachable_consistent _ _ _ _ Hrun) as Hcons.
  destruct (recv_frame_resolved_state frame arp s e)
    as (n & Hn & Hrecv); try done.
  exists n. split; [done|]. rewrite Hrecv. unfold reply_frames.
  destruct (reply_due s arp); [done|]. by rewrite app_nil_r.
Qed.

(** C8. Every finite sequence of send_datagram, recv_frame, tick and
    maybe_send calls on a new interface returns, and in the state it
    reaches, for every IP I: the cache holds a Pending entry for I iff a
    queue for I exists, and if the cache holds a Resolved entry for I, no
    queue for I exists. No call made in a reached state ends in exit(1). *)
Theorem interface_invariant mac ip cs :
  ∃ s, run cs (NetworkInterface_new mac ip) = Done s ∧
       (∀ I, (holds_pending s I ↔ has_queue s I) ∧
             (holds_resolved s I → ¬ has_queue s I)) ∧
       (∀ c, step c s ≠ Exited).
Proof.
  destruct (run_consistent cs _ (NetworkInterface_new_consistent mac ip))
    as (s & Hrun & Hcons).
  exists s. split; [done|]. split.
  - intros I. pose proof Hcons as (Hnd & _ & Hiff). split; [done|].
    intros (e & He & Hip & Hc) (q & Hq & Hqip).
    apply (consistent_no_queue s e Hcons He Hc q Hq). congruence.
  - intros c Hexit.
    destruct (step_consistent c s Hcons) as (s' & Hstep & _). congruence.
Qed.

End ReceiveClaims.

(** ** The prefix mask *)

Lemma prefix_mask_testbit n i :
  0 <= n <= 32 →
  Z.testbit (prefix_mask n) i = (32 - n <=? i) && (i <? 32).
Proof.
  intros Hn. unfold prefix_mask.
  destruct (Z.lt_ge_cases i 0) as [Hneg | Hpos].
  - rewrite Z.testbit_neg_r by done.
    destruct (Z.leb_spec (32 - n) i); [lia | done].
  - rewrite Z.shiftl_spec by done.
    rewrite Z.testbit_ones by lia.
    destruct (Z.leb_spec 0 (i - (32 - n))), (Z.ltb_spec (i - (32 - n)) n),
             (Z.leb_spec (32 - n) i), (Z.ltb_spec i 32); simpl; lia || done.
Qed.

Lemma prefix_mask_0 : prefix_mask 0 = 0.
Proof. reflexivity. Qed.

(* The mask computed by isPrefixMatch is the mask of the specification. *)
Lemma shifted_mask n :
  1 <= n <= 31 →
  Z.shiftl 0xFFFFFFFF (32 - n) mod 2 ^ 32 = prefix_mask n.
Proof.
  intros Hn. apply Z.bits_inj'. intros i Hi.
  rewrite prefix_mask_testbit by lia.
  rewrite Z.testbit_mod_pow2 by lia.
  rewrite Z.shiftl_spec by done.
  change 0xFFFFFFFF with (Z.ones 32).
  rewrite Z.testbit_ones by lia.
  destruct (Z.leb_spec 0 (i - (32 - n))), (Z.ltb_spec (i - (32 - n)) 32),
           (Z.leb_spec (32 - n) i), (Z.ltb_spec i 32); simpl; lia || done.
Qed.

Lemma isPrefixMatch_matches dst e :
  valid_route e → entry_matches dst e = matches dst e.
Proof.
  unfold valid_route, entry_matches, matches, isPrefixMatch. intros Hn.
  destruct (Z.eqb_spec (RoutingTableEntry.prefix_length e) 0) as [-> | H0].
  - rewrite prefix_mask_0, !Z.land_0_r. done.
  - destruct (Z.eqb_spec (RoutingTableEntry.prefix_length e) 32) as [-> | H32].
    + done.
    + by rewrite shifted_mask by lia.
Qed.



(** ** The scan of the routing table *)

Lemma scan_step_cases dst acc e :
  (scan_step dst acc e = acc ∧
   (entry_matches dst e = true →
    RoutingTableEntry.prefix_length e <= fst acc)) ∨
  (entry_matches dst e = true ∧
   fst acc < RoutingTableEntry.prefix_length e ∧
   scan_step dst acc e = (RoutingTableEntry.prefix_length e, e)).
Proof.
  unfold scan_step, entry_matches.
  destruct (isPrefixMatch _ _ _); [|by left].
  destruct (Z.gtb_spec (RoutingTableEntry.prefix_length e) (fst acc)).
  - right. repeat split; lia || done.
  - left. split; [done | lia].
Qed.

(* The result of the scan started from [acc]: either no entry replaced
   [acc], or the result is the first of the matching entries whose prefix
   length is the greatest. *)
Lemma scan_fold dst tbl acc :
  (fold_left (scan_step dst) tbl acc = acc ∧
   ∀ e, e ∈ tbl → entry_matches dst e = true →
        RoutingTableEntry.prefix_length e <= fst acc) ∨
  (∃ j E,
     tbl !! j = Some E ∧
     entry_matches dst E = true ∧
     fold_left (scan_step dst) tbl acc = (RoutingTableEntry.prefix_length E, E) ∧
     fst acc < RoutingTableEntry.prefix_length E ∧
     (∀ e, e ∈ tbl → entry_matches dst e = true →
           RoutingTableEntry.prefix_length e
           <= RoutingTableEntry.prefix_length E) ∧
     (∀ k e, (k < j)%nat → tbl !! k = Some e → entry_matches dst e = true →
             RoutingTableEntry.prefix_length e
             < RoutingTableEntry.prefix_length E)).
Proof.
  revert acc. induction tbl as [|e rest IH]; intros acc; simpl.
  { left. split; [done|]. intros e He. by apply elem_of_nil in He. }
  destruct (scan_step_cases dst acc e) as [[-> Hle] | (Hm & Hlt & ->)].
  - destruct (IH acc) as [[-> Hall] | (j & E & Hj & HmE & -> & Hlt & Hmax & Hfirst)].
    + left. split; [done|]. intros e' He' Hm'.
      apply elem_of_cons in He' as [-> | He']; [by apply Hle | by apply Hall].
    + right. exists (S j), E. repeat split; try done.
      * intros e' He' Hm'. apply elem_of_cons in He' as [-> | He'].
        -- specialize (Hle Hm'). lia.
        -- by apply Hmax.
      * intros [|k] e' Hk Hl Hm'; simpl in Hl.
        -- inversion Hl; subst e'. specialize (Hle Hm'). lia.
        -- apply (Hfirst k); [lia | done | done].
  - destruct (IH (RoutingTableEntry.prefix_length e, e))
      as [[-> Hall] | (j & E & Hj & HmE & -> & Hlt' & Hmax & Hfirst)];
      simpl in *.
    + right. exists 0%nat, e. repeat split; try done.
      * intros e' He' Hm'. apply elem_of_cons in He' as [-> | He'];
          [lia | by apply Hall].
      * intros k e' Hk. lia.
    + right. exists (S j), E. repeat split; try done; try lia.
      * intros e' He' Hm'. apply elem_of_cons in He' as [-> | He'].
        -- lia.
        -- by apply Hmax.
      * intros [|k] e' Hk Hl Hm'; simpl in Hl.
        -- inversion Hl; subst e'. lia.
        -- apply (Hfirst k); [lia | done | done].
Qed.

(* The scan of route selected an entry. *)
Lemma scan_selected dst tbl L E :
  scan dst tbl = (L, E) → 0 <= L →
  ∃ j,
    tbl !! j = Some E ∧
    entry_matches dst E = true ∧
    L = RoutingTableEntry.prefix_length E ∧
    (∀ e, e ∈ tbl → entry_matches dst e = true →
          RoutingTableEntry.prefix_length e
          <= RoutingTableEntry.prefix_length E) ∧
    (∀ k e, (k < j)%nat → tbl !! k = Some e → entry_matches dst e = true →
            RoutingTableEntry.prefix_length e
            < RoutingTableEntry.prefix_length E).
Proof.
  unfold scan. intros Hscan HL.
  destruct (scan_fold dst tbl (-999, RoutingTableEntry.default))
    as [[Heq _] | (j & E' & Hj & Hm & Heq & _ & Hmax & Hfirst)].
  - rewrite Heq in Hscan. inversion Hscan. lia.
  - rewrite Heq in Hscan. inversion Hscan; subst. by exists j.
Qed.


(** ** route *)

Section RouteClaims.

Context `{Codec}.



(** C9. When the scan of route selects entry E, E stands at an index j of
    the routing table, it matches, no matching entry has a greater prefix
    length, and every matching entry at a lower index has a strictly smaller
    prefix length: among the matching entries of greatest prefix length the
    one inserted first is selected. Each step of the scan keeps the current
    candidate unless the entry matches with a strictly greater prefix
    length. *)
Theorem route_tie_break (dst : Z) (tbl : list RoutingTableEntry.t) L E :
  scan dst tbl = (L, E) →
  0 <= L →
  (∃ j : nat,
     tbl !! j = Some E ∧
     entry_matches dst E = true ∧
     L = RoutingTableEntry.prefix_length E ∧
     (∀ e, e ∈ tbl → entry_matches dst e = true →
           RoutingTableEntry.prefix_length e
           <= RoutingTableEntry.prefix_length E) ∧
     (∀ (k : nat) e, (k < j)%nat → tbl !! k = Some e →
             entry_matches dst e = true →
             RoutingTableEntry.prefix_length e
             < RoutingTableEntry.prefix_length E))
  ∧ (∀ acc e,
       scan_step dst acc e = acc ∨
       (entry_matches dst e = true ∧
        fst acc < RoutingTableEntry.prefix_length e ∧
        scan_step dst acc e = (RoutingTableEntry.prefix_length e, e))).
Proof.
  intros Hscan HL. split; [by apply scan_selected|].
  intros acc e. destruct (scan_step_cases dst acc e) as [[Heq _] | Hnew].
  - by left.
  - by right.
Qed.

End RouteClaims.

(** ** The loop of route over one interface *)

Section RouteLoop.

Context `{Codec}.

(* Forwarding writes neither a queue of received datagrams nor the routing
   table. *)
Lemma interface_send_datagram_inboxes n dgram next_hop r r' :
  interface_send_datagram n dgram next_hop r = Done r' →
  inboxes r' = inboxes r ∧ RoutingTable r' = RoutingTable r.
Proof.
  unfold interface_send_datagram, inboxes.
  destruct (interfaces_ r !! n) as [a|] eqn:Ha; [|done].
  destruct (send_datagram dgram next_hop (AsyncNetworkInterface.base a))
    as [s| |]; simpl; [|done|done].
  intros [= <-]. simpl. split; [|done].
  rewrite list_fmap_insert. simpl.
  apply list_insert_id. by rewrite list_lookup_fmap, Ha.
Qed.

Lemma route_datagram_inboxes datagram r r' :
  route_datagram datagram r = Done r' →
  inboxes r' = inboxes r ∧ RoutingTable r' = RoutingTable r.
Proof.
  unfold route_datagram.
  destruct (scan _ _) as [L E].
  destruct (L >=? 0); [|by intros [= <-]].
  destruct (_ >? 1); [|by intros [= <-]].
  destruct (RoutingTableEntry.next_hop E);
    apply interface_send_datagram_inboxes.
Qed.

(* [route_while] started on the content of the queue of interface [i]
   ends with this queue empty: the loop of the source, which pops the
   queue until maybe_receive returns nothing, visits exactly these
   datagrams. *)
Lemma route_while_drains i inbox r r' a :
  interfaces_ r !! i = Some a →
  AsyncNetworkInterface.datagrams_in_ a = inbox →
  route_while i inbox r = Done r' →
  ∃ a', interfaces_ r' !! i = Some a' ∧
        AsyncNetworkInterface.datagrams_in_ a' = [].
Proof.
  revert r a. induction inbox as [|d rest IH]; intros r a Ha Hin; simpl.
  - intros [= <-]. by exists a.
  - rewrite Ha.
    destruct (route_datagram d _) as [r1| |] eqn:Hroute; simpl; [|done|done].
    apply route_datagram_inboxes in Hroute as [Hboxes _].
    assert (Hi : inboxes r1 !! i = Some rest).
    { rewrite Hboxes. unfold inboxes. simpl.
      rewrite list_lookup_fmap, list_lookup_insert_eq; [done|].
      by eapply lookup_lt_Some. }
    unfold inboxes in Hi. rewrite list_lookup_fmap in Hi.
    destruct (interfaces_ r1 !! i) as [a1|] eqn:Ha1; [|done].
    simpl in Hi. injection Hi as Hrest.
    by apply (IH r1 a1).
Qed.

End RouteLoop.

(** ** tick with an interval that fits an [int] *)

Lemma static_cast_int_id x :
  - 2 ^ 31 <= x < 2 ^ 31 → static_cast_int x = x.
Proof. intros Hx. unfold static_cast_int. rewrite Z.mod_small; lia. Qed.

Lemma static_cast_int_range x : - 2 ^ 31 <= static_cast_int x < 2 ^ 31.
Proof.
  unfold static_cast_int.
  pose proof (Z.mod_pos_bound (x + 2 ^ 31) (2 ^ 32)). lia.
Qed.

Section TickRange.

Context `{Codec}.

Lemma send_datagram_ttl dgram next_hop s s' :
  consistent s → ttl_in_range s →
  send_datagram dgram next_hop s = Done s' → ttl_in_range s'.
Proof.
  intros Hcons Hrange Hsend.
  destruct (arp_cases s (ipv4_numeric next_hop)) as [Habs | (e & He & Hip)].
  - rewrite (send_datagram_absent_state _ _ _ Hcons Habs) in Hsend.
    inversion Hsend; subst s'. intros e He. simpl in He.
    apply elem_of_app in He as [He | He]; [by apply Hrange|].
    apply list_elem_of_singleton in He. subst e. simpl. lia.
  - destruct (ARPTableEntry.complete_entry e) eqn:Hc.
    + rewrite (send_datagram_resolved_state _ _ _ e) in Hsend; try done;
        [|by destruct Hcons].
      by inversion Hsend; subst s'.
    + destruct (send_datagram_pending_state dgram next_hop s Hcons)
        as (k & q & _ & _ & Heq); [by exists e|].
      rewrite Heq in Hsend. by inversion Hsend; subst s'.
Qed.

Lemma recv_arp_learn_ttl arp s s' :
  consistent s → ttl_in_range s →
  recv_arp_learn arp s = Done s' → ttl_in_range s'.
Proof.
  intros Hcons Hrange Hlearn.
  destruct (arp_cases s (ARPMessage.sender_ip_address arp))
    as [Habs | (e & He & Hip)].
  - rewrite (recv_arp_learn_absent_state _ _ Hcons Habs) in Hlearn.
    inversion Hlearn; subst s'. intros e He. simpl in He.
    apply elem_of_app in He as [He | He]; [by apply Hrange|].
    apply list_elem_of_singleton in He. subst e. simpl. lia.
  - destruct (ARPTableEntry.complete_entry e) eqn:Hc.
    + destruct (recv_arp_learn_resolved_state arp s e) as (n & Hn & Heq);
        try done.
      rewrite Heq in Hlearn. inversion Hlearn; subst s'.
      destruct (lookup_split _ _ _ Hn) as (l1 & l2 & Htbl & Hins & _).
      intros e' He'. simpl in He'. rewrite Hins in He'.
      apply elem_of_app in He' as [He' | He'].
      * apply Hrange. rewrite Htbl. apply elem_of_app. by left.
      * apply elem_of_cons in He' as [-> | He']; [simpl; lia|].
        apply Hrange. rewrite Htbl. apply elem_of_app. right. by right.
    + destruct (recv_arp_learn_pending_state arp s e)
        as (n & k & q & Hn & _ & _ & Heq); try done.
      rewrite Heq in Hlearn. inversion Hlearn; subst s'.
      destruct (lookup_split _ _ _ Hn) as (l1 & l2 & Htbl & Hins & _).
      intros e' He'. simpl in He'. rewrite Hins in He'.
      apply elem_of_app in He' as [He' | He'].
      * apply Hrange. rewrite Htbl. apply elem_of_app. by left.
      * apply elem_of_cons in He' as [-> | He']; [simpl; lia|].
        apply Hrange. rewrite Htbl. apply elem_of_app. right. by right.
Qed.

Lemma recv_frame_ttl frame s s' o :
  consistent s → ttl_in_range s →
  recv_frame frame s = Done (s', o) → ttl_in_range s'.
Proof.
  intros Hcons Hrange. unfold recv_frame.
  destruct (negb _); [by intros [= <- _]|].
  destruct (_ =? EthernetHeader.TYPE_IPv4).
  { destruct (parse_dgram _); by intros [= <- _]. }
  destruct (_ =? EthernetHeader.TYPE_ARP); [|by intros [= <- _]].
  destruct (parse_arp _) as [arp|]; [|by intros [= <- _]].
  destruct (recv_arp_learn arp s) as [s1| |] eqn:Hlearn; simpl; [|done|done].
  intros [= <- _].
  pose proof (recv_arp_learn_ttl _ _ _ Hcons Hrange Hlearn) as Hrange1.
  rewrite recv_arp_reply_spec. by destruct (reply_due s1 arp).
Qed.

Lemma tick_ttl ms s s' :
  consistent s → tick ms s = Done s' → ttl_in_range s'.
Proof.
  intros Hcons%consistent_coherent. unfold tick.
  rewrite tick_loop_closed;
    [| by destruct Hcons | by destruct Hcons as (_ & ? & _)
     | intros ip; by apply Hcons].
  simpl. intros [= <-]. intros e' He'. simpl in He'.
  apply elem_of_tick_kept in He' as (e & _ & -> & Hpos).
  split; [done|]. unfold aged. simpl. apply static_cast_int_range.
Qed.

Lemma run_ttl cs s s' :
  consistent s → ttl_in_range s → run cs s = Done s' → ttl_in_range s'.
Proof.
  revert s. induction cs as [|c cs IH]; intros s Hcons Hrange; simpl.
  - by intros [= <-].
  - destruct (step_consistent c s Hcons) as (s1 & Hstep & Hcons1).
    rewrite Hstep. simpl. apply IH; [done|].
    destruct c as [dgram next_hop | frame | ms |]; simpl in Hstep.
    + exact (send_datagram_ttl _ _ _ _ Hcons Hrange Hstep).
    + destruct (recv_frame frame s) as [[s2 o]| |] eqn:Hrecv; simpl in Hstep;
        [|done|done].
      inversion Hstep; subst s2.
      exact (recv_frame_ttl _ _ _ _ Hcons Hrange Hrecv).
    + exact (tick_ttl _ _ _ Hcons Hstep).
    + inversion Hstep; subst s1. unfold maybe_send.
      by destruct (ReadyToBeSentQueue s).
Qed.

Lemma aged_small ms e :
  - 2 ^ 31 <= ARPTableEntry.ttl e - ms < 2 ^ 31 →
  aged ms e = ARPTableEntry.set_ttl e (ARPTableEntry.ttl e - ms).
Proof. intros Hr. unfold aged. by rewrite static_cast_int_id. Qed.

Lemma expired_pending_ips_small ms tbl :
  (∀ e, e ∈ tbl → - 2 ^ 31 <= ARPTableEntry.ttl e - ms < 2 ^ 31) →
  expired_pending_ips ms tbl =
  arp_ips (filter (λ e, ARPTableEntry.ttl e - ms <= 0 ∧
                        ARPTableEntry.complete_entry e = false) tbl).
Proof.
  induction tbl as [|e rest IH]; intros Hr; [done|].
  rewrite expired_pending_ips_cons, filter_cons.
  rewrite IH by (intros x Hx; apply Hr; by right).
  rewrite aged_small by (apply Hr; left). simpl.
  destruct (Z.leb_spec (ARPTableEntry.ttl e - ms) 0);
    destruct (ARPTableEntry.complete_entry e); simpl;
    case_decide as Hd; try done;
    first [ destruct Hd; first [lia | congruence]
          | destruct Hd; split; first [lia | done] ].
Qed.

(* For an interval below 2^31 ms, tick in a reached state subtracts the
   interval from every TTL, keeps the entries whose TTL stays positive (in
   their order), erases the queues of the removed Pending entries, and
   leaves the other queues and the TX queue as they are. *)
Lemma tick_small_interval mac ip cs s ms :
  run cs (NetworkInterface_new mac ip) = Done s →
  0 <= ms < 2 ^ 31 →
  tick ms s =
  Done (mkNetworkInterface
          (ethernet_address_ s) (ip_address_ s)
          (filter (λ e, 0 < ARPTableEntry.ttl e)
                  ((λ e, ARPTableEntry.set_ttl e (ARPTableEntry.ttl e - ms))
                     <$> ARPTable s))
          (ReadyToBeSentQueue s)
          (filter (λ q, IPQueue.ip_address q ∉
                        arp_ips (filter (λ e, ARPTableEntry.ttl e - ms <= 0 ∧
                                          ARPTableEntry.complete_entry e = false)
                                        (ARPTable s)))
                  (IPQueues s))).
Proof.
  intros Hrun Hms.
  pose proof (reachable_consistent _ _ _ _ Hrun) as Hcons.
  assert (Hrange : ttl_in_range s).
  { eapply run_ttl; [apply NetworkInterface_new_consistent | | exact Hrun].
    intros e He. by apply elem_of_nil in He. }
  assert (Hsmall : ∀ e, e ∈ ARPTable s →
                        - 2 ^ 31 <= ARPTableEntry.ttl e - ms < 2 ^ 31).
  { intros e He. specialize (Hrange e He). lia. }
  apply consistent_coherent in Hcons.
  unfold tick. rewrite static_cast_int_id by lia.
  rewrite tick_loop_closed;
    [| by destruct Hcons | by destruct Hcons as (_ & ? & _)
     | intros x; by apply Hcons].
  simpl. unfold tick_kept, tick_queues.
  rewrite expired_pending_ips_small by done.
  rewrite (list_fmap_ext (aged ms)
             (λ e, ARPTableEntry.set_ttl e (ARPTableEntry.ttl e - ms))); [done|].
  intros i e Hi. apply aged_small, Hsmall. by eapply list_elem_of_lookup_2.
Qed.

End TickRange.

(** ** route and the datagram it takes first *)

Section RouteFirst.

Context `{Codec}.









End RouteFirst.

(** * The statements on examples *)

Lemma send_datagram_cases_witness :
  run [call_send_datagram dgram_a addr_peer] example_interface
  = Done waiting_interface ∧
  holds_pending waiting_interface (ipv4_numeric addr_peer) ∧
  ∃ n q,
    IPQueues waiting_interface !! n = Some q ∧
    send_datagram dgram_b addr_peer waiting_interface =
    Done (mkNetworkInterface
            mac_own addr_own
            (ARPTable waiting_interface)
            (ReadyToBeSentQueue waiting_interface)
            (<[n := IPQueue.mk (ipv4_numeric addr_peer)
                               (IPQueue.datagrams q ++ [dgram_b])]>
               (IPQueues waiting_interface))).
Proof.
  assert (Hrun : run [call_send_datagram dgram_a addr_peer]
                     (NetworkInterface_new mac_own addr_own)
                 = Done waiting_interface) by reflexivity.
  assert (Hpend : holds_pending waiting_interface (ipv4_numeric addr_peer)).
  { exists (ARPTableEntry.mk false (ip4 10 0 0 2) ETHERNET_ZERO 5000).
    split; [left | split; reflexivity]. }
  split; [exact Hrun|]. split; [exact Hpend|].
  destruct (send_datagram_cases mac_own addr_own _ _ dgram_b addr_peer Hrun)
    as (_ & Hcase & _).
  destruct (Hcase Hpend) as (n & q & Hn & _ & _ & Hsend).
  exists n, q. split; [exact Hn | exact Hsend].
Defined.

(** C2 as stated fails on this input: with 10.0.0.2 Resolved to the MAC of
    the peer, the accepted ARP reply of another station with sender pair
    (02:00:00:00:00:aa, 10.0.0.2) leaves the state as it is, so the entry
    for 10.0.0.2 still holds the MAC of the peer, not the sender MAC of the
    message. *)
Lemma recv_frame_keeps_mac_counterexample :
  run [call_recv_frame peer_reply] example_interface
  = Done resolved_interface ∧
  accepts resolved_interface other_reply ∧
  EthernetHeader.type (EthernetFrame.header other_reply)
  = EthernetHeader.TYPE_ARP ∧
  (∃ arp, parse_arp (EthernetFrame.payload other_reply) = Some arp ∧
          ARPMessage.sender_ethernet_address arp = mac_other ∧
          ARPMessage.sender_ip_address arp = ip4 10 0 0 2) ∧
  recv_frame other_reply resolved_interface = Done (resolved_interface, None) ∧
  ARPTable resolved_interface
  = [ARPTableEntry.mk true (ip4 10 0 0 2) mac_peer 30000] ∧
  mac_peer ≠ mac_other.
Proof.
  split; [reflexivity|]. split; [left; reflexivity|]. split; [reflexivity|].
  split.
  { eexists. split; [reflexivity|]. split; reflexivity. }
  split; [reflexivity|]. split; [reflexivity|]. discriminate.
Qed.

Lemma recv_frame_arp_learns_witness :
  run [call_send_datagram dgram_a addr_peer] example_interface
  = Done waiting_interface ∧
  accepts waiting_interface peer_reply ∧
  ∃ s' e,
    recv_frame peer_reply waiting_interface = Done (s', None) ∧
    filter (λ x, ARPTableEntry.ip_address x = ip4 10 0 0 2) (ARPTable s')
    = [e] ∧
    ARPTableEntry.complete_entry e = true ∧
    ARPTableEntry.ttl e = 30000 ∧
    ARPTableEntry.mac_address e = mac_peer.
Proof.
  assert (Hrun : run [call_send_datagram dgram_a addr_peer]
                     (NetworkInterface_new mac_own addr_own)
                 = Done waiting_interface) by reflexivity.
  assert (Hacc : accepts waiting_interface peer_reply) by (left; reflexivity).
  split; [exact Hrun|]. split; [exact Hacc|].
  destruct (recv_frame_arp_learns mac_own addr_own _ _ peer_reply
              (makeArp ARPMessage.OPCODE_REPLY mac_peer (ip4 10 0 0 2)
                       mac_own (ip4 10 0 0 1))
              Hrun Hacc eq_refl eq_refl)
    as (s' & e & Hrecv & Hone & Hc & Httl & Hmac & _).
  exists s', e. split; [exact Hrecv|]. split; [exact Hone|].
  split; [exact Hc|]. split; [exact Httl|].
  apply Hmac. right.
  exists (ARPTableEntry.mk false (ip4 10 0 0 2) ETHERNET_ZERO 5000).
  split; [left | split; reflexivity].
Defined.

Lemma recv_frame_drains_queue_witness :
  run [call_send_datagram dgram_a addr_peer;
       call_send_datagram dgram_b addr_peer] example_interface
  = Done waiting_two_interface ∧
  accepts waiting_two_interface peer_request ∧
  ∃ k q s',
    IPQueues waiting_two_interface !! k = Some q ∧
    recv_frame peer_request waiting_two_interface = Done (s', None) ∧
    ReadyToBeSentQueue s' =
      ReadyToBeSentQueue waiting_two_interface ++
      (ipv4_frame waiting_two_interface mac_peer <$> IPQueue.datagrams q) ++
      [reply_frame waiting_two_interface
         (makeArp ARPMessage.OPCODE_REQUEST mac_peer (ip4 10 0 0 2)
                  ETHERNET_ZERO (ip4 10 0 0 1))].
Proof.
  assert (Hrun : run [call_send_datagram dgram_a addr_peer;
                      call_send_datagram dgram_b addr_peer]
                     (NetworkInterface_new mac_own addr_own)
                 = Done waiting_two_interface) by reflexivity.
  assert (Hacc : accepts waiting_two_interface peer_request)
    by (right; reflexivity).
  split; [exact Hrun|]. split; [exact Hacc|].
  destruct (recv_frame_drains_queue mac_own addr_own _ _ peer_request
              (makeArp ARPMessage.OPCODE_REQUEST mac_peer (ip4 10 0 0 2)
                       ETHERNET_ZERO (ip4 10 0 0 1))
              Hrun Hacc eq_refl eq_refl)
    as (k & q & s' & Hk & _ & _ & Hrecv & Htx & _).
  { exists (ARPTableEntry.mk false (ip4 10 0 0 2) ETHERNET_ZERO 5000).
    split; [left | split; reflexivity]. }
  exists k, q, s'. split; [exact Hk|]. split; [exact Hrecv | exact Htx].
Defined.

Lemma recv_frame_arp_reply_witness :
  run [] example_interface = Done example_interface ∧
  EthernetHeader.type (EthernetFrame.header peer_request)
  = EthernetHeader.TYPE_ARP ∧
  ∃ s', recv_frame peer_request example_interface = Done (s', None).
Proof.
  split; [reflexivity|]. split; [reflexivity|].
  exact (proj1 (recv_frame_arp_reply mac_own addr_own [] example_interface
                  peer_request eq_refl eq_refl)).
Defined.

Lemma recv_frame_resolved_refresh_witness :
  run [call_recv_frame peer_reply] example_interface
  = Done resolved_interface ∧
  accepts resolved_interface other_reply ∧
  ∃ n,
    recv_frame other_reply resolved_interface =
    Done (mkNetworkInterface
            mac_own addr_own
            (<[n := ARPTableEntry.mk true (ip4 10 0 0 2) mac_peer 30000]>
               (ARPTable resolved_interface))
            [] [],
          None).
Proof.
  assert (Hrun : run [call_recv_frame peer_reply]
                     (NetworkInterface_new mac_own addr_own)
                 = Done resolved_interface) by reflexivity.
  assert (Hacc : accepts resolved_interface other_reply)
    by (left; reflexivity).
  split; [exact Hrun|]. split; [exact Hacc|].
  destruct (recv_frame_resolved_refresh mac_own addr_own _ _ other_reply
              (makeArp ARPMessage.OPCODE_REPLY mac_other (ip4 10 0 0 2)
                       mac_own (ip4 10 0 0 1))
              (ARPTableEntry.mk true (ip4 10 0 0 2) mac_peer 30000)
              Hrun Hacc eq_refl eq_refl)
    as (n & _ & Hrecv); [left | reflexivity | reflexivity |].
  exists n. exact Hrecv.
Defined.

(** C6, at the interval 4294967295 = 2^32 - 1 (and at 2^32): the interval is
    converted to [int] before the subtraction, so the Pending entry, whose
    TTL is 5000, is not removed; its TTL becomes 5001 (stays 5000), and its
    queue stays. *)
Theorem tick_converts_interval :
  run [call_send_datagram dgram_a addr_peer] example_interface
  = Done waiting_interface ∧
  static_cast_int 4294967295 = -1 ∧
  tick 4294967295 waiting_interface =
  Done (mkNetworkInterface mac_own addr_own
          [ARPTableEntry.mk false (ip4 10 0 0 2) ETHERNET_ZERO 5001]
          (ReadyToBeSentQueue waiting_interface)
          [IPQueue.mk (ip4 10 0 0 2) [dgram_a]]) ∧
  tick 4294967296 waiting_interface = Done waiting_interface.
Proof. repeat split; reflexivity. Qed.



Lemma route_tie_break_witness :
  scan (ip4 10 1 2 3) tie_table = (16, route_via) ∧
  ∃ j : nat,
    tie_table !! j = Some route_via ∧
    (∀ e, e ∈ tie_table → entry_matches (ip4 10 1 2 3) e = true →
          RoutingTableEntry.prefix_length e
          <= RoutingTableEntry.prefix_length route_via).
Proof.
  split; [reflexivity|].
  destruct (proj1 (route_tie_break (ip4 10 1 2 3) tie_table 16 route_via
                     eq_refl ltac:(lia)))
    as (j & Hj & _ & _ & Hmax & _).
  exists j. split; [exact Hj | exact Hmax].
Defined.

(** * Further properties of the code *)

(** ** The two lookups *)

(** X1. isEntryInARPTable(ip) scans the ARP table from the front: it returns
    index -1 and found 0 exactly when no entry has this IP, and otherwise
    the index of the first entry with this IP, with found 2 when that entry
    is complete and found 1 when it is not. This holds in every state, also
    with several entries for one IP. *)
Theorem isEntryInARPTable_result s ip :
  (absent s ip ∧ isEntryInARPTable s ip = (-1, 0)) ∨
  (∃ (n : nat) e,
     ARPTable s !! n = Some e ∧
     ARPTableEntry.ip_address e = ip ∧
     (∀ (k : nat) e', (k < n)%nat → ARPTable s !! k = Some e' →
                      ARPTableEntry.ip_address e' ≠ ip) ∧
     isEntryInARPTable s ip =
     (Z.of_nat n, if ARPTableEntry.complete_entry e then 2 else 1)).
Proof.
  unfold isEntryInARPTable.
  destruct (isEntryInARPTable_from_spec (ARPTable s) ip)
    as [Hnone | n e Hn Hip Hfirst].
  - by left.
  - right. by exists n, e.
Qed.

(** X2. isEntryInIPQueues(ip) returns index -1 and found 0 exactly when no
    IP queue has this IP, and otherwise found 1 and the index of the first
    queue with this IP. *)
Theorem isEntryInIPQueues_result s ip :
  ((∀ q, q ∈ IPQueues s → IPQueue.ip_address q ≠ ip) ∧
   isEntryInIPQueues s ip = (-1, 0)) ∨
  (∃ (n : nat) q,
     IPQueues s !! n = Some q ∧
     IPQueue.ip_address q = ip ∧
     (∀ (k : nat) q', (k < n)%nat → IPQueues s !! k = Some q' →
                      IPQueue.ip_address q' ≠ ip) ∧
     isEntryInIPQueues s ip = (Z.of_nat n, 1)).
Proof.
  unfold isEntryInIPQueues.
  destruct (isEntryInIPQueues_from_spec (IPQueues s) ip)
    as [Hnone | n q Hn Hip Hfirst].
  - by left.
  - right. by exists n, q.
Qed.

(** ** recv_frame on frames that are not ARP messages for this interface *)

Section OtherFrames.

Context `{Codec}.

Lemma not_accepts_filter s frame :
  ¬ accepts s frame →
  bool_decide (EthernetHeader.dst (EthernetFrame.header frame)
               = ethernet_address_ s)
  || bool_decide (EthernetHeader.dst (EthernetFrame.header frame)
                  = ETHERNET_BROADCAST) = false.
Proof.
  intros Hnot. apply orb_false_iff.
  split; apply bool_decide_eq_false_2; intros Heq; apply Hnot;
    [by left | by right].
Qed.

Lemma accepts_filter s frame :
  accepts s frame →
  bool_decide (EthernetHeader.dst (EthernetFrame.header frame)
               = ethernet_address_ s)
  || bool_decide (EthernetHeader.dst (EthernetFrame.header frame)
                  = ETHERNET_BROADCAST) = true.
Proof.
  intros Hacc. apply orb_true_iff.
  destruct Hacc as [Hd | Hd]; [left | right]; by apply bool_decide_eq_true_2.
Qed.

(** X3. In every state of the interface: a frame whose destination is
    neither the own MAC nor the broadcast address is dropped (None, state
    unchanged); an accepted TYPE_IPv4 frame returns the parsed datagram, or
    None when the parse fails, and leaves the state unchanged; an accepted
    frame of any other type than TYPE_IPv4 and TYPE_ARP, and an accepted
    TYPE_ARP frame whose payload does not parse, return None and leave the
    state unchanged. *)
Theorem recv_frame_without_learning frame s :
  (¬ accepts s frame → recv_frame frame s = Done (s, None))
  ∧ (accepts s frame →
     EthernetHeader.type (EthernetFrame.header frame)
     = EthernetHeader.TYPE_IPv4 →
     recv_frame frame s = Done (s, parse_dgram (EthernetFrame.payload frame)))
  ∧ (accepts s frame →
     EthernetHeader.type (EthernetFrame.header frame)
     ≠ EthernetHeader.TYPE_IPv4 →
     EthernetHeader.type (EthernetFrame.header frame)
     ≠ EthernetHeader.TYPE_ARP →
     recv_frame frame s = Done (s, None))
  ∧ (accepts s frame →
     EthernetHeader.type (EthernetFrame.header frame)
     = EthernetHeader.TYPE_ARP →
     parse_arp (EthernetFrame.payload frame) = None →
     recv_frame frame s = Done (s, None)).
Proof.
  unfold recv_frame. repeat split.
  - intros Hnot. by rewrite not_accepts_filter.
  - intros Hacc Htype. rewrite accepts_filter, Htype by done. simpl.
    by destruct (parse_dgram _).
  - intros Hacc H4 H6. rewrite accepts_filter by done. simpl.
    destruct (Z.eqb_spec (EthernetHeader.type (EthernetFrame.header frame))
                         EthernetHeader.TYPE_IPv4); [done|].
    by destruct (Z.eqb_spec (EthernetHeader.type (EthernetFrame.header frame))
                            EthernetHeader.TYPE_ARP).
  - intros Hacc Htype Hparse. rewrite accepts_filter, Htype, Hparse by done.
    done.
Qed.

End OtherFrames.

(** ** maybe_send *)

Lemma set_ReadyToBeSentQueue_same s :
  set_ReadyToBeSentQueue s (ReadyToBeSentQueue s) = s.
Proof. by destruct s. Qed.

(** X4. The TX queue is first in, first out: when maybe_send is called at
    least as many times as the queue has frames, the calls return exactly
    the frames of the queue, in the order of the queue (the further calls
    return nothing), and leave the queue empty and the rest of the
    interface unchanged. *)
Theorem maybe_send_times_drains (n : nat) s :
  (length (ReadyToBeSentQueue s) ≤ n)%nat →
  maybe_send_times n s =
  (ReadyToBeSentQueue s, set_ReadyToBeSentQueue s []).
Proof.
  revert s. induction n as [|n IH]; intros s Hlen.
  - destruct (ReadyToBeSentQueue s) as [|f rest] eqn:Htx; simpl in Hlen;
      [|lia].
    simpl. by rewrite <- Htx, set_ReadyToBeSentQueue_same.
  - simpl. unfold maybe_send.
    destruct (ReadyToBeSentQueue s) as [|f rest] eqn:Htx.
    + rewrite IH by (rewrite Htx; simpl; lia). by rewrite Htx.
    + rewrite IH by (simpl in *; lia). done.
Qed.

(** ** What a call can do to the cache, and the invariants that follow *)

Section CacheEffects.

Context `{Codec}.

Lemma send_datagram_effect dgram next_hop s s' :
  consistent s →
  send_datagram dgram next_hop s = Done s' →
  table_effect (call_send_datagram dgram next_hop)
    (ARPTable s, IPQueues s) (ARPTable s', IPQueues s').
Proof.
  intros Hcons Hsend.
  destruct (arp_cases s (ipv4_numeric next_hop)) as [Habs | (e & He & Hip)].
  - rewrite (send_datagram_absent_state _ _ _ Hcons Habs) in Hsend.
    injection Hsend as <-. simpl. constructor.
  - destruct (ARPTableEntry.complete_entry e) eqn:Hc.
    + rewrite (send_datagram_resolved_state _ _ _ e) in Hsend; try done;
        [|by destruct Hcons].
      injection Hsend as <-. simpl. constructor.
    + destruct (send_datagram_pending_state dgram next_hop s Hcons)
        as (k & q & Hk & _ & Heq); [by exists e|].
      rewrite Heq in Hsend. injection Hsend as <-. simpl. by constructor.
Qed.

Lemma recv_arp_learn_effect c arp s s' :
  consistent s →
  recv_arp_learn arp s = Done s' →
  table_effect c (ARPTable s, IPQueues s) (ARPTable s', IPQueues s').
Proof.
  intros Hcons Hlearn.
  destruct (arp_cases s (ARPMessage.sender_ip_address arp))
    as [Habs | (e & He & Hip)].
  - rewrite (recv_arp_learn_absent_state _ _ Hcons Habs) in Hlearn.
    injection Hlearn as <-. simpl. constructor.
  - destruct (ARPTableEntry.complete_entry e) eqn:Hc.
    + destruct (recv_arp_learn_resolved_state arp s e) as (n & Hn & Heq);
        try done.
      rewrite Heq in Hlearn. injection Hlearn as <-. simpl.
      unfold ARPTableEntry.set_ttl. rewrite Hc. by constructor.
    + destruct (recv_arp_learn_pending_state arp s e)
        as (n & k & q & Hn & _ & _ & Heq); try done.
      rewrite Heq in Hlearn. injection Hlearn as <-. simpl.
      rewrite <- Hip. by constructor.
Qed.

Lemma recv_frame_effect frame s s' o :
  consistent s →
  recv_frame frame s = Done (s', o) →
  table_effect (call_recv_frame frame)
    (ARPTable s, IPQueues s) (ARPTable s', IPQueues s').
Proof.
  intros Hcons. unfold recv_frame.
  destruct (negb _); [intros [= <- _]; constructor|].
  destruct (_ =? EthernetHeader.TYPE_IPv4).
  { destruct (parse_dgram _); intros [= <- _]; constructor. }
  destruct (_ =? EthernetHeader.TYPE_ARP); [|intros [= <- _]; constructor].
  destruct (parse_arp _) as [arp|]; [|intros [= <- _]; constructor].
  destruct (recv_arp_learn arp s) as [s1| |] eqn:Hlearn; simpl; [|done|done].
  intros [= <- _].
  rewrite recv_arp_reply_spec.
  assert (Heff := recv_arp_learn_effect (call_recv_frame frame) _ _ _
                    Hcons Hlearn).
  by destruct (reply_due s1 arp).
Qed.

Lemma tick_effect ms s s' :
  consistent s →
  tick ms s = Done s' →
  table_effect (call_tick ms)
    (ARPTable s, IPQueues s) (ARPTable s', IPQueues s').
Proof.
  intros Hcons%consistent_coherent. unfold tick.
  rewrite tick_loop_closed;
    [| by destruct Hcons | by destruct Hcons as (_ & ? & _)
     | intros ip; by apply Hcons].
  simpl. intros [= <-]. simpl. by constructor.
Qed.

(* Each call changes the ARP table and the IP queues in one of seven ways. *)
Lemma step_effect c s s' :
  consistent s →
  step c s = Done s' →
  table_effect c (ARPTable s, IPQueues s) (ARPTable s', IPQueues s').
Proof.
  intros Hcons Hstep.
  destruct c as [dgram next_hop | frame | ms |]; simpl in Hstep.
  - by apply send_datagram_effect.
  - destruct (recv_frame frame s) as [[s1 o]| |] eqn:Hrecv; simpl in Hstep;
      [|done|done].
    injection Hstep as <-. by eapply recv_frame_effect.
  - by apply tick_effect.
  - injection Hstep as <-. unfold maybe_send.
    destruct (ReadyToBeSentQueue s); constructor.
Qed.

(* A property of the state that every allowed call keeps holds in every
   state reached by allowed calls. *)
Lemma run_invariant (allowed : call → Prop) (I : NetworkInterface → Prop)
    mac ip cs s :
  I (NetworkInterface_new mac ip) →
  (∀ c s s', allowed c → consistent s → I s → step c s = Done s' → I s') →
  Forall allowed cs →
  run cs (NetworkInterface_new mac ip) = Done s →
  I s.
Proof.
  intros Hinit Hstep Hall.
  generalize (NetworkInterface_new_consistent mac ip), Hinit.
  generalize (NetworkInterface_new mac ip) as s0.
  induction Hall as [|c cs Hc Hall IH]; intros s0 Hcons HI; simpl.
  - by intros [= <-].
  - destruct (step_consistent c s0 Hcons) as (s1 & Hs1 & Hcons1).
    rewrite Hs1. simpl. apply IH; [done|].
    exact (Hstep c s0 s1 Hc Hcons HI Hs1).
Qed.

Lemma run_app cs1 cs2 s :
  run (cs1 ++ cs2) s = (s1 ← run cs1 s; run cs2 s1).
Proof.
  revert s. induction cs1 as [|c cs1 IH]; intros s; simpl; [done|].
  destruct (step c s) as [s1| |]; simpl; [apply IH | done | done].
Qed.

Lemma Forall_any_call cs : Forall (λ _ : call, True) cs.
Proof. by apply Forall_true. Qed.

(** X5. In every state reached from a new interface the ARP table holds at
    most one entry per IP and there is at most one IP queue per IP: two
    positions of the table (of the queues) with the same IP are the same
    position. *)
Theorem cache_keys_unique mac ip cs s :
  run cs (NetworkInterface_new mac ip) = Done s →
  (∀ (i j : nat) e1 e2,
     ARPTable s !! i = Some e1 → ARPTable s !! j = Some e2 →
     ARPTableEntry.ip_address e1 = ARPTableEntry.ip_address e2 → i = j)
  ∧ (∀ (i j : nat) q1 q2,
       IPQueues s !! i = Some q1 → IPQueues s !! j = Some q2 →
       IPQueue.ip_address q1 = IPQueue.ip_address q2 → i = j).
Proof.
  intros Hrun.
  destruct (reachable_consistent _ _ _ _ Hrun) as (Hnd & Hq & _).
  split.
  - intros i j e1 e2. by apply nodup_key_index.
  - intros i j q1 q2. by apply nodup_key_index.
Qed.

(** X6. In every state reached from a new interface every cache entry has a
    positive TTL (within the range of [int]): an entry whose TTL reached 0
    or less never outlives the tick call that made it so. *)
Theorem cache_ttl_positive mac ip cs s :
  run cs (NetworkInterface_new mac ip) = Done s →
  ∀ e, e ∈ ARPTable s → 0 < ARPTableEntry.ttl e < 2 ^ 31.
Proof.
  intros Hrun.
  apply (run_invariant (λ _, True) ttl_in_range mac ip cs s);
    [| | apply Forall_any_call | done].
  - intros e He. by apply elem_of_nil in He.
  - intros c s0 s1 _ Hcons Hrange Hstep.
    eapply (run_ttl [c] s0 s1); [done | done |].
    simpl. by rewrite Hstep.
Qed.

Lemma elem_of_insert_split {A} (l : list A) n x y z :
  l !! n = Some x → z ∈ <[n := y]> l → z = y ∨ z ∈ l.
Proof.
  intros Hn Hz.
  destruct (lookup_split _ _ _ Hn) as (l1 & l2 & -> & Hins & _).
  rewrite Hins in Hz. rewrite elem_of_app, elem_of_cons in *.
  tauto.
Qed.

Lemma ttl_bounded_effect c before after :
  table_effect c before after →
  small_tick c →
  (∀ e, e ∈ before.1 → 0 < ARPTableEntry.ttl e < 2 ^ 31) →
  (∀ e, e ∈ before.1 →
        ARPTableEntry.ttl e
        <= if ARPTableEntry.complete_entry e then 30000 else 5000) →
  ∀ e, e ∈ after.1 →
       ARPTableEntry.ttl e
       <= if ARPTableEntry.complete_entry e then 30000 else 5000.
Proof.
  intros Heff Hc Hrange Hbound.
  destruct Heff as [tbl qs | tbl qs k q d Hk | tbl qs p d
                   | tbl qs n e0 Hn Hc0 | tbl qs n e0 k m Hn Hc0
                   | tbl qs p m | tbl qs ms Hcall];
    simpl in *; intros e He.
  - by apply Hbound.
  - by apply Hbound.
  - apply elem_of_app in He as [He | He]; [by apply Hbound|].
    apply list_elem_of_singleton in He. by subst e.
  - destruct (elem_of_insert_split _ _ _ _ _ Hn He) as [-> | He'];
      [done | by apply Hbound].
  - destruct (elem_of_insert_split _ _ _ _ _ Hn He) as [-> | He'];
      [done | by apply Hbound].
  - apply elem_of_app in He as [He | He]; [by apply Hbound|].
    apply list_elem_of_singleton in He. by subst e.
  - subst c. simpl in Hc.
    apply elem_of_tick_kept in He as (e0 & He0 & -> & Hpos).
    specialize (Hbound e0 He0). specialize (Hrange e0 He0).
    rewrite static_cast_int_id in * by lia.
    rewrite aged_small in * by lia. simpl in *. lia.
Qed.

(** X7. When every tick interval of the sequence of calls is below 2^31 ms,
    no cache entry of the reached state has a TTL above the initial TTL of
    its kind: at most 5000 for a Pending entry and at most 30000 for a
    Resolved one. *)
Theorem cache_ttl_bounded mac ip cs s :
  Forall small_tick cs →
  run cs (NetworkInterface_new mac ip) = Done s →
  ∀ e, e ∈ ARPTable s →
       ARPTableEntry.ttl e
       <= if ARPTableEntry.complete_entry e then 30000 else 5000.
Proof.
  intros Hsmall Hrun.
  apply (run_invariant small_tick
           (λ s, ttl_in_range s ∧ ttl_bounded s) mac ip cs s);
    [| | done | done].
  - split; intros e He; by apply elem_of_nil in He.
  - intros c s0 s1 Hc Hcons [Hrange Hbound] Hstep. split.
    { eapply (run_ttl [c] s0 s1); [done | done |]. simpl. by rewrite Hstep. }
    pose proof (step_effect _ _ _ Hcons Hstep) as Heff.
    exact (ttl_bounded_effect _ _ _ Heff Hc Hrange Hbound).
Qed.

Lemma pending_shape_effect c before after :
  table_effect c before after →
  (∀ e, e ∈ before.1 → ARPTableEntry.complete_entry e = false →
        ARPTableEntry.mac_address e = ETHERNET_ZERO) →
  (∀ q, q ∈ before.2 → IPQueue.datagrams q ≠ []) →
  (∀ e, e ∈ after.1 → ARPTableEntry.complete_entry e = false →
        ARPTableEntry.mac_address e = ETHERNET_ZERO)
  ∧ (∀ q, q ∈ after.2 → IPQueue.datagrams q ≠ []).
Proof.
  intros Heff Hmac Hne.
  destruct Heff as [tbl qs | tbl qs k q d Hk | tbl qs p d
                   | tbl qs n e0 Hn Hc0 | tbl qs n e0 k m Hn Hc0
                   | tbl qs p m | tbl qs ms Hcall];
    simpl in *.
  - done.
  - split; [done|]. intros q' Hq'.
    destruct (elem_of_insert_split _ _ _ _ _ Hk Hq') as [-> | Hq''];
      [|by apply Hne].
    simpl. intros Heq. by apply app_nil_r_inv in Heq.
  - split.
    + intros e He. apply elem_of_app in He as [He | He]; [by apply Hmac|].
      apply list_elem_of_singleton in He. by subst e.
    + intros q Hq. apply elem_of_app in Hq as [Hq | Hq]; [by apply Hne|].
      apply list_elem_of_singleton in Hq. by subst q.
  - split; [|done]. intros e He.
    destruct (elem_of_insert_split _ _ _ _ _ Hn He) as [-> | He'];
      [done | by apply Hmac].
  - split.
    + intros e He.
      destruct (elem_of_insert_split _ _ _ _ _ Hn He) as [-> | He'];
        [done | by apply Hmac].
    + intros q Hq. apply Hne. by eapply list_elem_of_delete_inv.
  - split; [|done]. intros e He.
    apply elem_of_app in He as [He | He]; [by apply Hmac|].
    apply list_elem_of_singleton in He. by subst e.
  - split.
    + intros e He Hc.
      apply elem_of_tick_kept in He as (e0 & He0 & -> & _).
      by apply (Hmac e0).
    + intros q Hq. apply list_elem_of_filter in Hq as [_ Hq].
      by apply Hne.
Qed.

(** X8. In every state reached from a new interface, a Pending cache entry
    carries the zero MAC address, and every IP queue holds at least one
    datagram. *)
Theorem pending_entries_shape mac ip cs s :
  run cs (NetworkInterface_new mac ip) = Done s →
  (∀ e, e ∈ ARPTable s → ARPTableEntry.complete_entry e = false →
        ARPTableEntry.mac_address e = ETHERNET_ZERO)
  ∧ (∀ q, q ∈ IPQueues s → IPQueue.datagrams q ≠ []).
Proof.
  intros Hrun.
  apply (run_invariant (λ _, True)
           (λ s, (∀ e, e ∈ ARPTable s →
                       ARPTableEntry.complete_entry e = false →
                       ARPTableEntry.mac_address e = ETHERNET_ZERO)
                 ∧ (∀ q, q ∈ IPQueues s → IPQueue.datagrams q ≠ []))
           mac ip cs s);
    [| | apply Forall_any_call | done].
  - split; intros x Hx; by apply elem_of_nil in Hx.
  - intros c s0 s1 _ Hcons [Hmac Hne] Hstep.
    pose proof (step_effect _ _ _ Hcons Hstep) as Heff.
    exact (pending_shape_effect _ _ _ Heff Hmac Hne).
Qed.

End CacheEffects.

(** ** How tick composes *)

Lemma set_ttl_same e : ARPTableEntry.set_ttl e (ARPTableEntry.ttl e) = e.
Proof. by destruct e. Qed.

Lemma elem_of_expiring ms tbl ip :
  ip ∈ arp_ips (filter (λ e, ARPTableEntry.ttl e - ms <= 0 ∧
                             ARPTableEntry.complete_entry e = false) tbl) ↔
  ∃ e, e ∈ tbl ∧ ARPTableEntry.ip_address e = ip ∧
       ARPTableEntry.ttl e - ms <= 0 ∧
       ARPTableEntry.complete_entry e = false.
Proof.
  rewrite elem_of_arp_ips. split.
  - intros (e & He & Hip). apply list_elem_of_filter in He as [[Ht Hc] He].
    by exists e.
  - intros (e & He & Hip & Ht & Hc). exists e. split; [|done].
    by apply list_elem_of_filter.
Qed.

Lemma filter_iff_in {A} (P Q : A → Prop)
    `{∀ x, Decision (P x)} `{∀ x, Decision (Q x)} (l : list A) :
  (∀ x, x ∈ l → P x ↔ Q x) → filter P l = filter Q l.
Proof.
  induction l as [|a l IH]; intros Hiff; [done|].
  rewrite !filter_cons.
  rewrite IH by (intros x Hx; apply Hiff; by right).
  destruct (decide (P a)) as [Hp | Hp], (decide (Q a)) as [Hq | Hq];
    try done; exfalso; apply (Hiff a) in Hp || apply (Hiff a) in Hq;
    first [done | left].
Qed.

(* The entries kept by two successive subtractions are those kept by the
   subtraction of the sum. *)
Lemma kept_twice a b (tbl : list ARPTableEntry.t) :
  0 <= a → 0 <= b →
  filter (λ e, 0 < ARPTableEntry.ttl e)
    ((λ e, ARPTableEntry.set_ttl e (ARPTableEntry.ttl e - b)) <$>
       filter (λ e, 0 < ARPTableEntry.ttl e)
         ((λ e, ARPTableEntry.set_ttl e (ARPTableEntry.ttl e - a)) <$> tbl))
  = filter (λ e, 0 < ARPTableEntry.ttl e)
      ((λ e, ARPTableEntry.set_ttl e (ARPTableEntry.ttl e - (a + b))) <$> tbl).
Proof.
  intros Ha Hb. induction tbl as [|e rest IH]; [done|].
  rewrite !fmap_cons, !filter_cons. simpl.
  destruct (decide (0 < ARPTableEntry.ttl e - a)) as [Hpos | Hneg].
  - rewrite fmap_cons, filter_cons. simpl. rewrite IH.
    replace (ARPTableEntry.ttl e - a - b)
      with (ARPTableEntry.ttl e - (a + b)) by lia.
    done.
  - rewrite IH. destruct (decide (0 < ARPTableEntry.ttl e - (a + b)));
      [lia | done].
Qed.

Section TickComposition.

Context `{Codec}.

Lemma reachable_ttl_in_range mac ip cs s :
  run cs (NetworkInterface_new mac ip) = Done s → ttl_in_range s.
Proof.
  intros Hrun.
  eapply run_ttl; [apply NetworkInterface_new_consistent | | exact Hrun].
  intros e He. by apply elem_of_nil in He.
Qed.

Lemma run_snoc cs c s s1 s2 :
  run cs s = Done s1 → step c s1 = Done s2 → run (cs ++ [c]) s = Done s2.
Proof.
  intros Hrun Hstep. rewrite run_app, Hrun. simpl. by rewrite Hstep.
Qed.

(** X9. In every state reached from a new interface, tick(0) changes
    nothing. *)
Theorem tick_zero mac ip cs s :
  run cs (NetworkInterface_new mac ip) = Done s →
  tick 0 s = Done s.
Proof.
  intros Hrun.
  pose proof (reachable_ttl_in_range _ _ _ _ Hrun) as Hrange.
  rewrite (tick_small_interval mac ip cs s 0 Hrun) by lia.
  destruct s as [own_mac own_ip tbl tx qs]. simpl in *. do 2 f_equal.
  - rewrite (list_fmap_ext _ id).
    + rewrite list_fmap_id. apply filter_all. intros e He.
      by apply Hrange.
    + intros i e Hi. simpl. by rewrite Z.sub_0_r, set_ttl_same.
  - apply filter_all. intros q _ Hin.
    apply elem_of_expiring in Hin as (e & He & _ & Ht & _).
    specialize (Hrange e He). lia.
Qed.

(** X10. In every state reached from a new interface, two successive tick
    calls with intervals a and b are one tick call with interval a + b,
    when a + b is below 2^31 ms. *)
Theorem tick_add mac ip cs s a b :
  run cs (NetworkInterface_new mac ip) = Done s →
  0 <= a → 0 <= b → a + b < 2 ^ 31 →
  (s1 ← tick a s; tick b s1) = tick (a + b) s.
Proof.
  intros Hrun Ha Hb Hab.
  pose proof (tick_small_interval mac ip cs s a Hrun ltac:(lia)) as Hta.
  rewrite Hta. simpl.
  rewrite (tick_small_interval mac ip (cs ++ [call_tick a]) _ b
             (run_snoc cs (call_tick a) _ s _ Hrun Hta)) by lia.
  rewrite (tick_small_interval mac ip cs s (a + b) Hrun) by lia.
  simpl. do 2 f_equal.
  - by apply kept_twice.
  - rewrite list_filter_filter. apply list_filter_iff. intros q.
    rewrite !elem_of_expiring. split.
    + intros [Hnb Hna] (e & He & Hip & Ht & Hc).
      destruct (Z.le_gt_cases (ARPTableEntry.ttl e - a) 0) as [Hle | Hgt].
      * apply Hna. by exists e.
      * apply Hnb.
        exists (ARPTableEntry.set_ttl e (ARPTableEntry.ttl e - a)).
        split; [|simpl; repeat split; first [done | lia]].
        apply list_elem_of_filter. split; [simpl; lia|].
        by apply (list_elem_of_fmap_2
                    (λ e, ARPTableEntry.set_ttl e (ARPTableEntry.ttl e - a))).
    + intros Hnab. split.
      * intros (e1 & He1 & Hip & Ht & Hc).
        apply list_elem_of_filter in He1 as [Hpos He1].
        apply list_elem_of_fmap in He1 as (e & -> & He).
        simpl in *. apply Hnab. exists e. repeat split; first [done | lia].
      * intros (e & He & Hip & Ht & Hc).
        apply Hnab. exists e. repeat split; first [done | lia].
Qed.

End TickComposition.

(** ** How send_datagram composes with recv_frame and tick *)

Lemma nodup_key_snoc_index {A} (key : A → Z) (l : list A) x n y :
  NoDup (key <$> (l ++ [x])) →
  (l ++ [x]) !! n = Some y → key y = key x →
  n = length l ∧ y = x.
Proof.
  intros Hnd Hn Hk.
  assert (Hlast : (l ++ [x]) !! length l = Some x)
    by (by apply list_lookup_middle).
  assert (n = length l) as -> by (by eapply nodup_key_index).
  split; [done | congruence].
Qed.

Lemma insert_snoc {A} (l : list A) x y :
  <[length l := y]> (l ++ [x]) = l ++ [y].
Proof.
  rewrite insert_app_r_alt by lia. by rewrite Nat.sub_diag.
Qed.

Lemma delete_snoc {A} (l : list A) x : delete (length l) (l ++ [x]) = l.
Proof. by rewrite delete_middle, app_nil_r. Qed.

Section SendComposition.

Context `{Codec}.

(** X11. In a state reached from a new interface whose cache has no entry
    for P: after send_datagram(dgram, P), an accepted ARP message from
    sender (M, P) leaves the cache with the Resolved entry P -> M (TTL
    30000) appended, the IP queues as they were before the two calls, and
    on the TX queue, in this order, the ARP request for P, the IPv4 frame
    that carries dgram to M, and the reply to the sender if one is due. *)
Theorem send_then_resolve mac ip cs s dgram next_hop frame arp :
  run cs (NetworkInterface_new mac ip) = Done s →
  absent s (ipv4_numeric next_hop) →
  accepts s frame →
  EthernetHeader.type (EthernetFrame.header frame) = EthernetHeader.TYPE_ARP →
  parse_arp (EthernetFrame.payload frame) = Some arp →
  ARPMessage.sender_ip_address arp = ipv4_numeric next_hop →
  (s1 ← send_datagram dgram next_hop s; recv_frame frame s1) =
  Done (mkNetworkInterface
          (ethernet_address_ s) (ip_address_ s)
          (ARPTable s ++
             [ARPTableEntry.mk true (ipv4_numeric next_hop)
                               (ARPMessage.sender_ethernet_address arp)
                               30000])
          (ReadyToBeSentQueue s ++
             [request_frame s (ipv4_numeric next_hop);
              ipv4_frame s (ARPMessage.sender_ethernet_address arp) dgram] ++
             (if reply_due s arp then [reply_frame s arp] else []))
          (IPQueues s),
        None).
Proof.
  intros Hrun Habs Hacc Htype Hparse Hsender.
  pose proof (reachable_consistent _ _ _ _ Hrun) as Hcons.
  pose proof (send_datagram_absent_state dgram _ _ Hcons Habs) as Hsend.
  destruct (send_datagram_consistent dgram next_hop s Hcons)
    as (s1 & Hsend1 & Hcons1).
  rewrite Hsend in Hsend1. injection Hsend1 as Hs1.
  rewrite Hsend. simpl. rewrite Hs1.
  set (e := ARPTableEntry.mk false (ipv4_numeric next_hop) ETHERNET_ZERO 5000).
  destruct (recv_frame_pending_state frame arp s1 e)
    as (n & k & q & Hn & Hk & Hqip & Hrecv); try done.
  { by subst s1. }
  { subst s1. simpl. apply elem_of_app. right. left. }
  rewrite Hrecv. subst s1. simpl in *.
  destruct Hcons1 as (Hnd1 & Hq1 & _). simpl in *.
  destruct (nodup_key_snoc_index ARPTableEntry.ip_address _ _ _ _ Hnd1 Hn)
    as [-> _]; [done|].
  destruct (nodup_key_snoc_index IPQueue.ip_address _ _ _ _ Hq1 Hk)
    as [-> ->]; [by rewrite Hqip|].
  rewrite insert_snoc, delete_snoc, Hsender. simpl.
  unfold reply_frames, reply_due. simpl.
  by rewrite <- !app_assoc.
Qed.

(** X12. In a state reached from a new interface whose cache has no entry
    for P: send_datagram(dgram, P) followed by tick(ms) with 5000 <= ms <
    2^31 gives the state that tick(ms) alone gives, with the ARP request
    for P appended to the TX queue: the Pending entry and its queue are
    gone and the datagram is dropped. *)
Theorem send_then_expire mac ip cs s dgram next_hop ms :
  run cs (NetworkInterface_new mac ip) = Done s →
  absent s (ipv4_numeric next_hop) →
  5000 <= ms < 2 ^ 31 →
  (s1 ← send_datagram dgram next_hop s; tick ms s1) =
  (s' ← tick ms s;
   mret (push_frame s' (request_frame s (ipv4_numeric next_hop)))).
Proof.
  intros Hrun Habs Hms.
  pose proof (reachable_consistent _ _ _ _ Hrun) as Hcons.
  pose proof (send_datagram_absent_state dgram _ _ Hcons Habs) as Hsend.
  rewrite Hsend. simpl.
  rewrite (tick_small_interval mac ip
             (cs ++ [call_send_datagram dgram next_hop]) _ ms
             (run_snoc cs (call_send_datagram dgram next_hop) _ s _ Hrun Hsend)) by lia.
  rewrite (tick_small_interval mac ip cs s ms Hrun) by lia.
  simpl.
  unfold push_frame, set_ReadyToBeSentQueue, request_frame, makeFrame, makeArp.
  simpl. do 2 f_equal.
  - rewrite fmap_app, filter_app. simpl.
    rewrite filter_cons_False by (simpl; lia). by rewrite app_nil_r.
  - rewrite filter_app, (filter_cons_False _ (IPQueue.mk _ _)).
    + rewrite filter_nil, app_nil_r. apply filter_iff_in.
      intros q Hq. rewrite !elem_of_expiring. split.
      * intros Hn (e & He & Hip). apply Hn. exists e.
        split; [|done]. apply elem_of_app. by left.
      * intros Hn (e & He & Hip & Ht & Hc).
        apply elem_of_app in He as [He | He].
        -- apply Hn. by exists e.
        -- apply list_elem_of_singleton in He. subst e. simpl in Hip.
           by apply (consistent_absent_no_queue _ _ Hcons Habs q Hq).
    + simpl. intros Hn. apply Hn. apply elem_of_expiring.
      eexists. split; [apply elem_of_app; right; left|].
      simpl. repeat split; first [done | lia].
Qed.

Lemma send_more next_hop ds : ∀ l s1 qs,
  consistent s1 →
  holds_pending s1 (ipv4_numeric next_hop) →
  IPQueues s1 = qs ++ [IPQueue.mk (ipv4_numeric next_hop) l] →
  run ((λ d, call_send_datagram d next_hop) <$> ds) s1 =
  Done (set_IPQueues s1
          (qs ++ [IPQueue.mk (ipv4_numeric next_hop) (l ++ ds)])).
Proof.
  induction ds as [|d ds IH]; intros l s1 qs Hcons Hpend Hqs.
  - simpl. rewrite app_nil_r, <- Hqs. by destruct s1.
  - rewrite fmap_cons. simpl.
    destruct (send_datagram_pending_state d next_hop s1 Hcons Hpend)
      as (n & q & Hn & Hqip & Hsend).
    destruct (send_datagram_consistent d next_hop s1 Hcons)
      as (s2 & Hsend2 & Hcons2).
    rewrite Hsend in Hsend2. injection Hsend2 as Hs2.
    rewrite Hsend. simpl.
    pose proof Hcons as (_ & Hnd & _). rewrite Hqs in Hnd, Hn.
    destruct (nodup_key_snoc_index IPQueue.ip_address _ _ _ _ Hnd Hn)
      as [-> ->]; [done|].
    rewrite Hqs, insert_snoc in Hs2 |- *.
    rewrite (IH (l ++ [d]) _ qs).
    + unfold set_IPQueues. simpl. by rewrite <- app_assoc.
    + by rewrite Hs2.
    + destruct Hpend as (e & He & Hip & Hc). by exists e.
    + done.
Qed.

(** X13. In a state reached from a new interface whose cache has no entry
    for P, any number of send_datagram calls to P (at least one) puts
    exactly one ARP request for P on the TX queue, adds one Pending entry
    with TTL 5000, and collects the datagrams, in the order of the calls,
    in one queue for P. *)
Theorem send_many_one_request mac ip cs s next_hop d ds :
  run cs (NetworkInterface_new mac ip) = Done s →
  absent s (ipv4_numeric next_hop) →
  run ((λ d, call_send_datagram d next_hop) <$> (d :: ds)) s =
  Done (mkNetworkInterface
          (ethernet_address_ s) (ip_address_ s)
          (ARPTable s ++
             [ARPTableEntry.mk false (ipv4_numeric next_hop)
                               ETHERNET_ZERO 5000])
          (ReadyToBeSentQueue s ++ [request_frame s (ipv4_numeric next_hop)])
          (IPQueues s ++ [IPQueue.mk (ipv4_numeric next_hop) (d :: ds)])).
Proof.
  intros Hrun Habs.
  pose proof (reachable_consistent _ _ _ _ Hrun) as Hcons.
  pose proof (send_datagram_absent_state d _ _ Hcons Habs) as Hsend.
  destruct (send_datagram_consistent d next_hop s Hcons)
    as (s1 & Hsend1 & Hcons1).
  rewrite Hsend in Hsend1. injection Hsend1 as Hs1.
  rewrite fmap_cons. simpl. rewrite Hsend. simpl. rewrite Hs1.
  rewrite (send_more next_hop ds [d] s1 (IPQueues s)); try done.
  - by subst s1.
  - subst s1. eexists. split; [apply elem_of_app; right; left | done].
  - by subst s1.
Qed.

End SendComposition.

(** ** What the calls do to the TX queue and the own addresses *)

Section TxQueue.

Context `{Codec}.

Lemma send_datagram_tx dgram next_hop s s' :
  consistent s → send_datagram dgram next_hop s = Done s' →
  ethernet_address_ s' = ethernet_address_ s ∧
  ip_address_ s' = ip_address_ s ∧
  ReadyToBeSentQueue s `prefix_of` ReadyToBeSentQueue s'.
Proof.
  intros Hcons Hsend.
  destruct (arp_cases s (ipv4_numeric next_hop)) as [Habs | (e & He & Hip)].
  - rewrite (send_datagram_absent_state _ _ _ Hcons Habs) in Hsend.
    injection Hsend as <-. simpl. repeat split. by eexists.
  - destruct (ARPTableEntry.complete_entry e) eqn:Hc.
    + rewrite (send_datagram_resolved_state _ _ _ e) in Hsend; try done;
        [|by destruct Hcons].
      injection Hsend as <-. simpl. repeat split. by eexists.
    + destruct (send_datagram_pending_state dgram next_hop s Hcons)
        as (k & q & _ & _ & Heq); [by exists e|].
      rewrite Heq in Hsend. injection Hsend as <-. simpl. done.
Qed.

Lemma recv_arp_learn_tx arp s s' :
  consistent s → recv_arp_learn arp s = Done s' →
  ethernet_address_ s' = ethernet_address_ s ∧
  ip_address_ s' = ip_address_ s ∧
  ReadyToBeSentQueue s `prefix_of` ReadyToBeSentQueue s'.
Proof.
  intros Hcons Hlearn.
  destruct (arp_cases s (ARPMessage.sender_ip_address arp))
    as [Habs | (e & He & Hip)].
  - rewrite (recv_arp_learn_absent_state _ _ Hcons Habs) in Hlearn.
    injection Hlearn as <-. simpl. done.
  - destruct (ARPTableEntry.complete_entry e) eqn:Hc.
    + destruct (recv_arp_learn_resolved_state arp s e) as (n & _ & Heq);
        try done.
      rewrite Heq in Hlearn. injection Hlearn as <-. simpl. done.
    + destruct (recv_arp_learn_pending_state arp s e)
        as (n & k & q & _ & _ & _ & Heq); try done.
      rewrite Heq in Hlearn. injection Hlearn as <-. simpl.
      repeat split. by eexists.
Qed.

Lemma recv_frame_tx frame s s' o :
  consistent s → recv_frame frame s = Done (s', o) →
  ethernet_address_ s' = ethernet_address_ s ∧
  ip_address_ s' = ip_address_ s ∧
  ReadyToBeSentQueue s `prefix_of` ReadyToBeSentQueue s'.
Proof.
  intros Hcons. unfold recv_frame.
  destruct (negb _); [by intros [= <- _]|].
  destruct (_ =? EthernetHeader.TYPE_IPv4).
  { destruct (parse_dgram _); by intros [= <- _]. }
  destruct (_ =? EthernetHeader.TYPE_ARP); [|by intros [= <- _]].
  destruct (parse_arp _) as [arp|]; [|by intros [= <- _]].
  destruct (recv_arp_learn arp s) as [s1| |] eqn:Hlearn; simpl; [|done|done].
  intros [= <- _].
  destruct (recv_arp_learn_tx _ _ _ Hcons Hlearn) as (Hm & Hi & Hpre).
  rewrite recv_arp_reply_spec.
  destruct (reply_due s1 arp); [|done]. simpl.
  repeat split; try done. by apply prefix_app_r.
Qed.

(** X14. In a state reached from a new interface every call returns and
    keeps the own MAC and IP addresses; send_datagram, recv_frame and tick
    leave the frames that wait on the TX queue where they are and at most
    append frames behind them, and maybe_send removes the first frame
    only. *)
Theorem step_keeps_tx mac ip cs s c :
  run cs (NetworkInterface_new mac ip) = Done s →
  ∃ s',
    step c s = Done s' ∧
    ethernet_address_ s' = ethernet_address_ s ∧
    ip_address_ s' = ip_address_ s ∧
    (c ≠ call_maybe_send →
     ReadyToBeSentQueue s `prefix_of` ReadyToBeSentQueue s') ∧
    (c = call_maybe_send →
     ReadyToBeSentQueue s' = tail (ReadyToBeSentQueue s)).
Proof.
  intros Hrun.
  pose proof (reachable_consistent _ _ _ _ Hrun) as Hcons.
  destruct (step_consistent c s Hcons) as (s' & Hstep & _).
  exists s'. split; [done|].
  destruct c as [dgram next_hop | frame | ms |]; simpl in Hstep.
  - destruct (send_datagram_tx _ _ _ _ Hcons Hstep) as (? & ? & ?). done.
  - destruct (recv_frame frame s) as [[s1 o]| |] eqn:Hrecv; simpl in Hstep;
      [|done|done].
    injection Hstep as <-.
    destruct (recv_frame_tx _ _ _ _ Hcons Hrecv) as (? & ? & ?). done.
  - apply consistent_coherent in Hcons. unfold tick in Hstep.
    rewrite tick_loop_closed in Hstep;
      [| by destruct Hcons | by destruct Hcons as (_ & ? & _)
       | intros x; by apply Hcons].
    simpl in Hstep. injection Hstep as <-. simpl. done.
  - injection Hstep as <-. unfold maybe_send.
    destruct (ReadyToBeSentQueue s) eqn:Htx; simpl; by rewrite ?Htx.
Qed.

End TxQueue.

(** ** isPrefixMatch *)

Lemma isPrefixMatch_masked a b n :
  0 <= n <= 32 →
  isPrefixMatch a b n = (Z.land a (prefix_mask n) =? Z.land b (prefix_mask n)).
Proof.
  intros Hn.
  exact (isPrefixMatch_matches a (RoutingTableEntry.mk b n None 0) Hn).
Qed.

Lemma prefix_mask_nested m n :
  0 <= m <= n → n <= 32 →
  Z.land (prefix_mask n) (prefix_mask m) = prefix_mask m.
Proof.
  intros Hm Hn. apply Z.bits_inj'. intros i Hi.
  rewrite Z.land_spec, !prefix_mask_testbit by lia.
  destruct (Z.leb_spec (32 - n) i), (Z.leb_spec (32 - m) i),
           (Z.ltb_spec i 32); simpl; lia || done.
Qed.

(** X15. For every prefix length, isPrefixMatch is an equivalence on
    addresses: every address matches itself, the two addresses can be
    exchanged, and two addresses that match a third one match each
    other. *)
Theorem isPrefixMatch_equivalence n :
  (∀ a, isPrefixMatch a a n = true)
  ∧ (∀ a b, isPrefixMatch a b n = isPrefixMatch b a n)
  ∧ (∀ a b c, isPrefixMatch a b n = true → isPrefixMatch b c n = true →
              isPrefixMatch a c n = true).
Proof.
  unfold isPrefixMatch. destruct (n =? 0); [done|].
  repeat split.
  - intros a. apply Z.eqb_refl.
  - intros a b. apply Z.eqb_sym.
  - intros a b c Hab Hbc. apply Z.eqb_eq in Hab, Hbc. apply Z.eqb_eq.
    congruence.
Qed.

(** X16. For prefix lengths in the documented range, two addresses that
    match on a prefix of length n match on every shorter prefix: for 0 <= m
    <= n <= 32, isPrefixMatch(a, b, n) implies isPrefixMatch(a, b, m). *)
Theorem isPrefixMatch_shorter a b m n :
  0 <= m <= n → n <= 32 →
  isPrefixMatch a b n = true →
  isPrefixMatch a b m = true.
Proof.
  intros Hm Hn. rewrite !isPrefixMatch_masked by lia.
  intros Hab%Z.eqb_eq. apply Z.eqb_eq.
  rewrite <- (prefix_mask_nested m n) by lia.
  by rewrite !Z.land_assoc, Hab.
Qed.

(** ** add_interface and add_route *)

(** X17. add_interface returns the number of interfaces the router had
    before the call; afterwards interface(index) is the added interface,
    the interfaces at lower indices are the ones they were, the index after
    it is out of range, and the routing table is unchanged. *)
Theorem add_interface_lookup a r :
  snd (add_interface a r) = length (interfaces_ r)
  ∧ interface (snd (add_interface a r)) (fst (add_interface a r)) = Some a
  ∧ (∀ j, (j < length (interfaces_ r))%nat →
          interface j (fst (add_interface a r)) = interface j r)
  ∧ interface (S (snd (add_interface a r))) (fst (add_interface a r)) = None
  ∧ RoutingTable (fst (add_interface a r)) = RoutingTable r.
Proof.
  unfold add_interface, interface. simpl.
  assert (Hlen : (length (interfaces_ r ++ [a]) - 1)%nat
                 = length (interfaces_ r)).
  { rewrite length_app. simpl. lia. }
  rewrite Hlen. split; [done|]. split; [by apply list_lookup_middle|].
  split; [intros j Hj; by apply lookup_app_l|].
  split; [|done].
  apply lookup_ge_None_2. rewrite length_app. simpl. lia.
Qed.

(** X18. add_route appends the route and leaves the interfaces alone. For
    every destination, the scan of the new table is the scan of the old
    table followed by one step on the new route: the new route is selected
    only if it matches with a prefix length strictly greater than the one
    selected before (greater than -999 when nothing matched), and
    otherwise the selection is the one of the old table. *)
Theorem add_route_scan dst route_prefix prefix_length next_hop interface_num r :
  let e := RoutingTableEntry.mk route_prefix prefix_length next_hop
                                interface_num in
  let r' := add_route route_prefix prefix_length next_hop interface_num r in
  interfaces_ r' = interfaces_ r
  ∧ RoutingTable r' = RoutingTable r ++ [e]
  ∧ (isPrefixMatch dst route_prefix prefix_length = true →
     fst (scan dst (RoutingTable r)) < prefix_length →
     scan dst (RoutingTable r') = (prefix_length, e))
  ∧ (isPrefixMatch dst route_prefix prefix_length = false ∨
     prefix_length <= fst (scan dst (RoutingTable r)) →
     scan dst (RoutingTable r') = scan dst (RoutingTable r)).
Proof.
  intros e r'. subst r' e. unfold add_route.
  cbn [interfaces_ RoutingTable].
  split; [done|]. split; [done|].
  unfold scan. rewrite fold_left_app. cbn [fold_left].
  generalize (fold_left (scan_step dst) (RoutingTable r)
                (-999, RoutingTableEntry.default)) as acc.
  intros acc. unfold scan_step.
  cbn [RoutingTableEntry.route_prefix RoutingTableEntry.prefix_length].
  split.
  - intros -> Hlt.
    destruct (Z.gtb_spec prefix_length (fst acc)); [done | lia].
  - intros [-> | Hle]; [done|].
    destruct (isPrefixMatch dst route_prefix prefix_length); [|done].
    destruct (Z.gtb_spec prefix_length (fst acc)); [lia | done].
Qed.

(** ** The asynchronous interface *)

Section AsyncInterface.

Context `{Codec}.

(** X19. When AsyncNetworkInterface::recv_frame returns: for an accepted
    TYPE_IPv4 frame the underlying interface is unchanged and the parsed
    datagram, if the parse succeeds, is appended behind the datagrams that
    wait; for every other frame (not accepted, ARP, other types) the queue
    of received datagrams is unchanged. With an empty queue, the datagram of
    an accepted IPv4 frame is what the next maybe_receive returns, and that
    call gives back the interface as it was before the frame. *)
Theorem async_recv_frame_queue frame a a' :
  async_recv_frame frame a = Done a' →
  (accepts (AsyncNetworkInterface.base a) frame →
   EthernetHeader.type (EthernetFrame.header frame)
   = EthernetHeader.TYPE_IPv4 →
   AsyncNetworkInterface.base a' = AsyncNetworkInterface.base a ∧
   AsyncNetworkInterface.datagrams_in_ a' =
     AsyncNetworkInterface.datagrams_in_ a ++
     option_list (parse_dgram (EthernetFrame.payload frame)))
  ∧ (¬ accepts (AsyncNetworkInterface.base a) frame ∨
     EthernetHeader.type (EthernetFrame.header frame)
     ≠ EthernetHeader.TYPE_IPv4 →
     AsyncNetworkInterface.datagrams_in_ a' =
     AsyncNetworkInterface.datagrams_in_ a)
  ∧ (∀ d,
       AsyncNetworkInterface.datagrams_in_ a = [] →
       accepts (AsyncNetworkInterface.base a) frame →
       EthernetHeader.type (EthernetFrame.header frame)
       = EthernetHeader.TYPE_IPv4 →
       parse_dgram (EthernetFrame.payload frame) = Some d →
       maybe_receive a' = (a, Some d)).
Proof.
  intros Hrecv.
  assert (Hipv4 :
    accepts (AsyncNetworkInterface.base a) frame →
    EthernetHeader.type (EthernetFrame.header frame)
    = EthernetHeader.TYPE_IPv4 →
    AsyncNetworkInterface.base a' = AsyncNetworkInterface.base a ∧
    AsyncNetworkInterface.datagrams_in_ a' =
      AsyncNetworkInterface.datagrams_in_ a ++
      option_list (parse_dgram (EthernetFrame.payload frame))).
  { intros Hacc Htype. unfold async_recv_frame, recv_frame in Hrecv.
    rewrite accepts_filter, Htype in Hrecv by done. simpl in Hrecv.
    destruct (parse_dgram _) as [d|]; simpl in Hrecv;
      injection Hrecv as <-; simpl; [done|].
    by rewrite app_nil_r. }
  split; [exact Hipv4|]. split.
  - intros Hother. unfold async_recv_frame, recv_frame in Hrecv.
    destruct (bool_decide _ || bool_decide _) eqn:Hfilter; simpl in Hrecv.
    + destruct (Z.eqb_spec (EthernetHeader.type (EthernetFrame.header frame))
                           EthernetHeader.TYPE_IPv4) as [Htype | _].
      { destruct Hother as [Hnot | Hne]; [|done].
        destruct Hnot. apply orb_true_iff in Hfilter.
        destruct Hfilter as [Hd | Hd]; apply bool_decide_eq_true_1 in Hd;
          [by left | by right]. }
      destruct (_ =? EthernetHeader.TYPE_ARP);
        [|by injection Hrecv as <-].
      destruct (parse_arp _) as [arp|]; [|by injection Hrecv as <-].
      destruct (recv_arp_learn arp _) as [s1| |]; simpl in Hrecv;
        [|done|done].
      by injection Hrecv as <-.
    + by injection Hrecv as <-.
  - intros d Hempty Hacc Htype Hparse.
    destruct (Hipv4 Hacc Htype) as [Hbase Hin].
    rewrite Hempty, Hparse in Hin. simpl in Hin.
    unfold maybe_receive. rewrite Hin.
    unfold AsyncNetworkInterface.set_datagrams_in_. rewrite Hbase.
    destruct a as [s ds]. simpl in *. by subst ds.
Qed.

End AsyncInterface.

(** ** route as a whole *)

Section RouteWhole.

Context `{Codec}.

Lemma interface_send_datagram_routable n dgram next_hop r :
  routable r → (n < length (interfaces_ r))%nat →
  ∃ r', interface_send_datagram n dgram next_hop r = Done r' ∧
        routable r' ∧ inboxes r' = inboxes r ∧
        RoutingTable r' = RoutingTable r.
Proof.
  intros [Hifs Hroutes] Hn.
  destruct (lookup_lt_is_Some_2 _ _ Hn) as [a Ha].
  assert (Hcons : consistent (AsyncNetworkInterface.base a))
    by (by apply (proj1 (Forall_lookup _ _) Hifs n a)).
  destruct (send_datagram_consistent dgram next_hop _ Hcons)
    as (s & Hsend & Hcons').
  assert (Heq : interface_send_datagram n dgram next_hop r =
                Done (set_interfaces_ r
                        (<[n := AsyncNetworkInterface.set_base a s]>
                           (interfaces_ r)))).
  { unfold interface_send_datagram. by rewrite Ha, Hsend. }
  eexists. split; [exact Heq|].
  destruct (interface_send_datagram_inboxes _ _ _ _ _ Heq) as [Hb Ht].
  split; [|done]. split; simpl.
  - by apply Forall_insert.
  - by rewrite length_insert.
Qed.

Lemma route_datagram_routable datagram r :
  routable r →
  ∃ r', route_datagram datagram r = Done r' ∧
        routable r' ∧ inboxes r' = inboxes r ∧
        RoutingTable r' = RoutingTable r.
Proof.
  intros Hr. unfold route_datagram.
  destruct (scan _ _) as [L E] eqn:Hscan.
  destruct (Z.geb_spec L 0) as [HL | _]; [|by exists r].
  destruct (_ >? 1); [|by exists r].
  assert (Hn : (RoutingTableEntry.interface_num E
                < length (interfaces_ r))%nat).
  { destruct (scan_selected _ _ _ _ Hscan) as (j & Hj & _); [lia|].
    destruct Hr as [_ Hroutes].
    by apply (proj1 (Forall_lookup _ _) Hroutes j E). }
  destruct (RoutingTableEntry.next_hop E);
    by apply interface_send_datagram_routable.
Qed.

Lemma route_while_routable i inbox : ∀ r,
  routable r → inboxes r !! i = Some inbox →
  ∃ r', route_while i inbox r = Done r' ∧
        routable r' ∧ RoutingTable r' = RoutingTable r ∧
        inboxes r' = <[i := []]> (inboxes r).
Proof.
  induction inbox as [|d rest IH]; intros r Hr Hi.
  - exists r. simpl. do 3 (split; [done|]).
    symmetry. by apply list_insert_id.
  - simpl. unfold inboxes in Hi. rewrite list_lookup_fmap in Hi.
    destruct (interfaces_ r !! i) as [a|] eqn:Ha; [|done].
    set (r1 := set_interfaces_ r
                 (<[i := AsyncNetworkInterface.set_datagrams_in_ a rest]>
                    (interfaces_ r))).
    assert (Hr1 : routable r1).
    { destruct Hr as [Hifs Hroutes]. split; simpl.
      - apply Forall_insert; [done|]. simpl.
        by apply (proj1 (Forall_lookup _ _) Hifs i a).
      - by rewrite length_insert. }
    assert (Hb1 : inboxes r1 = <[i := rest]> (inboxes r)).
    { unfold inboxes, r1. simpl. by rewrite list_fmap_insert. }
    destruct (route_datagram_routable d r1 Hr1)
      as (r2 & -> & Hr2 & Hb2 & Ht2).
    simpl.
    destruct (IH r2 Hr2) as (r' & -> & Hr' & Ht' & Hb').
    { rewrite Hb2, Hb1. apply list_lookup_insert_eq.
      unfold inboxes. rewrite length_fmap. by eapply lookup_lt_Some. }
    exists r'. do 2 (split; [done|]). split.
    + by rewrite Ht', Ht2.
    + by rewrite Hb', Hb2, Hb1, list_insert_insert_eq.
Qed.

Lemma route_from_routable count : ∀ i r,
  routable r → (i + count = length (interfaces_ r))%nat →
  ∃ r', route_from count i r = Done r' ∧
        routable r' ∧ RoutingTable r' = RoutingTable r ∧
        length (interfaces_ r') = length (interfaces_ r) ∧
        (∀ j, (i ≤ j)%nat → (j < length (interfaces_ r))%nat →
              inboxes r' !! j = Some []) ∧
        (∀ j, (j < i)%nat → inboxes r' !! j = inboxes r !! j).
Proof.
  induction count as [|count IH]; intros i r Hr Hlen.
  - exists r. simpl. do 4 (split; [done|]). split; [|done].
    intros j Hij Hj. lia.
  - simpl.
    destruct (lookup_lt_is_Some_2 (interfaces_ r) i) as [a Ha]; [lia|].
    rewrite Ha.
    destruct (route_while_routable i (AsyncNetworkInterface.datagrams_in_ a)
                r Hr) as (r1 & -> & Hr1 & Ht1 & Hb1).
    { unfold inboxes. by rewrite list_lookup_fmap, Ha. }
    simpl.
    assert (Hlen1 : length (interfaces_ r1) = length (interfaces_ r)).
    { apply (f_equal length) in Hb1.
      unfold inboxes in Hb1. by rewrite length_insert, !length_fmap in Hb1. }
    destruct (IH (S i) r1 Hr1) as (r' & -> & Hr' & Ht' & Hlen' & Hge & Hlt);
      [lia|].
    exists r'. split; [done|]. split; [done|].
    split; [by rewrite Ht'|]. split; [lia|]. split.
    + intros j Hij Hj.
      destruct (decide (j = i)) as [-> | Hne].
      * rewrite Hlt by lia. rewrite Hb1. apply list_lookup_insert_eq.
        unfold inboxes. rewrite length_fmap. lia.
      * apply Hge; lia.
    + intros j Hj. rewrite Hlt by lia. rewrite Hb1.
      apply list_lookup_insert_ne. lia.
Qed.

(** X20. When every interface of the router is in a consistent state and
    every route names an interface of the router, route returns (no
    exit(1), no access out of bounds); afterwards the routing table and the
    number of interfaces are the same, every interface is still consistent,
    and every queue of received datagrams is empty. *)
Theorem route_returns r :
  routable r →
  ∃ r',
    route r = Done r' ∧
    RoutingTable r' = RoutingTable r ∧
    length (interfaces_ r') = length (interfaces_ r) ∧
    Forall (λ a, consistent (AsyncNetworkInterface.base a) ∧
                 AsyncNetworkInterface.datagrams_in_ a = [])
           (interfaces_ r').
Proof.
  intros Hr. unfold route.
  destruct (route_from_routable (length (interfaces_ r)) 0%nat r Hr)
    as (r' & Hroute & [Hifs _] & Ht & Hlen & Hempty & _); [done|].
  exists r'. do 3 (split; [done|]).
  apply Forall_lookup. intros j a Hj. split.
  - by apply (proj1 (Forall_lookup _ _) Hifs j a).
  - assert (Hin : inboxes r' !! j = Some []).
    { apply Hempty; [lia|]. rewrite <- Hlen. by eapply lookup_lt_Some. }
    unfold inboxes in Hin. rewrite list_lookup_fmap, Hj in Hin.
    by injection Hin.
Qed.

Lemma route_from_idle count : ∀ i r,
  Forall (λ a, AsyncNetworkInterface.datagrams_in_ a = []) (interfaces_ r) →
  (i + count = length (interfaces_ r))%nat →
  route_from count i r = Done r.
Proof.
  induction count as [|count IH]; intros i r Hempty Hlen; [done|].
  simpl.
  destruct (lookup_lt_is_Some_2 (interfaces_ r) i) as [a Ha]; [lia|].
  rewrite Ha.
  rewrite (proj1 (Forall_lookup _ _) Hempty i a Ha). simpl.
  apply IH; [done | lia].
Qed.

(** X21. When no interface has a received datagram waiting, route changes
    nothing, whatever the routing table holds. *)
Theorem route_idle r :
  Forall (λ a, AsyncNetworkInterface.datagrams_in_ a = []) (interfaces_ r) →
  route r = Done r.
Proof. intros Hempty. by apply route_from_idle. Qed.

End RouteWhole.

(** ** What is learned from an ARP message, and for how long *)

Section Learned.

Context `{Codec}.

(* After an accepted ARP message from (M, P) the cache holds a Resolved
   entry for P with TTL 30000, with MAC M unless P was Resolved before. *)
Lemma recv_frame_learned frame arp s :
  consistent s → accepts s frame →
  EthernetHeader.type (EthernetFrame.header frame) = EthernetHeader.TYPE_ARP →
  parse_arp (EthernetFrame.payload frame) = Some arp →
  ∃ s1 m,
    recv_frame frame s = Done (s1, None) ∧
    consistent s1 ∧
    ARPTableEntry.mk true (ARPMessage.sender_ip_address arp) m 30000
      ∈ ARPTable s1 ∧
    ethernet_address_ s1 = ethernet_address_ s ∧
    ip_address_ s1 = ip_address_ s ∧
    (¬ holds_resolved s (ARPMessage.sender_ip_address arp) →
     m = ARPMessage.sender_ethernet_address arp).
Proof.
  intros Hcons Hacc Htype Hparse.
  destruct (arp_cases s (ARPMessage.sender_ip_address arp))
    as [Habs | (e & He & Hip)].
  - pose proof (recv_frame_absent_state _ _ _ Hcons Hacc Htype Hparse Habs)
      as Hrecv.
    pose proof (recv_frame_result_consistent _ _ _ _ Hcons Hrecv) as Hcons1.
    eexists _, _. split; [exact Hrecv|]. split; [done|]. simpl.
    split; [apply elem_of_app; right; left | done].
  - destruct (ARPTableEntry.complete_entry e) eqn:Hc.
    + destruct (recv_frame_resolved_state frame arp s e)
        as (n & Hn & Hrecv); try done.
      pose proof (recv_frame_result_consistent _ _ _ _ Hcons Hrecv) as Hcons1.
      eexists _, (ARPTableEntry.mac_address e).
      split; [exact Hrecv|]. split; [done|]. simpl. split.
      { rewrite <- Hip. apply list_elem_of_insert. by eapply lookup_lt_Some. }
      do 2 (split; [done|]). intros Hnot. destruct Hnot. by exists e.
    + destruct (recv_frame_pending_state frame arp s e)
        as (n & k & q & Hn & Hk & Hqip & Hrecv); try done.
      pose proof (recv_frame_result_consistent _ _ _ _ Hcons Hrecv) as Hcons1.
      eexists _, _. split; [exact Hrecv|]. split; [done|]. simpl. split.
      { apply list_elem_of_insert. by eapply lookup_lt_Some. }
      done.
Qed.

(** X22. In a state reached from a new interface whose cache has no
    Resolved entry for P (P is absent or Pending): after an accepted ARP
    message from sender (M, P), send_datagram(dgram, P) appends exactly the
    IPv4 frame that carries dgram to M to the TX queue and changes nothing
    else; no ARP request is sent. *)
Theorem learn_then_send mac ip cs s frame arp dgram next_hop :
  run cs (NetworkInterface_new mac ip) = Done s →
  accepts s frame →
  EthernetHeader.type (EthernetFrame.header frame) = EthernetHeader.TYPE_ARP →
  parse_arp (EthernetFrame.payload frame) = Some arp →
  ARPMessage.sender_ip_address arp = ipv4_numeric next_hop →
  ¬ holds_resolved s (ipv4_numeric next_hop) →
  ∃ s1,
    recv_frame frame s = Done (s1, None) ∧
    send_datagram dgram next_hop s1 =
    Done (mkNetworkInterface
            (ethernet_address_ s1) (ip_address_ s1)
            (ARPTable s1)
            (ReadyToBeSentQueue s1 ++
               [ipv4_frame s (ARPMessage.sender_ethernet_address arp) dgram])
            (IPQueues s1)).
Proof.
  intros Hrun Hacc Htype Hparse Hsender Hnot.
  pose proof (reachable_consistent _ _ _ _ Hrun) as Hcons.
  destruct (recv_frame_learned frame arp s Hcons Hacc Htype Hparse)
    as (s1 & m & Hrecv & Hcons1 & He & Hmac & _ & Hm).
  rewrite Hm in He by (by rewrite Hsender).
  exists s1. split; [done|].
  rewrite (send_datagram_resolved_state dgram next_hop s1 _
             (proj1 Hcons1) He); [|done|done].
  unfold push_frame, set_ReadyToBeSentQueue, ipv4_frame, makeFrame. simpl.
  by rewrite Hmac.
Qed.

(** X23. A Pending entry lives 5000 ms: in a state reached from a new
    interface whose cache has no entry for P, after send_datagram(dgram, P)
    and tick(ms) with 0 <= ms < 2^31, the cache holds a Pending entry for
    P, and a queue for P exists, iff ms < 5000. *)
Theorem pending_lifetime mac ip cs s dgram next_hop ms :
  run cs (NetworkInterface_new mac ip) = Done s →
  absent s (ipv4_numeric next_hop) →
  0 <= ms < 2 ^ 31 →
  ∃ s1 s2,
    send_datagram dgram next_hop s = Done s1 ∧
    tick ms s1 = Done s2 ∧
    (holds_pending s2 (ipv4_numeric next_hop) ↔ ms < 5000) ∧
    (has_queue s2 (ipv4_numeric next_hop) ↔ ms < 5000).
Proof.
  intros Hrun Habs Hms.
  pose proof (reachable_consistent _ _ _ _ Hrun) as Hcons.
  pose proof (send_datagram_absent_state dgram _ _ Hcons Habs) as Hsend.
  destruct (send_datagram_consistent dgram next_hop s Hcons)
    as (s1 & Hsend1 & Hcons1).
  destruct (tick_consistent ms s1 Hcons1) as (s2 & Htick & Hcons2).
  exists s1, s2. split; [done|]. split; [done|].
  assert (Hpend : holds_pending s2 (ipv4_numeric next_hop) ↔ ms < 5000).
  { rewrite (tick_small_interval mac ip
               (cs ++ [call_send_datagram dgram next_hop]) s1 ms
               (run_snoc cs (call_send_datagram dgram next_hop) _ s _
                  Hrun Hsend1)) in Htick by lia.
    injection Htick as <-.
    rewrite Hsend in Hsend1. injection Hsend1 as <-.
    unfold holds_pending. simpl. split.
    - intros (e2 & He2 & Hip & Hc).
      apply list_elem_of_filter in He2 as [Hpos He2].
      apply list_elem_of_fmap in He2 as (e & -> & He).
      apply elem_of_app in He as [He | He].
      + by destruct (Habs e He).
      + apply list_elem_of_singleton in He. subst e. simpl in Hpos. lia.
    - intros Hlt.
      exists (ARPTableEntry.mk false (ipv4_numeric next_hop) ETHERNET_ZERO
                (5000 - ms)).
      split; [|done]. apply list_elem_of_filter. split; [simpl; lia|].
      apply list_elem_of_fmap.
      exists (ARPTableEntry.mk false (ipv4_numeric next_hop) ETHERNET_ZERO 5000).
      split; [done|]. apply elem_of_app. right. left. }
  split; [done|].
  destruct Hcons2 as (_ & _ & Hiff). by rewrite <- Hiff.
Qed.

(** X24. A Resolved entry lives 30000 ms after the ARP message that
    created or refreshed it: in a state reached from a new interface, after
    an accepted ARP message from sender IP P and tick(ms) with 0 <= ms <
    2^31, the cache holds a Resolved entry for P iff ms < 30000. *)
Theorem resolved_lifetime mac ip cs s frame arp ms :
  run cs (NetworkInterface_new mac ip) = Done s →
  accepts s frame →
  EthernetHeader.type (EthernetFrame.header frame) = EthernetHeader.TYPE_ARP →
  parse_arp (EthernetFrame.payload frame) = Some arp →
  0 <= ms < 2 ^ 31 →
  ∃ s1 s2,
    recv_frame frame s = Done (s1, None) ∧
    tick ms s1 = Done s2 ∧
    (holds_resolved s2 (ARPMessage.sender_ip_address arp) ↔ ms < 30000).
Proof.
  intros Hrun Hacc Htype Hparse Hms.
  pose proof (reachable_consistent _ _ _ _ Hrun) as Hcons.
  destruct (recv_frame_learned frame arp s Hcons Hacc Htype Hparse)
    as (s1 & m & Hrecv & Hcons1 & He & _).
  destruct (tick_consistent ms s1 Hcons1) as (s2 & Htick & _).
  exists s1, s2. split; [done|]. split; [done|].
  assert (Hstep : step (call_recv_frame frame) s = Done s1)
    by (simpl; by rewrite Hrecv).
  rewrite (tick_small_interval mac ip (cs ++ [call_recv_frame frame]) s1 ms
             (run_snoc cs (call_recv_frame frame) _ s _ Hrun Hstep))
    in Htick by lia.
  injection Htick as <-. unfold holds_resolved. simpl. split.
  - intros (e2 & He2 & Hip & Hc).
    apply list_elem_of_filter in He2 as [Hpos He2].
    apply list_elem_of_fmap in He2 as (e & -> & He').
    assert (e = ARPTableEntry.mk true (ARPMessage.sender_ip_address arp)
                  m 30000) as ->.
    { apply (nodup_key_unique ARPTableEntry.ip_address (ARPTable s1));
        try done. by destruct Hcons1. }
    simpl in Hpos. lia.
  - intros Hlt.
    exists (ARPTableEntry.mk true (ARPMessage.sender_ip_address arp) m
              (30000 - ms)).
    split; [|done]. apply list_elem_of_filter. split; [simpl; lia|].
    apply list_elem_of_fmap. eexists. split; [|exact He]. done.
Qed.

(** X25. Receiving an ARP message a second time changes nothing, unless it
    is a request for the own IP address (which is answered each time): in a
    state reached from a new interface, when an accepted ARP message that
    is not a request for the own IP is received twice in a row, the second
    call leaves the state that the first call produced. *)
Theorem recv_frame_twice mac ip cs s frame arp :
  run cs (NetworkInterface_new mac ip) = Done s →
  accepts s frame →
  EthernetHeader.type (EthernetFrame.header frame) = EthernetHeader.TYPE_ARP →
  parse_arp (EthernetFrame.payload frame) = Some arp →
  reply_due s arp = false →
  ∃ s1,
    recv_frame frame s = Done (s1, None) ∧
    recv_frame frame s1 = Done (s1, None).
Proof.
  intros Hrun Hacc Htype Hparse Hdue.
  pose proof (reachable_consistent _ _ _ _ Hrun) as Hcons.
  destruct (recv_frame_learned frame arp s Hcons Hacc Htype Hparse)
    as (s1 & m & Hrecv & Hcons1 & He & Hmac & Hip & _).
  exists s1. split; [done|].
  assert (Hacc1 : accepts s1 frame) by (unfold accepts; by rewrite Hmac).
  destruct (recv_frame_resolved_state frame arp s1 _ Hcons1 Hacc1 Htype
              Hparse He) as (n & Hn & Hrecv1); [done | done |].
  assert (Hdue1 : reply_due s1 arp = false)
    by (unfold reply_due in *; by rewrite Hip).
  rewrite Hrecv1. simpl. rewrite (list_insert_id _ _ _ Hn).
  unfold reply_frames. rewrite Hdue1, app_nil_r.
  by destruct s1.
Qed.

End Learned.

(** ** The further properties on examples *)

Lemma maybe_send_times_drains_witness :
  (length (ReadyToBeSentQueue waiting_interface) ≤ 2)%nat ∧
  maybe_send_times 2 waiting_interface =
  ([request_frame example_interface (ip4 10 0 0 2)],
   set_ReadyToBeSentQueue waiting_interface []).
Proof.
  assert (Hlen : (length (ReadyToBeSentQueue waiting_interface) ≤ 2)%nat)
    by (simpl; lia).
  split; [exact Hlen|].
  exact (maybe_send_times_drains 2 waiting_interface Hlen).
Defined.

Lemma cache_keys_unique_witness :
  run [call_send_datagram dgram_a addr_peer] example_interface
  = Done waiting_interface ∧
  ∀ (i j : nat) e1 e2,
    ARPTable waiting_interface !! i = Some e1 →
    ARPTable waiting_interface !! j = Some e2 →
    ARPTableEntry.ip_address e1 = ARPTableEntry.ip_address e2 → i = j.
Proof.
  split; [reflexivity|].
  exact (proj1 (cache_keys_unique mac_own addr_own
                  [call_send_datagram dgram_a addr_peer]
                  waiting_interface eq_refl)).
Defined.

Lemma cache_ttl_positive_witness :
  run [call_send_datagram dgram_a addr_peer] example_interface
  = Done waiting_interface ∧
  ∀ e, e ∈ ARPTable waiting_interface → 0 < ARPTableEntry.ttl e < 2 ^ 31.
Proof.
  split; [reflexivity|].
  exact (cache_ttl_positive mac_own addr_own
           [call_send_datagram dgram_a addr_peer] waiting_interface eq_refl).
Defined.

Lemma cache_ttl_bounded_witness :
  Forall small_tick [call_send_datagram dgram_a addr_peer; call_tick 1000] ∧
  ∃ s,
    run [call_send_datagram dgram_a addr_peer; call_tick 1000]
        example_interface = Done s ∧
    ∀ e, e ∈ ARPTable s →
         ARPTableEntry.ttl e
         <= if ARPTableEntry.complete_entry e then 30000 else 5000.
Proof.
  assert (Hsmall : Forall small_tick
                     [call_send_datagram dgram_a addr_peer; call_tick 1000]).
  { repeat constructor; simpl; lia. }
  split; [exact Hsmall|].
  eexists. split; [reflexivity|].
  exact (cache_ttl_bounded mac_own addr_own _ _ Hsmall eq_refl).
Defined.

Lemma pending_entries_shape_witness :
  run [call_send_datagram dgram_a addr_peer] example_interface
  = Done waiting_interface ∧
  ∀ q, q ∈ IPQueues waiting_interface → IPQueue.datagrams q ≠ [].
Proof.
  split; [reflexivity|].
  exact (proj2 (pending_entries_shape mac_own addr_own
                  [call_send_datagram dgram_a addr_peer]
                  waiting_interface eq_refl)).
Defined.

Lemma tick_zero_witness :
  run [call_send_datagram dgram_a addr_peer] example_interface
  = Done waiting_interface ∧
  tick 0 waiting_interface = Done waiting_interface.
Proof.
  split; [reflexivity|].
  exact (tick_zero mac_own addr_own [call_send_datagram dgram_a addr_peer]
           waiting_interface eq_refl).
Defined.

Lemma tick_add_witness :
  run [call_send_datagram dgram_a addr_peer] example_interface
  = Done waiting_interface ∧
  (s1 ← tick 1000 waiting_interface; tick 2000 s1) = tick 3000 waiting_interface.
Proof.
  split; [reflexivity|].
  refine (tick_add mac_own addr_own [call_send_datagram dgram_a addr_peer]
            waiting_interface 1000 2000 eq_refl _ _ _); lia.
Defined.

Lemma absent_in_new mac ip p : absent (NetworkInterface_new mac ip) p.
Proof. intros e He. by apply elem_of_nil in He. Qed.

Lemma send_then_resolve_witness :
  run [] example_interface = Done example_interface ∧
  absent example_interface (ipv4_numeric addr_peer) ∧
  accepts example_interface peer_reply ∧
  (s1 ← send_datagram dgram_a addr_peer example_interface;
   recv_frame peer_reply s1) =
  Done (mkNetworkInterface mac_own addr_own
          [ARPTableEntry.mk true (ip4 10 0 0 2) mac_peer 30000]
          [request_frame example_interface (ip4 10 0 0 2);
           ipv4_frame example_interface mac_peer dgram_a]
          [],
        None).
Proof.
  assert (Habs : absent example_interface (ipv4_numeric addr_peer))
    by apply absent_in_new.
  assert (Hacc : accepts example_interface peer_reply) by (left; reflexivity).
  split; [reflexivity|]. split; [exact Habs|]. split; [exact Hacc|].
  exact (send_then_resolve mac_own addr_own [] example_interface dgram_a
           addr_peer peer_reply
           (makeArp ARPMessage.OPCODE_REPLY mac_peer (ip4 10 0 0 2)
                    mac_own (ip4 10 0 0 1))
           eq_refl Habs Hacc eq_refl eq_refl eq_refl).
Defined.

Lemma send_then_expire_witness :
  run [] example_interface = Done example_interface ∧
  absent example_interface (ipv4_numeric addr_peer) ∧
  (s1 ← send_datagram dgram_a addr_peer example_interface; tick 5000 s1) =
  Done (push_frame example_interface
          (request_frame example_interface (ip4 10 0 0 2))).
Proof.
  assert (Habs : absent example_interface (ipv4_numeric addr_peer))
    by apply absent_in_new.
  split; [reflexivity|]. split; [exact Habs|].
  refine (send_then_expire mac_own addr_own [] example_interface dgram_a
            addr_peer 5000 eq_refl Habs _).
  lia.
Defined.

Lemma send_many_one_request_witness :
  run [] example_interface = Done example_interface ∧
  absent example_interface (ipv4_numeric addr_peer) ∧
  run [call_send_datagram dgram_a addr_peer;
       call_send_datagram dgram_b addr_peer] example_interface
  = Done waiting_two_interface.
Proof.
  assert (Habs : absent example_interface (ipv4_numeric addr_peer))
    by apply absent_in_new.
  split; [reflexivity|]. split; [exact Habs|].
  exact (send_many_one_request mac_own addr_own [] example_interface
           addr_peer dgram_a [dgram_b] eq_refl Habs).
Defined.

Lemma step_keeps_tx_witness :
  run [call_send_datagram dgram_a addr_peer] example_interface
  = Done waiting_interface ∧
  ∃ s', step call_maybe_send waiting_interface = Done s' ∧
        ReadyToBeSentQueue s' = tail (ReadyToBeSentQueue waiting_interface).
Proof.
  split; [reflexivity|].
  destruct (step_keeps_tx mac_own addr_own
              [call_send_datagram dgram_a addr_peer] waiting_interface
              call_maybe_send eq_refl)
    as (s' & Hstep & _ & _ & _ & Htail).
  exists s'. split; [exact Hstep | exact (Htail eq_refl)].
Defined.

Lemma isPrefixMatch_shorter_witness :
  isPrefixMatch (ip4 10 1 2 3) (ip4 10 1 0 0) 16 = true ∧
  isPrefixMatch (ip4 10 1 2 3) (ip4 10 1 0 0) 8 = true.
Proof.
  split; [reflexivity|].
  refine (isPrefixMatch_shorter (ip4 10 1 2 3) (ip4 10 1 0 0) 8 16 _ _ eq_refl);
    lia.
Defined.

Lemma async_recv_frame_queue_witness :
  async_recv_frame dgram_frame idle_async
  = Done (AsyncNetworkInterface.mk example_interface [dgram_a]) ∧
  maybe_receive (AsyncNetworkInterface.mk example_interface [dgram_a])
  = (idle_async, Some dgram_a).
Proof.
  split; [reflexivity|].
  refine (proj2 (proj2 (async_recv_frame_queue dgram_frame idle_async
                          (AsyncNetworkInterface.mk example_interface [dgram_a])
                          eq_refl))
            dgram_a eq_refl _ eq_refl eq_refl).
  left. reflexivity.
Defined.

Lemma busy_router_routable : routable busy_router.
Proof.
  split.
  - repeat constructor; apply NetworkInterface_new_consistent.
  - repeat constructor; simpl; lia.
Qed.

Lemma route_returns_witness :
  routable busy_router ∧
  ∃ r', route busy_router = Done r' ∧
        RoutingTable r' = RoutingTable busy_router ∧
        Forall (λ a, consistent (AsyncNetworkInterface.base a) ∧
                     AsyncNetworkInterface.datagrams_in_ a = [])
               (interfaces_ r').
Proof.
  split; [exact busy_router_routable|].
  destruct (route_returns busy_router busy_router_routable)
    as (r' & Hroute & Htable & _ & Hifs).
  exists r'. split; [exact Hroute|]. split; [exact Htable | exact Hifs].
Defined.

Lemma route_idle_witness :
  Forall (λ a, AsyncNetworkInterface.datagrams_in_ a = [])
         (interfaces_ example_router) ∧
  route example_router = Done example_router.
Proof.
  assert (Hidle : Forall (λ a, AsyncNetworkInterface.datagrams_in_ a = [])
                         (interfaces_ example_router))
    by (repeat constructor).
  split; [exact Hidle|].
  exact (route_idle example_router Hidle).
Defined.

Lemma waiting_not_resolved :
  ¬ holds_resolved waiting_interface (ipv4_numeric addr_peer).
Proof.
  intros (e & He & _ & Hc). apply list_elem_of_singleton in He. by subst e.
Qed.

Lemma learn_then_send_witness :
  run [call_send_datagram dgram_a addr_peer] example_interface
  = Done waiting_interface ∧
  accepts waiting_interface peer_reply ∧
  ¬ holds_resolved waiting_interface (ipv4_numeric addr_peer) ∧
  ∃ s1,
    recv_frame peer_reply waiting_interface = Done (s1, None) ∧
    send_datagram dgram_b addr_peer s1 =
    Done (mkNetworkInterface
            (ethernet_address_ s1) (ip_address_ s1) (ARPTable s1)
            (ReadyToBeSentQueue s1 ++
               [ipv4_frame waiting_interface mac_peer dgram_b])
            (IPQueues s1)).
Proof.
  assert (Hacc : accepts waiting_interface peer_reply) by (left; reflexivity).
  split; [reflexivity|]. split; [exact Hacc|].
  split; [exact waiting_not_resolved|].
  exact (learn_then_send mac_own addr_own
           [call_send_datagram dgram_a addr_peer] waiting_interface
           peer_reply
           (makeArp ARPMessage.OPCODE_REPLY mac_peer (ip4 10 0 0 2)
                    mac_own (ip4 10 0 0 1))
           dgram_b addr_peer
           eq_refl Hacc eq_refl eq_refl eq_refl waiting_not_resolved).
Defined.

Lemma pending_lifetime_witness :
  run [] example_interface = Done example_interface ∧
  absent example_interface (ipv4_numeric addr_peer) ∧
  ∃ s1 s2,
    send_datagram dgram_a addr_peer example_interface = Done s1 ∧
    tick 4999 s1 = Done s2 ∧
    (holds_pending s2 (ipv4_numeric addr_peer) ↔ 4999 < 5000) ∧
    (has_queue s2 (ipv4_numeric addr_peer) ↔ 4999 < 5000).
Proof.
  assert (Habs : absent example_interface (ipv4_numeric addr_peer))
    by apply absent_in_new.
  split; [reflexivity|]. split; [exact Habs|].
  refine (pending_lifetime mac_own addr_own [] example_interface dgram_a
            addr_peer 4999 eq_refl Habs _).
  lia.
Defined.

Lemma resolved_lifetime_witness :
  run [] example_interface = Done example_interface ∧
  accepts example_interface peer_reply ∧
  ∃ s1 s2,
    recv_frame peer_reply example_interface = Done (s1, None) ∧
    tick 30000 s1 = Done s2 ∧
    (holds_resolved s2 (ip4 10 0 0 2) ↔ 30000 < 30000).
Proof.
  assert (Hacc : accepts example_interface peer_reply) by (left; reflexivity).
  split; [reflexivity|]. split; [exact Hacc|].
  refine (resolved_lifetime mac_own addr_own [] example_interface peer_reply
            (makeArp ARPMessage.OPCODE_REPLY mac_peer (ip4 10 0 0 2)
                     mac_own (ip4 10 0 0 1))
            30000 eq_refl Hacc eq_refl eq_refl _).
  lia.
Defined.

Lemma recv_frame_twice_witness :
  run [] example_interface = Done example_interface ∧
  accepts example_interface peer_reply ∧
  ∃ s1,
    recv_frame peer_reply example_interface = Done (s1, None) ∧
    recv_frame peer_reply s1 = Done (s1, None).
Proof.
  assert (Hacc : accepts example_interface peer_reply) by (left; reflexivity).
  split; [reflexivity|]. split; [exact Hacc|].
  exact (recv_frame_twice mac_own addr_own [] example_interface peer_reply
           (makeArp ARPMessage.OPCODE_REPLY mac_peer (ip4 10 0 0 2)
                    mac_own (ip4 10 0 0 1))
           eq_refl Hacc eq_refl eq_refl eq_refl).
Defined.
